(** * LL(1) / SLR(1) grammar analyser

    A shallow embedding of [analizador_ll1_slr1_ll1corregido.py]: the
    [LR0Item] and [Grammar] classes, the FIRST/FOLLOW solver, the LR(0)
    automaton, both table builders and the two parsing drivers, followed
    by the properties of the design document that were checked on them
    and by further properties read off the code.

    Conventions of the embedding.
    - A Python [str] is a [string]; [strip], [split] and [isupper] are
      modelled on ASCII text.
    - A [set] / [frozenset] is a [gset]; a [for] loop over a set walks
      [elements] of it (Python leaves that order unspecified as well).
    - The [productions] dictionary is an association list in insertion
      order, the order in which Python iterates a [dict].
    - [defaultdict(set)] and [defaultdict(dict)] are finite maps read
      with a default; creating a key by reading it is not observable in
      this program and is not modelled.
    - A [while] loop takes fuel; running out of fuel is the separate
      outcome [OutOfFuel], never confused with a Python exception. *)

From Stdlib Require Import Ascii.
From stdpp Require Import strings gmap list fin_sets.

Set Warnings "-clear-no-such-hyp".


(** ** Outcomes of a run *)

Inductive exn := TypeError | KeyError | IndexError.

Inductive run (A : Type) : Type :=
| Ok (a : A)
| Raise (e : exn)
| OutOfFuel.
Arguments Ok {A} a.
Arguments Raise {A} e.
Arguments OutOfFuel {A}.

Definition bind {A B} (m : run A) (k : A → run B) : run B :=
  match m with
  | Ok a => k a
  | Raise e => Raise e
  | OutOfFuel => OutOfFuel
  end.

#[export] Instance run_ret : MRet run := λ A a, Ok a.
#[export] Instance run_bind : MBind run := λ A B k m, bind m k.

(** [changed = True; while changed: changed = False; ...]: [pass] is one
    execution of the loop body and reports the final value of the flag. *)
Fixpoint while_changed {S : Type} (fuel : nat) (pass : S → S * bool) (s : S) : run S :=
  match fuel with
  | 0 => OutOfFuel
  | S fuel' =>
      let '(s', changed) := pass s in
      if changed then while_changed fuel' pass s' else Ok s'
  end.

(** ** Python string helpers (ASCII) *)

Module Py.

(** [str.isspace] on one character. *)
Definition is_space (c : ascii) : bool :=
  let n := nat_of_ascii c in
  ((9 <=? n) && (n <=? 13)) || ((28 <=? n) && (n <=? 32)).

Definition is_upper_char (c : ascii) : bool :=
  let n := nat_of_ascii c in ((65 <=? n) && (n <=? 90)).

Definition is_lower_char (c : ascii) : bool :=
  let n := nat_of_ascii c in ((97 <=? n) && (n <=? 122)).

Fixpoint any_char (p : ascii → bool) (s : string) : bool :=
  match s with
  | EmptyString => false
  | String c s' => p c || any_char p s'
  end.

(** [str.isupper]: at least one cased character and none in lower case. *)
Definition isupper (s : string) : bool :=
  any_char is_upper_char s && negb (any_char is_lower_char s).

Fixpoint lstrip (s : string) : string :=
  match s with
  | EmptyString => EmptyString
  | String c s' => if is_space c then lstrip s' else s
  end.

Fixpoint rstrip (s : string) : string :=
  match s with
  | EmptyString => EmptyString
  | String c s' =>
      match rstrip s' with
      | EmptyString => if is_space c then EmptyString else String c EmptyString
      | r => String c r
      end
  end.

Definition strip (s : string) : string := rstrip (lstrip s).

(** [str.split()] without arguments; [word] is the token being read,
    last character first. *)
Fixpoint split_from (word : list ascii) (s : string) : list string :=
  let flush (rest : list string) :=
    match word with
    | [] => rest
    | _ => String.string_of_list_ascii (rev word) :: rest
    end in
  match s with
  | EmptyString => flush []
  | String c s' =>
      if is_space c then
        match word with
        | [] => split_from [] s'
        | _ => String.string_of_list_ascii (rev word) :: split_from [] s'
        end
      else split_from (c :: word) s'
  end.

Definition split (s : string) : list string := split_from [] s.

(** [sep.join(l)] *)
Fixpoint join (sep : string) (l : list string) : string :=
  match l with
  | [] => EmptyString
  | x :: rest =>
      match rest with
      | [] => x
      | _ => x +:+ sep +:+ join sep rest
      end
  end.

End Py.

(** The two reserved literals. *)
Definition EPS : string := "e".
Definition EOF : string := "$".

(** ** class LR0Item *)

Module LR0Item.

Record t := mk { head : string; body : list string; dot_pos : nat }.

#[export] Instance eq_dec : EqDecision t.
Proof. solve_decision. Defined.

Definition to_tuple (i : t) : string * list string * nat :=
  (head i, body i, dot_pos i).
Definition of_tuple (p : string * list string * nat) : t :=
  mk p.1.1 p.1.2 p.2.

Lemma of_to_tuple i : of_tuple (to_tuple i) = i.
Proof. by destruct i. Defined.

#[export] Instance countable : Countable t :=
  inj_countable' to_tuple of_tuple of_to_tuple.

Definition is_reduce_item (self : t) : bool :=
  bool_decide (dot_pos self = length (body self)).

(** [None] is Python's [None]. *)
Definition next_symbol (self : t) : option string :=
  if decide (dot_pos self < length (body self))
  then body self !! dot_pos self else None.

Definition advance (self : t) : t :=
  mk (head self) (body self) (dot_pos self + 1).

End LR0Item.
Export (hints) LR0Item.

Abbreviation Item := LR0Item.t.
Abbreviation State := (gset LR0Item.t).


(** The three shapes of action tuple: [('shift', n)],
    [('reduce', head, body)] and [('accept',)]. *)
Inductive Action :=
| shift (target : nat)
| reduce (head : string) (body : list string)
| accept.

#[export] Instance Action_eq_dec : EqDecision Action.
Proof. solve_decision. Defined.

(** A table indexed by state number. [build_slr_tables] leaves either a
    plain empty [dict] (a missing row raises [KeyError]) or a
    [defaultdict(dict)] (a missing row reads as the empty row). *)
Inductive table (K V : Type) `{Countable K} :=
| Plain (rows : gmap nat (gmap K V))
| Default (rows : gmap nat (gmap K V)).
Arguments Plain {K V _ _} rows.
Arguments Default {K V _ _} rows.

Definition table_row {K V} `{Countable K} (t : table K V) (i : nat) : run (gmap K V) :=
  match t with
  | Plain rows => match rows !! i with Some r => Ok r | None => Raise KeyError end
  | Default rows => Ok (default ∅ (rows !! i))
  end.

(** Reading a [defaultdict(set)]. *)
Definition getset {K} `{Countable K} (m : gmap K (gset string)) (k : K) : gset string :=
  default ∅ (m !! k).

(** Reading and writing [d[i][k]] of a [defaultdict(dict)]. *)
Definition getrow {I K V} `{Countable I, Countable K}
    (m : gmap I (gmap K V)) (i : I) : gmap K V :=
  default ∅ (m !! i).

Definition setcell {I K V} `{Countable I, Countable K}
    (m : gmap I (gmap K V)) (i : I) (k : K) (v : V) : gmap I (gmap K V) :=
  <[i := <[k := v]> (getrow m i)]> m.

(** Truth value of a set: [if s:]. *)
Definition nonempty `{Countable A} (s : gset A) : bool := negb (bool_decide (s = ∅)).

(** ** class Grammar *)

Module Grammar.

Abbreviation prods_t := (list (string * list (list string))).

Record t := mk {
  productions : prods_t;
  terminals : gset string;
  non_terminals : gset string;
  start_symbol : option string;
  first : gmap string (gset string);
  follow : gmap (option string) (gset string);
  action_table : table string Action;
  goto_table : table (option string) nat;
  states : list State;
  has_slr_conflict : bool
}.

(** [Grammar()] *)
Definition init : t :=
  mk [] ∅ ∅ None ∅ ∅ (Plain ∅) (Plain ∅) [] false.

Definition with_productions (p : prods_t) (g : t) : t :=
  mk p (terminals g) (non_terminals g) (start_symbol g) (first g) (follow g)
     (action_table g) (goto_table g) (states g) (has_slr_conflict g).
Definition with_terminals (s : gset string) (g : t) : t :=
  mk (productions g) s (non_terminals g) (start_symbol g) (first g) (follow g)
     (action_table g) (goto_table g) (states g) (has_slr_conflict g).
Definition with_non_terminals (s : gset string) (g : t) : t :=
  mk (productions g) (terminals g) s (start_symbol g) (first g) (follow g)
     (action_table g) (goto_table g) (states g) (has_slr_conflict g).
Definition with_start_symbol (s : option string) (g : t) : t :=
  mk (productions g) (terminals g) (non_terminals g) s (first g) (follow g)
     (action_table g) (goto_table g) (states g) (has_slr_conflict g).
Definition with_first (f : gmap string (gset string)) (g : t) : t :=
  mk (productions g) (terminals g) (non_terminals g) (start_symbol g) f (follow g)
     (action_table g) (goto_table g) (states g) (has_slr_conflict g).
Definition with_follow (f : gmap (option string) (gset string)) (g : t) : t :=
  mk (productions g) (terminals g) (non_terminals g) (start_symbol g) (first g) f
     (action_table g) (goto_table g) (states g) (has_slr_conflict g).
Definition with_tables (a : table string Action) (go : table (option string) nat) (g : t) : t :=
  mk (productions g) (terminals g) (non_terminals g) (start_symbol g) (first g) (follow g)
     a go (states g) (has_slr_conflict g).
Definition with_states (s : list State) (g : t) : t :=
  mk (productions g) (terminals g) (non_terminals g) (start_symbol g) (first g) (follow g)
     (action_table g) (goto_table g) s (has_slr_conflict g).
Definition with_has_slr_conflict (b : bool) (g : t) : t :=
  mk (productions g) (terminals g) (non_terminals g) (start_symbol g) (first g) (follow g)
     (action_table g) (goto_table g) (states g) b.

(** *** The [productions] dictionary *)

(** [productions[head]], for a key that is present. *)
Fixpoint bodies_of (p : prods_t) (head : string) : option (list (list string)) :=
  match p with
  | [] => None
  | (h, bs) :: rest => if decide (h = head) then Some bs else bodies_of rest head
  end.

(** [head in productions] *)
Definition has_key (p : prods_t) (head : string) : bool :=
  match bodies_of p head with Some _ => true | None => false end.

(** [productions[head].append(body)] on a [defaultdict(list)]: a new
    key goes last. *)
Fixpoint append_body (p : prods_t) (head : string) (body : list string) : prods_t :=
  match p with
  | [] => [(head, [body])]
  | (h, bs) :: rest =>
      if decide (h = head) then (h, bs ++ [body]) :: rest
      else (h, bs) :: append_body rest head body
  end.

(** *** add_production *)

(** One turn of [for symbol in body]. *)
Definition classify (head : string) (g : t) (symbol : string) : t :=
  if negb (Py.isupper symbol) && negb (bool_decide (symbol = EPS)) then
    with_terminals (terminals g ∪ {[symbol]}) g
  else if negb (bool_decide (symbol = head)) then
    with_non_terminals (non_terminals g ∪ {[symbol]}) g
  else g.

Definition add_production (self : t) (head body_str : string) : t :=
  let body := Py.split (Py.strip body_str) in
  let g1 := match start_symbol self with
            | None => with_start_symbol (Some head) self
            | Some _ => self
            end in
  let g2 := with_productions (append_body (productions g1) head body) g1 in
  let g3 := with_non_terminals (non_terminals g2 ∪ {[head]}) g2 in
  foldl (classify head) g3 body.

(** *** first_of_string *)

(** The [for ... else] loop; [result] is the set built so far. *)
Fixpoint first_scan (self : t) (symbols : list string) (result : gset string) : gset string :=
  match symbols with
  | [] => result ∪ {[EPS]}
  | symbol :: rest =>
      if negb (has_key (productions self) symbol) then result ∪ {[symbol]}
      else
        let result := result ∪ (getset (first self) symbol ∖ {[EPS]}) in
        if negb (bool_decide (EPS ∈ getset (first self) symbol)) then result
        else first_scan self rest result
  end.

Definition first_of_string (self : t) (symbols : list string) : gset string :=
  match symbols with
  | [] => {[EPS]}
  | _ => first_scan self symbols ∅
  end.

(** *** calculate_first *)

(** [for symbol in body] from the symbols in [rest] on; [last] is
    [body[-1]], [fc] the FIRST map and the [changed] flag. *)
Fixpoint first_body (p : prods_t) (head last : string) (rest : list string)
    (fc : gmap string (gset string) * bool) : gmap string (gset string) * bool :=
  match rest with
  | [] => fc
  | symbol :: rest' =>
      let '(f, changed) := fc in
      if negb (has_key p symbol) then
        if negb (bool_decide (symbol ∈ getset f head))
        then (<[head := getset f head ∪ {[symbol]}]> f, true)
        else (f, changed)
      else
        let before := size (getset f head) in
        let f := <[head := getset f head ∪ (getset f symbol ∖ {[EPS]})]> f in
        if negb (bool_decide (EPS ∈ getset f symbol)) then (f, changed)
        else
          let f := if bool_decide (symbol = last)
                   then <[head := getset f head ∪ {[EPS]}]> f else f in
          let changed := changed || bool_decide (before < size (getset f head)) in
          first_body p head last rest' (f, changed)
  end.

(** [body[-1]]; only read inside the loop, where [body] is not empty. *)
Definition last_of (body : list string) : string := List.last body "".

(** One execution of the body of [while changed]. *)
Definition first_pass (p : prods_t) (f : gmap string (gset string))
  : gmap string (gset string) * bool :=
  foldl (λ fc '(head, _),
           foldl (λ fc body, first_body p head (last_of body) body fc)
                 fc (default [] (bodies_of p head)))
        (f, false) p.

Definition calculate_first (fuel : nat) (self : t) : run t :=
  f ← while_changed fuel (first_pass (productions self)) (first self);
  Ok (with_first f self).

(** *** calculate_follow *)

(** One turn of [for i, B in enumerate(body)], with [beta = body[i+1:]]. *)
Definition follow_symbol (self : t) (head B : string) (beta : list string)
    (fc : gmap (option string) (gset string) * bool)
  : gmap (option string) (gset string) * bool :=
  if has_key (productions self) B then
    let '(fo, changed) := fc in
    let trailer := first_of_string self beta ∖ {[EPS]} in
    let '(fo, changed) :=
      if nonempty (trailer ∖ getset fo (Some B))
      then (<[Some B := getset fo (Some B) ∪ trailer]> fo, true)
      else (fo, changed) in
    if bool_decide (EPS ∈ first_of_string self beta) || bool_decide (beta = []) then
      if nonempty (getset fo (Some head) ∖ getset fo (Some B))
      then (<[Some B := getset fo (Some B) ∪ getset fo (Some head)]> fo, true)
      else (fo, changed)
    else (fo, changed)
  else fc.

Fixpoint follow_body (self : t) (head : string) (body : list string)
    (fc : gmap (option string) (gset string) * bool)
  : gmap (option string) (gset string) * bool :=
  match body with
  | [] => fc
  | B :: beta => follow_body self head beta (follow_symbol self head B beta fc)
  end.

Definition follow_pass (self : t) (fo : gmap (option string) (gset string))
  : gmap (option string) (gset string) * bool :=
  foldl (λ fc '(head, bodies), foldl (λ fc body, follow_body self head body fc) fc bodies)
        (fo, false) (productions self).

Definition calculate_follow (fuel : nat) (self : t) : run t :=
  let start := start_symbol self in
  let seeded := <[start := getset (follow self) start ∪ {[EOF]}]> (follow self) in
  fo ← while_changed fuel (follow_pass self) seeded;
  Ok (with_follow fo self).

(** *** augmented *)

(** Returns the new grammar and [self] as the call leaves it: the
    copy of [productions] is shallow, so when the primed start symbol
    is already a head, the body appended to the copy lands in the list
    that [self] holds too. *)
Definition augmented (self : t) : run (t * t) :=
  match start_symbol self with
  | None => Raise TypeError
  | Some s =>
      let new_start := s +:+ "'" in
      let new := mk (productions self) (terminals self) (non_terminals self)
                    (Some new_start) ∅ ∅ (Plain ∅) (Plain ∅) [] false in
      let new := add_production new new_start s in
      let self := if has_key (productions self) new_start
                  then with_productions (productions new) self else self in
      Ok (new, self)
  end.

(** *** closure and goto *)

(** One turn of [for item in closure_set]. *)
Definition closure_item (p : prods_t) (closure_set : State)
    (acc : State * bool) (item : Item) : State * bool :=
  match LR0Item.next_symbol item with
  | Some next_sym =>
      if negb (bool_decide (next_sym = "")) && has_key p next_sym then
        foldl (λ '(new_items, added) prod,
                 let new_item := LR0Item.mk next_sym prod 0 in
                 if bool_decide (new_item ∉ closure_set)
                 then (new_items ∪ {[new_item]}, true)
                 else (new_items, added))
              acc (default [] (bodies_of p next_sym))
      else acc
  | None => acc
  end.

Definition closure_pass (p : prods_t) (closure_set : State) : State * bool :=
  let '(new_items, added) :=
    foldl (closure_item p closure_set) (∅, false) (elements closure_set) in
  (closure_set ∪ new_items, added).

Definition closure (fuel : nat) (self : t) (items : State) : run State :=
  while_changed fuel (closure_pass (productions self)) items.

Definition goto (fuel : nat) (self : t) (items : State) (symbol : option string) : run State :=
  let moved :=
    foldl (λ moved item,
             if bool_decide (LR0Item.next_symbol item = symbol)
             then moved ∪ {[LR0Item.advance item]} else moved)
          (∅ : State) (elements items) in
  closure fuel self moved.

(** *** build_lr0_states *)

(** The locals of the exploration: [states], [seen], [queue] and
    [transitions]. *)
Record lr0 := mk_lr0 {
  lr0_states : list State;
  lr0_seen : gmap State nat;
  lr0_queue : list State;
  lr0_transitions : gmap (nat * string) nat
}.

(** One turn of [for symbol in self.terminals | self.non_terminals]. *)
Definition explore_symbol (fuel : nat) (self : t) (current : State) (idx : nat)
    (acc : run lr0) (symbol : string) : run lr0 :=
  st ← acc;
  target ← goto fuel self current (Some symbol);
  if bool_decide (target = ∅) then Ok st
  else
    match lr0_seen st !! target with
    | Some j =>
        Ok (mk_lr0 (lr0_states st) (lr0_seen st) (lr0_queue st)
                   (<[(idx, symbol) := j]> (lr0_transitions st)))
    | None =>
        let j := length (lr0_states st) in
        Ok (mk_lr0 (lr0_states st ++ [target]) (<[target := j]> (lr0_seen st))
                   (lr0_queue st ++ [target])
                   (<[(idx, symbol) := j]> (lr0_transitions st)))
    end.

(** [while queue:]; [fuel] bounds this loop, [cfuel] the loops of the
    [closure] calls inside it. *)
Fixpoint explore (fuel cfuel : nat) (self : t) (st : lr0) : run lr0 :=
  match fuel with
  | 0 => OutOfFuel
  | S fuel' =>
      match lr0_queue st with
      | [] => Ok st
      | current :: queue =>
          match lr0_seen st !! current with
          | None => Raise KeyError
          | Some idx =>
              st ← foldl (explore_symbol cfuel self current idx)
                         (Ok (mk_lr0 (lr0_states st) (lr0_seen st) queue (lr0_transitions st)))
                         (elements (terminals self ∪ non_terminals self));
              explore fuel' cfuel self st
          end
      end
  end.

Definition build_lr0_states (fuel : nat) (self : t) : run (gmap (nat * string) nat * t) :=
  '(augmented, self) ← augmented self;
  match start_symbol augmented, start_symbol self with
  | Some aug_start, Some s =>
      let start := LR0Item.mk aug_start [s] 0 in
      start_closure ← closure fuel augmented {[start]};
      st ← explore fuel fuel self
             (mk_lr0 [start_closure] {[start_closure := 0]} [start_closure] ∅);
      Ok (lr0_transitions st, with_states (lr0_states st) self)
  | _, _ => Raise TypeError (* not reached: [augmented] has raised *)
  end.

(** *** build_slr_tables *)

(** A reported conflict, one per line printed: state, symbol and the
    action that was already in the cell. *)
Abbreviation conflict_t := (nat * string * Action)%type.

(** The locals of the traversal: [action], [goto],
    [self.has_slr_conflict] and the lines printed so far. *)
Record slr := mk_slr {
  slr_action : gmap nat (gmap string Action);
  slr_goto : gmap nat (gmap (option string) nat);
  slr_conflict : bool;
  slr_printed : list conflict_t
}.

(** The guarded write [action[idx][a] = new]. *)
Definition put_action (idx : nat) (new : Action) (st : slr) (a : string) : slr :=
  let st :=
    match getrow (slr_action st) idx !! a with
    | Some old =>
        if bool_decide (old ≠ new)
        then mk_slr (slr_action st) (slr_goto st) true (slr_printed st ++ [(idx, a, old)])
        else st
    | None => st
    end in
  mk_slr (setcell (slr_action st) idx a new) (slr_goto st) (slr_conflict st) (slr_printed st).

(** [self.states.index(target)], when [target in self.states]. *)
Fixpoint index_of (target : State) (l : list State) : option nat :=
  match l with
  | [] => None
  | s :: l' => if decide (s = target) then Some 0 else S <$> index_of target l'
  end.

(** One turn of [for item in state]. *)
Definition slr_item (fuel : nat) (self : t) (aug_start : option string)
    (idx : nat) (state : State) (acc : run slr) (item : Item) : run slr :=
  st ← acc;
  if LR0Item.is_reduce_item item then
    if bool_decide (Some (LR0Item.head item) = aug_start) then
      Ok (mk_slr (setcell (slr_action st) idx EOF accept)
                 (slr_goto st) (slr_conflict st) (slr_printed st))
    else
      Ok (foldl (put_action idx (reduce (LR0Item.head item) (LR0Item.body item))) st
                (elements (getset (follow self) (Some (LR0Item.head item)))))
  else
    let sym := LR0Item.next_symbol item in
    target ← goto fuel self state sym;
    match index_of target (states self) with
    | Some tidx =>
        match sym with
        | Some a =>
            if bool_decide (a ∈ terminals self) then Ok (put_action idx (shift tidx) st a)
            else Ok (mk_slr (slr_action st) (setcell (slr_goto st) idx sym tidx)
                            (slr_conflict st) (slr_printed st))
        | None =>
            Ok (mk_slr (slr_action st) (setcell (slr_goto st) idx sym tidx)
                       (slr_conflict st) (slr_printed st))
        end
    | None => Ok st
    end.

(** [for idx, state in enumerate(self.states)] from index [idx] on. *)
Fixpoint slr_states (fuel : nat) (self : t) (aug_start : option string)
    (idx : nat) (l : list State) (acc : run slr) : run slr :=
  match l with
  | [] => acc
  | state :: l' =>
      slr_states fuel self aug_start (S idx) l'
        (foldl (slr_item fuel self aug_start idx state) acc (elements state))
  end.

Abbreviation slr_tables :=
  (gmap nat (gmap string Action) * gmap nat (gmap (option string) nat))%type.

(** Returns the pair of tables ([None] for [(None, None)]), [self] as
    the call leaves it, and the conflict lines printed. *)
Definition build_slr_tables (fuel : nat) (self : t)
  : run (option slr_tables * t * list conflict_t) :=
  self ← calculate_first fuel self;
  self ← calculate_follow fuel self;
  '(_, self) ← build_lr0_states fuel self;
  '(augmented, self) ← augmented self;
  st ← slr_states fuel self (start_symbol augmented) 0 (states self)
         (Ok (mk_slr ∅ ∅ (has_slr_conflict self) []));
  let self := with_has_slr_conflict (slr_conflict st) self in
  if has_slr_conflict self then
    Ok (None, with_tables (Plain ∅) (Plain ∅) self, slr_printed st)
  else
    Ok (Some (slr_action st, slr_goto st),
        with_tables (Default (slr_action st)) (Default (slr_goto st)) self,
        slr_printed st).

(** *** build_ll1_table *)

Abbreviation ll1_t := (gmap string (gmap string (list string))).

(** The guarded write [ll1_table[head][terminal] = body]; [None] once
    the function has returned [None]. *)
Definition ll1_put (head : string) (body : list string)
    (acc : option ll1_t) (terminal : string) : option ll1_t :=
  match acc with
  | None => None
  | Some table =>
      if bool_decide (is_Some (getrow table head !! terminal)) then None
      else Some (setcell table head terminal body)
  end.

(** One turn of [for body in prods]. *)
Definition ll1_body (self : t) (head : string)
    (acc : option ll1_t) (body : list string) : option ll1_t :=
  match acc with
  | None => None
  | Some _ =>
      let first := first_of_string self body in
      let acc := foldl (ll1_put head body) acc (elements (first ∖ {[EPS]})) in
      if bool_decide (EPS ∈ first)
      then foldl (ll1_put head body) acc (elements (getset (follow self) (Some head)))
      else acc
  end.

Definition ll1_fill (self : t) : option ll1_t :=
  foldl (λ acc '(head, prods), foldl (ll1_body self head) acc prods)
        (Some ∅) (productions self).

Definition build_ll1_table (fuel : nat) (self : t) : run (option ll1_t * t) :=
  self ← calculate_first fuel self;
  self ← calculate_follow fuel self;
  Ok (ll1_fill self, self).

End Grammar.

(** ** slr_parse *)

(** What one turn of [while True] does: go round again or return. The
    stack is kept top first. *)
Inductive turn :=
| Again (stack : list nat) (idx : nat)
| Return (verdict : bool).

(** [for _ in body: stack.pop()] *)
Fixpoint pop_each (body : list string) (stack : list nat) : run (list nat) :=
  match body with
  | [] => Ok stack
  | _ :: body' =>
      match stack with
      | [] => Raise IndexError
      | _ :: stack' => pop_each body' stack'
      end
  end.

Definition slr_turn (tokens : list string) (grammar : Grammar.t)
    (stack : list nat) (idx : nat) : run turn :=
  match stack, tokens !! idx with
  | state :: _, Some current =>
      row ← table_row (Grammar.action_table grammar) state;
      match row !! current with
      | None => Ok (Return false)
      | Some (shift target) => Ok (Again (target :: stack) (idx + 1))
      | Some (reduce head body) =>
          stack ← pop_each body stack;
          match stack with
          | [] => Raise IndexError
          | top :: _ =>
              row ← table_row (Grammar.goto_table grammar) top;
              match row !! Some head with
              | Some target => Ok (Again (target :: stack) idx)
              | None => Raise KeyError
              end
          end
      | Some accept => Ok (Return true)
      end
  | _, _ => Raise IndexError
  end.

Fixpoint slr_loop (fuel : nat) (tokens : list string) (grammar : Grammar.t)
    (stack : list nat) (idx : nat) : run bool :=
  match fuel with
  | 0 => OutOfFuel
  | S fuel' =>
      t ← slr_turn tokens grammar stack idx;
      match t with
      | Again stack idx => slr_loop fuel' tokens grammar stack idx
      | Return verdict => Ok verdict
      end
  end.

Definition slr_parse (fuel : nat) (tokens : list string) (grammar : Grammar.t) : run bool :=
  slr_loop fuel (tokens ++ [EOF]) grammar [0] 0.

(** ** parse_ll1 *)

(** One turn of [while stack:]. The stack is kept top first; an entry
    is a symbol or Python's [None] (the start symbol of a grammar
    without productions). *)
Inductive ll1_turn_t :=
| LL1Again (stack : list (option string)) (idx : nat)
| LL1Return (verdict : bool).

(** [table] is the [defaultdict(dict)] that [build_ll1_table] returns. *)
Definition ll1_turn (tokens : list string) (grammar : Grammar.t) (table : Grammar.ll1_t)
    (stack : list (option string)) (idx : nat) : run ll1_turn_t :=
  match stack with
  | [] => Ok (LL1Return false)
  | top :: stack =>
      match tokens !! idx with
      | None => Raise IndexError
      | Some current =>
          if bool_decide (top = Some current) then
            if bool_decide (top = Some EOF) then Ok (LL1Return true)
            else Ok (LL1Again stack (idx + 1))
          else
            match top with
            | None => Ok (LL1Return false)
            | Some t =>
                if negb (Grammar.has_key (Grammar.productions grammar) t)
                then Ok (LL1Return false)
                else
                  match getrow table t !! current with
                  | Some production =>
                      if bool_decide (production ≠ [EPS])
                      then Ok (LL1Again ((Some <$> production) ++ stack) idx)
                      else Ok (LL1Again stack idx)
                  | None => Ok (LL1Return false)
                  end
            end
      end
  end.

Fixpoint ll1_loop (fuel : nat) (tokens : list string) (grammar : Grammar.t)
    (table : Grammar.ll1_t) (stack : list (option string)) (idx : nat) : run bool :=
  match fuel with
  | 0 => OutOfFuel
  | S fuel' =>
      t ← ll1_turn tokens grammar table stack idx;
      match t with
      | LL1Again stack idx => ll1_loop fuel' tokens grammar table stack idx
      | LL1Return verdict => Ok verdict
      end
  end.

Definition parse_ll1 (fuel : nat) (tokens : list string) (grammar : Grammar.t)
    (table : Grammar.ll1_t) : run bool :=
  ll1_loop fuel (tokens ++ [EOF]) grammar table
           [Grammar.start_symbol grammar; Some EOF] 0.

(** ** The grammars of the examples *)

(** What [main] does with the rule lines once split on [->] and [|]. *)
Definition load (rules : list (string * string)) : Grammar.t :=
  foldl (λ g '(head, alt), Grammar.add_production g head alt) Grammar.init rules.

(** [' '.join(alt.strip().split())], what [main] hands to
    [add_production] for the alternative [alt]. *)
Definition cleaned (alt : string) : string := Py.join " " (Py.split (Py.strip alt)).

Definition g_arith : Grammar.t :=
  load [("E", "E + T"); ("E", "T"); ("T", "T * F"); ("T", "F"); ("F", "( E )"); ("F", "id")].

Definition g_conflict : Grammar.t := load [("S", "a S"); ("S", "a")].

(** [S -> A b A], [A -> a | e]: the first symbol of the long body is
    nullable and equal to its last symbol. *)
Definition g_nullable_ends : Grammar.t :=
  load [("S", "A b A"); ("A", "a"); ("A", "e")].

(** [S -> B] where [B] has no production of its own. *)
Definition g_undefined : Grammar.t := load [("S", "B")].

(** [S -> a] registered twice. *)
Definition g_duplicate : Grammar.t := load [("S", "a"); ("S", "a")].

(** [E -> E + E | id], which is ambiguous. *)
Definition g_ambiguous : Grammar.t := load [("E", "E + E"); ("E", "id")].

(** The grammar a build leaves behind. *)
Definition built (r : run (option Grammar.slr_tables * Grammar.t * list Grammar.conflict_t))
  : Grammar.t :=
  match r with Ok (_, g, _) => g | _ => Grammar.init end.

(** * Properties *)

(** ** More fuel does not change a finished run *)

Definition stable {A} (f : nat → run A) : Prop :=
  ∀ n m, n ≤ m → f n ≠ OutOfFuel → f m = f n.

Section Stable.
Context {A B : Type}.

Lemma stable_const (r : run A) : stable (λ _, r).
Proof. by intros n m _ _. Qed.

Lemma stable_bind (f : nat → run A) (k : A → nat → run B) :
  stable f → (∀ a, stable (k a)) → stable (λ n, a ← f n; k a n).
Proof.
  intros Hf Hk n m Hle Hfin.
  assert (f n ≠ OutOfFuel) as Hn by (intros E; apply Hfin; by rewrite E).
  rewrite (Hf n m Hle Hn).
  destruct (f n) as [a| |]; [|done..].
  apply (Hk a n m Hle Hfin).
Qed.

Lemma stable_while (pass : A → A * bool) (s : A) :
  stable (λ n, while_changed n pass s).
Proof.
  intros n. revert s. induction n as [|n IH]; intros s m Hle Hfin; [done|].
  destruct m as [|m]; [lia|]. simpl in *.
  destruct (pass s) as [s' []]; [|done].
  apply IH; [lia|done].
Qed.

(** A loop whose turns all thread a [run] accumulator. *)
Lemma stable_foldl {X} (step : nat → run B → X → run B) (l : list X) :
  (∀ n x, step n OutOfFuel x = OutOfFuel) →
  (∀ acc x, stable (λ n, step n acc x)) →
  ∀ acc, stable (λ n, foldl (step n) acc l).
Proof.
  intros Hstrict Hstep.
  assert (∀ n l', foldl (step n) OutOfFuel l' = OutOfFuel) as Hout.
  { intros n l'. induction l' as [|x l' IH]; [done|]. simpl. by rewrite Hstrict. }
  induction l as [|x l IH]; intros acc n m Hle Hfin; [done|]. simpl in *.
  assert (step n acc x ≠ OutOfFuel) as Hn.
  { intros E. apply Hfin. by rewrite E, Hout. }
  rewrite (Hstep acc x n m Hle Hn). by apply IH.
Qed.
End Stable.

Lemma stable_calculate_first g : stable (λ n, Grammar.calculate_first n g).
Proof.
  unfold Grammar.calculate_first.
  apply (stable_bind (λ n, while_changed n _ _) (λ f _, Ok _)).
  - apply stable_while.
  - intros f. apply stable_const.
Qed.

Lemma stable_calculate_follow g : stable (λ n, Grammar.calculate_follow n g).
Proof.
  unfold Grammar.calculate_follow.
  apply (stable_bind (λ n, while_changed n _ _) (λ f _, Ok _)).
  - apply stable_while.
  - intros f. apply stable_const.
Qed.

Lemma stable_closure g items : stable (λ n, Grammar.closure n g items).
Proof. apply stable_while. Qed.

Lemma stable_goto g items symbol : stable (λ n, Grammar.goto n g items symbol).
Proof. apply stable_closure. Qed.

Lemma stable_explore_symbol g current idx acc symbol :
  stable (λ n, Grammar.explore_symbol n g current idx acc symbol).
Proof.
  unfold Grammar.explore_symbol.
  apply (stable_bind (λ _, acc)); [apply stable_const|]. intros st.
  apply (stable_bind (λ n, Grammar.goto n g current (Some symbol)) (λ target _, _)).
  - apply stable_goto.
  - intros target. apply stable_const.
Qed.

Lemma stable_explore g fuel cfuel fuel' cfuel' st :
  fuel ≤ fuel' → cfuel ≤ cfuel' →
  Grammar.explore fuel cfuel g st ≠ OutOfFuel →
  Grammar.explore fuel' cfuel' g st = Grammar.explore fuel cfuel g st.
Proof.
  revert fuel' st. induction fuel as [|fuel IH]; intros fuel' st Hle Hcle Hfin; [done|].
  destruct fuel' as [|fuel']; [lia|]. simpl in *.
  destruct (Grammar.lr0_queue st) as [|current queue]; [done|].
  destruct (Grammar.lr0_seen st !! current) as [idx|]; [|done].
  set (start := Ok _) in *. set (syms := elements _) in *.
  assert (foldl (Grammar.explore_symbol cfuel g current idx) start syms ≠ OutOfFuel) as Hn.
  { intros E. apply Hfin. by rewrite E. }
  rewrite (stable_foldl (λ n, Grammar.explore_symbol n g current idx) syms
             (λ _ _, eq_refl) (λ acc x, stable_explore_symbol g current idx acc x)
             start cfuel cfuel' Hcle Hn).
  destruct (foldl _ start syms) as [st'| |]; [|done..].
  apply IH; [lia|done|done].
Qed.

Lemma stable_build_lr0_states g : stable (λ n, Grammar.build_lr0_states n g).
Proof.
  unfold Grammar.build_lr0_states.
  apply (stable_bind (λ _, Grammar.augmented g)); [apply stable_const|].
  intros [aug self].
  destruct (Grammar.start_symbol aug) as [aug_start|]; [|apply stable_const].
  destruct (Grammar.start_symbol self) as [s|]; [|apply stable_const].
  apply (stable_bind (λ n, Grammar.closure n aug _) (λ c n, _)); [apply stable_closure|].
  intros c.
  apply (stable_bind (λ n, Grammar.explore n n self _) (λ st _, Ok _)).
  - intros n m Hle Hfin. by apply stable_explore.
  - intros st. apply stable_const.
Qed.

Lemma stable_slr_item g aug_start idx state acc item :
  stable (λ n, Grammar.slr_item n g aug_start idx state acc item).
Proof.
  unfold Grammar.slr_item.
  apply (stable_bind (λ _, acc)); [apply stable_const|]. intros st.
  destruct (LR0Item.is_reduce_item item); [apply stable_const|].
  apply (stable_bind (λ n, Grammar.goto n g state _) (λ target _, _)).
  - apply stable_goto.
  - intros target. apply stable_const.
Qed.

Lemma stable_slr_states g aug_start l :
  ∀ idx acc, stable (λ n, Grammar.slr_states n g aug_start idx l acc).
Proof.
  assert (∀ n l' idx, Grammar.slr_states n g aug_start idx l' OutOfFuel = OutOfFuel) as Hout.
  { intros n l'. induction l' as [|s l' IH]; intros idx; [done|]. simpl.
    replace (foldl _ OutOfFuel (elements s)) with (@OutOfFuel Grammar.slr); [apply IH|].
    generalize (elements s). intros items. by induction items. }
  induction l as [|state l IH]; intros idx acc n m Hle Hfin; [done|]. simpl in *.
  pose (inner k := foldl (Grammar.slr_item k g aug_start idx state) acc (elements state)).
  change (Grammar.slr_states n g aug_start (S idx) l (inner n) ≠ OutOfFuel) in Hfin.
  change (Grammar.slr_states m g aug_start (S idx) l (inner m)
          = Grammar.slr_states n g aug_start (S idx) l (inner n)).
  assert (inner n ≠ OutOfFuel) as Hn.
  { intros E. apply Hfin. by rewrite E, Hout. }
  assert (inner m = inner n) as ->.
  { apply (stable_foldl (λ k, Grammar.slr_item k g aug_start idx state));
      [done| |done..].
    intros acc' x. apply stable_slr_item. }
  by apply IH.
Qed.

Lemma stable_build_slr_tables g : stable (λ n, Grammar.build_slr_tables n g).
Proof.
  unfold Grammar.build_slr_tables.
  apply (stable_bind (λ n, Grammar.calculate_first n g)); [apply stable_calculate_first|].
  intros g1.
  apply (stable_bind (λ n, Grammar.calculate_follow n g1)); [apply stable_calculate_follow|].
  intros g2.
  apply (stable_bind (λ n, Grammar.build_lr0_states n g2)); [apply stable_build_lr0_states|].
  intros [tr g3].
  apply (stable_bind (λ _, Grammar.augmented g3)); [apply stable_const|].
  intros [aug g4].
  apply (stable_bind (λ n, Grammar.slr_states n g4 _ 0 _ _) (λ st _, _)).
  - apply stable_slr_states.
  - intros st. apply stable_const.
Qed.

Lemma stable_build_ll1_table g : stable (λ n, Grammar.build_ll1_table n g).
Proof.
  unfold Grammar.build_ll1_table.
  apply (stable_bind (λ n, Grammar.calculate_first n g)); [apply stable_calculate_first|].
  intros g1.
  apply (stable_bind (λ n, Grammar.calculate_follow n g1) (λ g2 _, Ok _));
    [apply stable_calculate_follow|].
  intros g2. apply stable_const.
Qed.

Lemma stable_slr_loop tokens g : ∀ stack idx, stable (λ n, slr_loop n tokens g stack idx).
Proof.
  intros stack idx n. revert stack idx.
  induction n as [|n IH]; intros stack idx m Hle Hfin; [done|].
  destruct m as [|m]; [lia|]. simpl in *.
  destruct (slr_turn tokens g stack idx) as [[stack' idx'|v]| |]; [|done..].
  apply IH; [lia|done].
Qed.

Lemma stable_slr_parse tokens g : stable (λ n, slr_parse n tokens g).
Proof. apply stable_slr_loop. Qed.

(** A run that is finished at [n] yields the same at [n + k]. *)
Lemma stable_plus {A} (f : nat → run A) (n k : nat) (r : run A) :
  stable f → f n = r → r ≠ OutOfFuel → f (n + k) = r.
Proof. intros Hs <- Hfin. apply Hs; [lia|done]. Qed.

(** A finished run agrees with every other finished run. *)
Lemma stable_agree {A} (f : nat → run A) (n m : nat) :
  stable f → f n ≠ OutOfFuel → f m ≠ OutOfFuel → f m = f n.
Proof.
  intros Hs Hn Hm. destruct (decide (n ≤ m)).
  - by apply Hs.
  - symmetry. apply Hs; [lia|done].
Qed.

(** ** add_production *)

Section AddProduction.
Import Grammar.

(** Whether [classify] files a symbol under the terminals. *)
Definition terminal_like (symbol : string) : bool :=
  negb (Py.isupper symbol) && negb (bool_decide (symbol = EPS)).

Lemma classify_fields head g symbol :
  productions (classify head g symbol) = productions g
  ∧ start_symbol (classify head g symbol) = start_symbol g
  ∧ first (classify head g symbol) = first g
  ∧ follow (classify head g symbol) = follow g.
Proof.
  unfold classify.
  destruct (negb (Py.isupper symbol) && _); [done|].
  by destruct (negb (bool_decide (symbol = head))).
Qed.

Lemma classify_terminals head g symbol x :
  x ∈ terminals (classify head g symbol)
  ↔ x ∈ terminals g ∨ (x = symbol ∧ terminal_like symbol = true).
Proof.
  unfold classify, terminal_like.
  destruct (negb (Py.isupper symbol) && _) eqn:E; simpl.
  - set_solver.
  - destruct (negb (bool_decide (symbol = head))); simpl; naive_solver.
Qed.

Lemma classify_non_terminals head g symbol x :
  x ∈ non_terminals (classify head g symbol)
  ↔ x ∈ non_terminals g
    ∨ (x = symbol ∧ terminal_like symbol = false ∧ symbol ≠ head).
Proof.
  unfold classify, terminal_like.
  destruct (negb (Py.isupper symbol) && _) eqn:E; simpl.
  - naive_solver.
  - destruct (decide (symbol = head)) as [->|Hne].
    + rewrite bool_decide_eq_true_2 by done. simpl. naive_solver.
    + rewrite bool_decide_eq_false_2 by done. simpl. set_solver.
Qed.

Lemma foldl_classify_fields head body : ∀ g,
  productions (foldl (classify head) g body) = productions g
  ∧ start_symbol (foldl (classify head) g body) = start_symbol g
  ∧ first (foldl (classify head) g body) = first g
  ∧ follow (foldl (classify head) g body) = follow g.
Proof.
  induction body as [|s body IH]; intros g; [done|]. simpl.
  destruct (IH (classify head g s)) as (-> & -> & -> & ->).
  apply classify_fields.
Qed.

Lemma foldl_classify_terminals head body x : ∀ g,
  x ∈ terminals (foldl (classify head) g body)
  ↔ x ∈ terminals g ∨ (x ∈ body ∧ terminal_like x = true).
Proof.
  induction body as [|s body IH]; intros g; simpl.
  - rewrite elem_of_nil. naive_solver.
  - rewrite IH, classify_terminals, elem_of_cons. naive_solver.
Qed.

Lemma foldl_classify_non_terminals head body x : ∀ g,
  x ∈ non_terminals (foldl (classify head) g body)
  ↔ x ∈ non_terminals g ∨ (x ∈ body ∧ terminal_like x = false ∧ x ≠ head).
Proof.
  induction body as [|s body IH]; intros g; simpl.
  - rewrite elem_of_nil. naive_solver.
  - rewrite IH, classify_non_terminals, elem_of_cons. naive_solver.
Qed.

Lemma add_production_productions g head body_str :
  productions (add_production g head body_str)
  = append_body (productions g) head (Py.split (Py.strip body_str)).
Proof.
  unfold add_production. cbv zeta.
  rewrite (proj1 (foldl_classify_fields _ _ _)). simpl.
  by destruct (start_symbol g).
Qed.

Lemma add_production_terminals g head body_str x :
  x ∈ terminals (add_production g head body_str)
  ↔ x ∈ terminals g
    ∨ (x ∈ Py.split (Py.strip body_str) ∧ terminal_like x = true).
Proof.
  unfold add_production. rewrite foldl_classify_terminals. simpl.
  by destruct (start_symbol g).
Qed.

Lemma add_production_non_terminals g head body_str x :
  x ∈ non_terminals (add_production g head body_str)
  ↔ x ∈ non_terminals g ∨ x = head
    ∨ (x ∈ Py.split (Py.strip body_str) ∧ terminal_like x = false ∧ x ≠ head).
Proof.
  unfold add_production. rewrite foldl_classify_non_terminals. simpl.
  destruct (start_symbol g); simpl; set_solver.
Qed.

End AddProduction.

(** C8. Whenever the epsilon marker occurs in the tokenized body of a
    call [add_production(head, body_str)] and [head] is not the epsilon
    marker, the call puts the epsilon marker into the set of
    non-terminals, and it never puts it into the set of terminals: it is
    a terminal afterwards only if it was one before. *)
Theorem add_production_epsilon (g : Grammar.t) (head body_str : string) :
  EPS ∈ Py.split (Py.strip body_str) →
  head ≠ EPS →
  EPS ∈ Grammar.non_terminals (Grammar.add_production g head body_str)
  ∧ (EPS ∈ Grammar.terminals (Grammar.add_production g head body_str)
     ↔ EPS ∈ Grammar.terminals g).
Proof.
  intros Hin Hne. split.
  - apply add_production_non_terminals. right. right. by repeat split.
  - rewrite add_production_terminals. split; [|by left].
    intros [?|[_ Hlike]]; [done|]. by vm_compute in Hlike.
Qed.

Lemma add_production_epsilon_witness :
  EPS ∈ Py.split (Py.strip " a  e ")
  ∧ "A" ≠ EPS
  ∧ EPS ∈ Grammar.non_terminals (Grammar.add_production Grammar.init "A" " a  e ")
  ∧ (EPS ∈ Grammar.terminals (Grammar.add_production Grammar.init "A" " a  e ")
     ↔ EPS ∈ Grammar.terminals Grammar.init).
Proof.
  assert (EPS ∈ Py.split (Py.strip " a  e ")) as Hin.
  { vm_compute. apply list_elem_of_In. simpl. tauto. }
  assert ("A" ≠ EPS) as Hne by discriminate.
  exact (conj Hin (conj Hne (add_production_epsilon Grammar.init "A" " a  e " Hin Hne))).
Defined.

(** ** slr_parse *)

(** C10. When the action the driver finds is a reduce whose recorded
    body is the one-symbol sequence of the epsilon marker, exactly one
    state index is popped: the goto is looked up under the state just
    below the top, and its target is pushed over that state. *)
Theorem slr_reduce_epsilon_body_pops_one
    (tokens : list string) (grammar : Grammar.t) (state : nat) (rest : list nat)
    (idx : nat) (current head : string) (row : gmap string Action) :
  tokens !! idx = Some current →
  table_row (Grammar.action_table grammar) state = Ok row →
  row !! current = Some (reduce head [EPS]) →
  pop_each [EPS] (state :: rest) = Ok rest
  ∧ slr_turn tokens grammar (state :: rest) idx =
      match rest with
      | [] => Raise IndexError
      | top :: _ =>
          gotos ← table_row (Grammar.goto_table grammar) top;
          match gotos !! Some head with
          | Some target => Ok (Again (target :: rest) idx)
          | None => Raise KeyError
          end
      end.
Proof.
  intros Htok Hrow Hact. split; [done|].
  unfold slr_turn. rewrite Htok, Hrow. simpl. rewrite Hact. simpl.
  by destruct rest.
Qed.

Lemma slr_reduce_epsilon_body_pops_one_witness :
  let grammar :=
    Grammar.with_tables (Default {[ 1 := {[ EOF := reduce "A" [EPS] ]} ]})
                        (Default {[ 0 := {[ Some "A" := 2 ]} ]}) Grammar.init in
  [EOF] !! 0 = Some EOF
  ∧ table_row (Grammar.action_table grammar) 1 = Ok {[ EOF := reduce "A" [EPS] ]}
  ∧ ({[ EOF := reduce "A" [EPS] ]} : gmap string Action) !! EOF = Some (reduce "A" [EPS])
  ∧ pop_each [EPS] [1; 0] = Ok [0]
  ∧ slr_turn [EOF] grammar [1; 0] 0 = Ok (Again [2; 0] 0).
Proof.
  intros grammar.
  assert ([EOF] !! 0 = Some EOF) as H1 by reflexivity.
  assert (table_row (Grammar.action_table grammar) 1 = Ok {[ EOF := reduce "A" [EPS] ]})
    as H2 by reflexivity.
  assert (({[ EOF := reduce "A" [EPS] ]} : gmap string Action) !! EOF
          = Some (reduce "A" [EPS])) as H3 by reflexivity.
  exact (conj H1 (conj H2 (conj H3
    (slr_reduce_epsilon_body_pops_one [EOF] grammar 1 [0] 0 EOF "A" _ H1 H2 H3)))).
Defined.

(** ** The worked examples *)

(** Goals that are decided by running the definitions. *)
Ltac by_running :=
  match goal with
  | |- ?P => apply (@bool_decide_unpack P _); vm_compute; exact I
  end.
Ltac run := vm_compute; reflexivity.

(** A build that returned both tables, printed no conflict and left the
    grammar without the conflict flag and holding the returned tables. *)
Definition slr_clean
    (r : run (option Grammar.slr_tables * Grammar.t * list Grammar.conflict_t)) : bool :=
  match r with
  | Ok (Some (action, goto), g, []) =>
      negb (Grammar.has_slr_conflict g)
      && match Grammar.action_table g, Grammar.goto_table g with
         | Default a, Default go => bool_decide (a = action) && bool_decide (go = goto)
         | _, _ => false
         end
  | _ => false
  end.

(** An LL(1) build that returned the no-table signal. *)
Definition ll1_failed (r : run (option Grammar.ll1_t * Grammar.t)) : bool :=
  match r with Ok (None, _) => true | _ => false end.

Definition ll1_built (r : run (option Grammar.ll1_t * Grammar.t)) : Grammar.t :=
  match r with Ok (_, g) => g | _ => Grammar.init end.

(** The grammar a run of [calculate_first] or [calculate_follow] returned. *)
Definition result (r : run Grammar.t) : Grammar.t :=
  match r with Ok g => g | _ => Grammar.init end.

Definition returns {A} (r : run A) : bool :=
  match r with Ok _ => true | _ => false end.

Section Packaging.

Lemma slr_clean_inv r :
  slr_clean r = true →
  ∃ tables g,
    r = Ok (Some tables, g, [])
    ∧ built r = g
    ∧ Grammar.has_slr_conflict g = false
    ∧ Grammar.action_table g = Default tables.1
    ∧ Grammar.goto_table g = Default tables.2.
Proof.
  destruct r as [[[[[action goto]|] g] [|c printed]]| |]; simpl; try done.
  intros [Hflag Htab]%andb_prop.
  destruct (Grammar.action_table g) as [|a] eqn:Ea; [done|].
  destruct (Grammar.goto_table g) as [|go] eqn:Ego; [done|].
  apply andb_prop in Htab as [->%bool_decide_eq_true ->%bool_decide_eq_true].
  exists (action, goto), g. split; [done|]. split; [done|].
  split; [by apply negb_true_iff|done].
Qed.

Variable f : nat → run (option Grammar.slr_tables * Grammar.t * list Grammar.conflict_t).
Variable n : nat.
Hypothesis f_stable : stable f.
Hypothesis f_clean : slr_clean (f n) = true.

Lemma slr_clean_plus :
  ∃ tables g,
    (∀ fuel, f (n + fuel) = Ok (Some tables, g, []))
    ∧ built (f n) = g
    ∧ Grammar.has_slr_conflict g = false
    ∧ Grammar.action_table g = Default tables.1
    ∧ Grammar.goto_table g = Default tables.2.
Proof.
  destruct (slr_clean_inv _ f_clean) as (tables & g & Hrun & Hrest).
  exists tables, g. split; [|done].
  intros fuel. by apply stable_plus.
Qed.

Lemma slr_clean_never_fails :
  ¬ ∃ fuel g printed, f fuel = Ok (None, g, printed).
Proof.
  intros (fuel & g & printed & Hrun).
  destruct (slr_clean_inv _ f_clean) as (tables & g' & Hn & _).
  assert (f fuel = f n) as Heq.
  { apply (stable_agree f n fuel f_stable).
    - by rewrite Hn.
    - by rewrite Hrun. }
  rewrite Hrun, Hn in Heq. discriminate.
Qed.

End Packaging.

Lemma ll1_failed_plus (f : nat → run (option Grammar.ll1_t * Grammar.t)) (n : nat) :
  stable f → ll1_failed (f n) = true →
  ∀ fuel, f (n + fuel) = Ok (None, ll1_built (f n)).
Proof.
  intros Hs Hfail fuel. apply stable_plus; [done| |done].
  by destruct (f n) as [[[|] g]| |].
Qed.

Lemma returns_plus (f : nat → run Grammar.t) (n : nat) :
  stable f → returns (f n) = true → ∀ fuel, f (n + fuel) = Ok (result (f n)).
Proof.
  intros Hs Hret fuel. apply stable_plus; [done| |done].
  by destruct (f n).
Qed.

Lemma verdict_plus (f : nat → run bool) (n : nat) (v : bool) :
  stable f → f n = Ok v → ∀ fuel, f (n + fuel) = Ok v.
Proof. intros Hs Hv fuel. by apply stable_plus. Qed.

(** C6. For [E -> E + T | T], [T -> T * F | F], [F -> ( E ) | id] the
    SLR(1) build returns both tables and reports no conflict; with
    these tables the driver accepts [id + id * id] and rejects [id +]. *)
Theorem arithmetic_grammar_slr :
  ∃ tables g,
    (∀ fuel, Grammar.build_slr_tables (13 + fuel) g_arith = Ok (Some tables, g, []))
    ∧ Grammar.has_slr_conflict g = false
    ∧ Grammar.action_table g = Default tables.1
    ∧ Grammar.goto_table g = Default tables.2
    ∧ (∀ fuel, slr_parse (14 + fuel) ["id"; "+"; "id"; "*"; "id"] g = Ok true)
    ∧ (∀ fuel, slr_parse (6 + fuel) ["id"; "+"] g = Ok false).
Proof.
  assert (slr_clean (Grammar.build_slr_tables 13 g_arith) = true) as Hclean by run.
  assert (slr_parse 14 ["id"; "+"; "id"; "*"; "id"]
            (built (Grammar.build_slr_tables 13 g_arith)) = Ok true) as Hyes by run.
  assert (slr_parse 6 ["id"; "+"]
            (built (Grammar.build_slr_tables 13 g_arith)) = Ok false) as Hno by run.
  destruct (slr_clean_plus (λ n, Grammar.build_slr_tables n g_arith) 13
              (stable_build_slr_tables g_arith) Hclean)
    as (tables & g & Hrun & Hg & Hflag & Ha & Hgo).
  rewrite Hg in Hyes, Hno. clear Hclean Hg.
  exists tables, g.
  split; [exact Hrun|]. split; [exact Hflag|]. split; [exact Ha|]. split; [exact Hgo|].
  split.
  - exact (verdict_plus (λ n, slr_parse n _ g) 14 true (stable_slr_parse _ g) Hyes).
  - exact (verdict_plus (λ n, slr_parse n _ g) 6 false (stable_slr_parse _ g) Hno).
Qed.

(** C1, as the code has it. For [S -> a S | a] the SLR(1) build reports
    no conflict and returns both tables (FOLLOW(S) is the end marker
    alone, so the reduce by [S -> a] never meets the shift on [a]); the
    LL(1) build returns the no-table signal, because the second body
    finds the cell of [a] in the row of [S] filled by the first. *)
Theorem right_recursive_grammar_slr_not_ll1 :
  (∃ tables g,
      (∀ fuel, Grammar.build_slr_tables (5 + fuel) g_conflict = Ok (Some tables, g, []))
      ∧ Grammar.has_slr_conflict g = false
      ∧ getset (Grammar.follow g) (Some "S") = {[EOF]})
  ∧ (∃ g,
      (∀ fuel, Grammar.build_ll1_table (2 + fuel) g_conflict = Ok (None, g))
      ∧ Grammar.productions g = [("S", [["a"; "S"]; ["a"]])]
      ∧ Grammar.first_of_string g ["a"; "S"] = {["a"]}
      ∧ Grammar.first_of_string g ["a"] = {["a"]}
      ∧ Grammar.ll1_put "S" ["a"] (Grammar.ll1_body g "S" (Some ∅) ["a"; "S"]) "a" = None).
Proof.
  split.
  - assert (slr_clean (Grammar.build_slr_tables 5 g_conflict) = true) as Hclean by run.
    assert (getset (Grammar.follow (built (Grammar.build_slr_tables 5 g_conflict)))
              (Some "S") = {[EOF]}) as Hfollow by run.
    destruct (slr_clean_plus (λ n, Grammar.build_slr_tables n g_conflict) 5
                (stable_build_slr_tables g_conflict) Hclean)
      as (tables & g & Hrun & Hg & Hflag & _).
    rewrite Hg in Hfollow. clear Hclean Hg.
    exists tables, g. split; [exact Hrun|]. split; [exact Hflag|exact Hfollow].
  - exists (ll1_built (Grammar.build_ll1_table 2 g_conflict)).
    split; [|split; [|split; [|split]]].
    + apply (ll1_failed_plus (λ n, Grammar.build_ll1_table n g_conflict) 2
               (stable_build_ll1_table g_conflict)). run.
    + run.
    + run.
    + run.
    + run.
Qed.

(** Against C1 as stated: no run of the SLR(1) build on [S -> a S | a]
    ends in the failure signal. *)
Lemma right_recursive_grammar_slr_never_fails :
  ¬ ∃ fuel g printed, Grammar.build_slr_tables fuel g_conflict = Ok (None, g, printed).
Proof.
  apply (slr_clean_never_fails (λ n, Grammar.build_slr_tables n g_conflict) 5
           (stable_build_slr_tables g_conflict)).
  run.
Qed.

(** C3, at the input where the code departs from it. In
    [S -> A b A], [A -> a | e] the scan of [A b A] stops at [b], which
    has no productions, and yet the epsilon marker ends up in FIRST(S):
    the first [A] is nullable and equal to the last symbol of the body. *)
Theorem first_epsilon_despite_early_stop :
  ∃ g,
    (∀ fuel, Grammar.calculate_first (3 + fuel) g_nullable_ends = Ok g)
    ∧ Grammar.productions g = [("S", [["A"; "b"; "A"]]); ("A", [["a"]; ["e"]])]
    ∧ Grammar.has_key (Grammar.productions g) "b" = false
    ∧ getset (Grammar.first g) "A" = {["a"; EPS]}
    ∧ getset (Grammar.first g) "S" = {["a"; "b"; EPS]}.
Proof.
  exists (result (Grammar.calculate_first 3 g_nullable_ends)).
  split; [|split; [|split; [|split]]].
  - apply (returns_plus (λ n, Grammar.calculate_first n g_nullable_ends) 3
             (stable_calculate_first g_nullable_ends)). run.
  - run.
  - run.
  - run.
  - run.
Qed.

(** Against C2 as stated: in [S -> B], where the upper-case [B] is the
    head of no production, FIRST(S) holds [B], a member of the set of
    non-terminals and not of the set of terminals. *)
Lemma first_holds_undefined_non_terminal :
  ∃ g,
    (∀ fuel, Grammar.calculate_first (2 + fuel) g_undefined = Ok g)
    ∧ "B" ∈ getset (Grammar.first g) "S"
    ∧ "B" ∈ Grammar.non_terminals g
    ∧ ("B" ∉ Grammar.terminals g)
    ∧ "B" ≠ EPS.
Proof.
  exists (result (Grammar.calculate_first 2 g_undefined)).
  split; [|split; [|split; [|split]]].
  - apply (returns_plus (λ n, Grammar.calculate_first n g_undefined) 2
             (stable_calculate_first g_undefined)). run.
  - by_running.
  - by_running.
  - by_running.
  - discriminate.
Qed.

(** Against C4 as stated: with [S -> a] registered twice the LL(1)
    build returns the no-table signal, although the cell the second
    body runs into holds that very body. *)
Lemma duplicate_production_fails_ll1 :
  ∃ g,
    (∀ fuel, Grammar.build_ll1_table (2 + fuel) g_duplicate = Ok (None, g))
    ∧ Grammar.productions g = [("S", [["a"]; ["a"]])]
    ∧ Grammar.ll1_body g "S" (Some ∅) ["a"] = Some {[ "S" := {[ "a" := ["a"] ]} ]}.
Proof.
  exists (ll1_built (Grammar.build_ll1_table 2 g_duplicate)).
  split; [|split].
  - apply (ll1_failed_plus (λ n, Grammar.build_ll1_table n g_duplicate) 2
             (stable_build_ll1_table g_duplicate)). run.
  - run.
  - run.
Qed.

(** ** Loops and maps of sets *)

Lemma foldl_invariant {A B} (P : A → Prop) (f : A → B → A) (l : list B) :
  (∀ a x, x ∈ l → P a → P (f a x)) → ∀ a, P a → P (foldl f a l).
Proof.
induction l as [|x l IH]; intros Hstep a Ha; [done|]. simpl.
apply IH.
- intros a' y Hy. apply Hstep. by right.
- apply Hstep; [by left|done].
Qed.

(** What holds before a [while changed] loop and is kept by every pass
    holds of what the loop returns. *)
Lemma while_changed_invariant {S} (P : S → Prop) (pass : S → S * bool) :
  (∀ s, P s → P (pass s).1) →
  ∀ fuel s s', P s → while_changed fuel pass s = Ok s' → P s'.
Proof.
intros Hpass fuel. induction fuel as [|fuel IH]; intros s s' Hs Hrun; [done|].
simpl in Hrun. specialize (Hpass s Hs).
destruct (pass s) as [s1 []]; simpl in *.
- by apply (IH s1).
- by injection Hrun as <-.
Qed.

(** A [while changed] loop ends when every pass that sets the flag
    raises a measure that stays under a bound. *)
Lemma while_changed_terminates {S} (Inv : S → Prop) (measure : S → nat) (bound : nat)
    (pass : S → S * bool) :
  (∀ s, Inv s → Inv (pass s).1) →
  (∀ s, Inv s → measure s ≤ bound) →
  (∀ s, Inv s → (pass s).2 = true → measure s < measure (pass s).1) →
  ∀ fuel s, Inv s → bound - measure s < fuel →
    ∃ s', while_changed fuel pass s = Ok s' ∧ Inv s'.
Proof.
intros Hinv Hbound Hgrow fuel.
induction fuel as [|fuel IH]; intros s Hs Hfuel; [lia|]. simpl.
pose proof (Hinv s Hs) as Hs1. pose proof (Hgrow s Hs) as Hlt.
destruct (pass s) as [s1 []]; simpl in *.
- apply IH; [done|]. specialize (Hlt eq_refl). specialize (Hbound s1 Hs1). lia.
- by exists s1.
Qed.

Section SetMaps.
Context `{Countable K}.
Implicit Types m : gmap K (gset string).

Lemma getset_insert_eq m k s : getset (<[k := s]> m) k = s.
Proof. unfold getset. by rewrite lookup_insert_eq. Qed.

Lemma getset_insert_ne m k k' s : k ≠ k' → getset (<[k := s]> m) k' = getset m k'.
Proof. intros Hne. unfold getset. by rewrite lookup_insert_ne. Qed.

(** Every set of the first map lies in the matching set of the second. *)
Definition below m m' : Prop := ∀ k, getset m k ⊆ getset m' k.

Lemma below_refl m : below m m.
Proof. by intros k. Qed.

Lemma below_trans m1 m2 m3 : below m1 m2 → below m2 m3 → below m1 m3.
Proof. intros H12 H23 k. by transitivity (getset m2 k). Qed.

Lemma below_insert m k s : getset m k ⊆ s → below m (<[k := s]> m).
Proof.
intros Hs k'. destruct (decide (k = k')) as [<-|Hne].
- by rewrite getset_insert_eq.
- by rewrite getset_insert_ne.
Qed.

(** Total number of elements under the keys [ks]. *)
Definition weight (ks : list K) m : nat := sum_list ((λ k, size (getset m k)) <$> ks).

Lemma weight_mono ks m m' : below m m' → weight ks m ≤ weight ks m'.
Proof.
intros Hb. unfold weight. induction ks as [|k ks IH]; csimpl; [done|].
pose proof (subseteq_size _ _ (Hb k)). lia.
Qed.

Lemma weight_strict ks m m' k :
  below m m' → k ∈ ks → size (getset m k) < size (getset m' k) →
  weight ks m < weight ks m'.
Proof.
intros Hb Hk Hlt. unfold weight.
induction ks as [|k' ks IH]; csimpl; [by apply elem_of_nil in Hk|].
apply elem_of_cons in Hk as [<-|Hk].
- pose proof (weight_mono ks m m' Hb). unfold weight in *. lia.
- pose proof (subseteq_size _ _ (Hb k')). specialize (IH Hk). lia.
Qed.

Lemma weight_bound ks m (U : gset string) :
  (∀ k, getset m k ⊆ U) → weight ks m ≤ length ks * size U.
Proof.
intros HU. unfold weight. induction ks as [|k ks IH]; csimpl; [done|].
pose proof (subseteq_size _ _ (HU k)). lia.
Qed.

(** Every member of every set has the property [Φ]. *)
Definition all_members (Φ : string → Prop) m : Prop := ∀ k x, x ∈ getset m k → Φ x.

Lemma all_members_insert Φ m k s :
  all_members Φ m → (∀ x, x ∈ s → Φ x) → all_members Φ (<[k := s]> m).
Proof.
intros Hf Hs k' x. destruct (decide (k = k')) as [<-|Hne].
- rewrite getset_insert_eq. apply Hs.
- rewrite getset_insert_ne by done. apply Hf.
Qed.

(** The sets of a map, gathered. *)
Definition contents m : gset string := ⋃ ((map_to_list m).*2).

Lemma getset_contents m k : getset m k ⊆ contents m.
Proof.
unfold getset, contents. destruct (m !! k) as [s|] eqn:E; simpl; [|set_solver].
intros x Hx. apply elem_of_union_list. exists s. split; [|done].
apply list_elem_of_fmap. exists (k, s). split; [done|].
by apply elem_of_map_to_list.
Qed.

End SetMaps.

(** ** The productions *)

Section Productions.
Import Grammar.
Implicit Types p : prods_t.

Lemma bodies_of_elem p head bs : bodies_of p head = Some bs → (head, bs) ∈ p.
Proof.
induction p as [|[h bs'] p IH]; [done|]. simpl.
destruct (decide (h = head)) as [->|Hne].
- intros [= ->]. by left.
- intros Hb. right. by apply IH.
Qed.

Lemma has_key_heads p head : has_key p head = true → head ∈ p.*1.
Proof.
unfold has_key. destruct (bodies_of p head) as [bs|] eqn:E; [|done].
intros _. apply list_elem_of_fmap. exists (head, bs). split; [done|].
by apply bodies_of_elem.
Qed.

(** [x] stands in some body of [p]. *)
Definition occurs p (x : string) : Prop :=
  ∃ head bs body, (head, bs) ∈ p ∧ body ∈ bs ∧ x ∈ body.

(** All the symbols of all the bodies. *)
Definition body_symbols p : gset string :=
  list_to_set (mjoin (mjoin p.*2)).

Lemma occurs_body_symbols p x : occurs p x → x ∈ body_symbols p.
Proof.
intros (head & bs & body & Hp & Hbs & Hx).
apply elem_of_list_to_set, list_elem_of_join. exists body. split; [done|].
apply list_elem_of_join. exists bs. split; [done|].
apply list_elem_of_fmap. by exists (head, bs).
Qed.

Lemma append_body_elem p head body h bs :
  (h, bs) ∈ append_body p head body →
  (h, bs) ∈ p ∨ (h = head ∧ ∃ bs0, bs = bs0 ++ [body] ∧ (bs0 = [] ∨ (head, bs0) ∈ p)).
Proof.
induction p as [|[h' bs'] p IH]; simpl.
- intros [[= -> ->]|Hin]%elem_of_cons; [|by apply elem_of_nil in Hin].
  right. split; [done|]. exists []. by split; [|left].
- destruct (decide (h' = head)) as [->|Hne].
  + intros [[= -> ->]|Hin]%elem_of_cons.
    * right. split; [done|]. exists bs'. split; [done|]. right. by left.
    * left. by right.
  + intros [[= -> ->]|Hin]%elem_of_cons.
    * left. by left.
    * destruct (IH Hin) as [?|(-> & bs0 & -> & [->|?])].
      -- left. by right.
      -- right. split; [done|]. exists []. by split; [|left].
      -- right. split; [done|]. exists bs0. split; [done|]. right. by right.
Qed.

Lemma occurs_append_body p head body x :
  occurs (append_body p head body) x → occurs p x ∨ x ∈ body.
Proof.
intros (h & bs & b & Hp & Hb & Hx).
destruct (append_body_elem _ _ _ _ _ Hp) as [Hin|(-> & bs0 & -> & Hbs0)].
- left. by exists h, bs, b.
- apply elem_of_app in Hb as [Hb|Hb].
  + destruct Hbs0 as [->|Hin]; [by apply elem_of_nil in Hb|].
    left. by exists head, bs0, b.
  + apply list_elem_of_singleton in Hb as ->. by right.
Qed.

End Productions.

(** ** calculate_first *)

Section First.
Import Grammar.
Variable p : prods_t.
Implicit Types f : gmap string (gset string).

(** A property of symbols that the epsilon marker has, and so has every
    symbol without productions found in a body, holds of all members of
    all FIRST sets once it holds of them at the start. *)
Section Members.
Variable Φ : string → Prop.
Hypothesis Φ_eps : Φ EPS.

Lemma first_body_members head last rest : ∀ f c,
  (∀ s, s ∈ rest → has_key p s = false → Φ s) →
  all_members Φ f → all_members Φ (first_body p head last rest (f, c)).1.
Proof.
induction rest as [|symbol rest IH]; intros f c Hrest Hf; [done|]. simpl.
destruct (has_key p symbol) eqn:Ekey; simpl.
- set (f1 := <[head := getset f head ∪ (getset f symbol ∖ {[EPS]})]> f).
  assert (all_members Φ f1) as Hf1.
  { apply all_members_insert; [done|]. intros x [Hx|Hx]%elem_of_union.
    - by apply (Hf head).
    - apply (Hf symbol). set_solver. }
  destruct (bool_decide (EPS ∈ getset f1 symbol)); simpl; [|done].
  apply IH; [intros s Hs; apply Hrest; by right|].
  destruct (bool_decide (symbol = last)); [|done].
  apply all_members_insert; [done|]. intros x [Hx|Hx]%elem_of_union.
  + by apply (Hf1 head).
  + by apply elem_of_singleton in Hx as ->.
- destruct (bool_decide (symbol ∈ getset f head)); simpl; [done|].
  apply all_members_insert; [done|]. intros x [Hx|Hx]%elem_of_union.
  + by apply (Hf head).
  + apply elem_of_singleton in Hx as ->. apply Hrest; [by left|done].
Qed.

Lemma first_pass_members f :
  (∀ s, occurs p s → has_key p s = false → Φ s) →
  all_members Φ f → all_members Φ (first_pass p f).1.
Proof.
intros Hocc Hf. unfold first_pass.
apply (foldl_invariant (λ fc, all_members Φ fc.1)); [|done].
intros fc [head bs0] Hhead Hfc.
apply (foldl_invariant (λ fc, all_members Φ fc.1)); [|done].
intros [f' c'] body Hbody Hfc'.
destruct (bodies_of p head) as [bs|] eqn:Ebs; [|by apply elem_of_nil in Hbody].
apply first_body_members; [|done].
intros s Hs. apply Hocc. exists head, bs, body.
split; [by apply bodies_of_elem|done].
Qed.

End Members.

(** The sets only grow, and the flag is raised only when FIRST(head)
    has grown. *)
Lemma first_body_grows head last rest : ∀ f c,
  let fc' := first_body p head last rest (f, c) in
  below f fc'.1
  ∧ (fc'.2 = true → c = true ∨ size (getset f head) < size (getset fc'.1 head)).
Proof.
induction rest as [|symbol rest IH]; intros f c; simpl; [split; [apply below_refl|by left]|].
destruct (has_key p symbol) eqn:Ekey; simpl.
- set (f1 := <[head := getset f head ∪ (getset f symbol ∖ {[EPS]})]> f).
  assert (below f f1) as H1 by (apply below_insert; set_solver).
  destruct (bool_decide (EPS ∈ getset f1 symbol)); simpl; [|split; [done|by left]].
  set (f2 := if bool_decide (symbol = last)
             then <[head := getset f1 head ∪ {[EPS]}]> f1 else f1).
  assert (below f1 f2) as H2.
  { unfold f2. destruct (bool_decide (symbol = last)); [|apply below_refl].
    apply below_insert. set_solver. }
  destruct (IH f2 (c || bool_decide (size (getset f head) < size (getset f2 head))))
    as [H3 Hflag].
  split; [by eapply below_trans; [eapply below_trans|]|].
  intros Hc. destruct (Hflag Hc) as [Hor|Hlt].
  + apply orb_prop in Hor as [?|Hlt%bool_decide_eq_true]; [by left|].
    right. pose proof (subseteq_size _ _ (H3 head)). lia.
  + right. pose proof (subseteq_size _ _ (below_trans _ _ _ H1 H2 head)). lia.
- destruct (bool_decide (symbol ∈ getset f head)) eqn:Ein; simpl.
  + split; [apply below_refl|by left].
  + split; [apply below_insert; set_solver|]. intros _. right.
    rewrite getset_insert_eq. apply bool_decide_eq_false in Ein.
    rewrite size_union by set_solver. rewrite size_singleton. lia.
Qed.

(** One pass: the map it returns lies above the one it was given, and
    when it reports a change the weight under the heads has gone up. *)
Lemma first_pass_grows f :
  let fc' := first_pass p f in
  below f fc'.1 ∧ (fc'.2 = true → weight p.*1 f < weight p.*1 fc'.1).
Proof.
unfold first_pass.
apply (foldl_invariant
         (λ fc, below f fc.1 ∧ (fc.2 = true → weight p.*1 f < weight p.*1 fc.1)));
  [|split; [apply below_refl|done]].
intros fc [head bs0] Hhead Hfc.
assert (head ∈ p.*1) as Hkey.
{ apply list_elem_of_fmap. by exists (head, bs0). }
apply (foldl_invariant
         (λ fc, below f fc.1 ∧ (fc.2 = true → weight p.*1 f < weight p.*1 fc.1)));
  [|done].
intros [f1 c1] body _ [Hb Hw]. simpl in *.
destruct (first_body_grows head (last_of body) body f1 c1) as [Hb' Hflag].
split; [by eapply below_trans|].
intros Hc. destruct (Hflag Hc) as [Hc1|Hlt].
- specialize (Hw Hc1). pose proof (weight_mono p.*1 _ _ Hb'). lia.
- pose proof (weight_mono p.*1 _ _ Hb).
  pose proof (weight_strict p.*1 _ _ head Hb' Hkey Hlt). lia.
Qed.

(** The universe of a run: what the sets hold at the start, the symbols
    of the bodies and the epsilon marker. *)
Definition first_universe f : gset string := contents f ∪ body_symbols p ∪ {[EPS]}.

Lemma first_loop_terminates f :
  ∀ fuel, length p * size (first_universe f) < fuel →
    ∃ f', while_changed fuel (first_pass p) f = Ok f'.
Proof.
intros fuel Hfuel.
set (U := first_universe f) in *.
destruct (while_changed_terminates
            (all_members (λ x, x ∈ U)) (weight p.*1) (length p * size U)
            (first_pass p)) with (fuel := fuel) (s := f) as (f' & Hrun & _).
- intros f1 Hf1. apply first_pass_members; [set_solver| |done].
  intros s Hs _. apply occurs_body_symbols in Hs. set_solver.
- intros f1 Hf1. rewrite <- (length_fmap fst p). apply weight_bound.
  intros k x. apply Hf1.
- intros f1 _. apply first_pass_grows.
- intros k x Hx. apply (getset_contents f k) in Hx. set_solver.
- lia.
- by exists f'.
Qed.

End First.

Lemma calculate_first_terminates (g : Grammar.t) :
  ∃ n, ∀ fuel, n ≤ fuel → ∃ g', Grammar.calculate_first fuel g = Ok g'.
Proof.
exists (S (length (Grammar.productions g)
           * size (first_universe (Grammar.productions g) (Grammar.first g)))).
intros fuel Hfuel. unfold Grammar.calculate_first.
destruct (first_loop_terminates (Grammar.productions g) (Grammar.first g) fuel)
  as [f' ->]; [lia|].
by eexists.
Qed.

Lemma calculate_first_fields fuel g g' :
  Grammar.calculate_first fuel g = Ok g' →
  Grammar.productions g' = Grammar.productions g
  ∧ Grammar.terminals g' = Grammar.terminals g
  ∧ Grammar.non_terminals g' = Grammar.non_terminals g
  ∧ Grammar.start_symbol g' = Grammar.start_symbol g
  ∧ Grammar.follow g' = Grammar.follow g.
Proof.
unfold Grammar.calculate_first.
destruct (while_changed _ _ _) as [f| |]; [|done..].
by intros [= <-].
Qed.

Lemma calculate_first_members (Φ : string → Prop) fuel g g' :
  Φ EPS →
  (∀ s, occurs (Grammar.productions g) s →
        Grammar.has_key (Grammar.productions g) s = false → Φ s) →
  all_members Φ (Grammar.first g) →
  Grammar.calculate_first fuel g = Ok g' →
  all_members Φ (Grammar.first g').
Proof.
intros Heps Hocc Hf. unfold Grammar.calculate_first.
destruct (while_changed _ _ _) as [f| |] eqn:Hrun; [|done..].
intros [= <-]. simpl.
apply (while_changed_invariant (all_members Φ) _
         (λ f1, first_pass_members _ Φ Heps f1 Hocc) _ _ _ Hf Hrun).
Qed.

(** ** add_production keeps the symbol sets in step with the bodies *)

(** Every symbol of every body is filed: under the terminals when
    [classify] takes it for one, under the non-terminals otherwise. *)
Definition classified (g : Grammar.t) : Prop :=
  ∀ x, occurs (Grammar.productions g) x →
    if terminal_like x then x ∈ Grammar.terminals g else x ∈ Grammar.non_terminals g.

Lemma classified_init : classified Grammar.init.
Proof. intros x (head & bs & body & Hp & _). by apply elem_of_nil in Hp. Qed.

Lemma classified_add_production g head body_str :
  classified g → classified (Grammar.add_production g head body_str).
Proof.
intros Hg x Hx. rewrite add_production_productions in Hx.
apply occurs_append_body in Hx as [Hx|Hx].
- specialize (Hg x Hx). destruct (terminal_like x).
  + apply add_production_terminals. by left.
  + apply add_production_non_terminals. by left.
- destruct (terminal_like x) eqn:E.
  + apply add_production_terminals. by right.
  + apply add_production_non_terminals. destruct (decide (x = head)); [by right; left|].
    by right; right.
Qed.

Lemma classified_load rules : classified (load rules).
Proof.
unfold load. apply (foldl_invariant classified); [|apply classified_init].
intros g [head alt] _. apply classified_add_production.
Qed.

Lemma load_first rules : Grammar.first (load rules) = ∅.
Proof.
unfold load. apply (foldl_invariant (λ g, Grammar.first g = ∅)); [|done].
intros g [head alt] _ Hg. unfold Grammar.add_production. cbv zeta.
rewrite (proj1 (proj2 (proj2 (foldl_classify_fields _ _ _)))). simpl.
by destruct (Grammar.start_symbol g).
Qed.

Lemma load_follow rules : Grammar.follow (load rules) = ∅.
Proof.
unfold load. apply (foldl_invariant (λ g, Grammar.follow g = ∅)); [|done].
intros g [head alt] _ Hg. unfold Grammar.add_production. cbv zeta.
rewrite (proj2 (proj2 (proj2 (foldl_classify_fields _ _ _)))). simpl.
by destruct (Grammar.start_symbol g).
Qed.

Lemma returns_result (r : run Grammar.t) : returns r = true → r = Ok (result r).
Proof. by destruct r. Qed.

(** C2, as the code has it. For every grammar the program can load and
    every symbol X, [calculate_first] comes to an end, and FIRST(X) then
    holds the epsilon marker and symbols that are the head of no
    production: terminals, and upper-case symbols without productions,
    which the grammar counts among its non-terminals. No symbol that has
    productions gets into a FIRST set, the epsilon marker apart. *)
Theorem first_members_head_no_production (rules : list (string * string)) :
  (∃ n, ∀ fuel, n ≤ fuel → ∃ g', Grammar.calculate_first fuel (load rules) = Ok g')
  ∧ ∀ fuel g' X x,
      Grammar.calculate_first fuel (load rules) = Ok g' →
      x ∈ getset (Grammar.first g') X →
      x = EPS
      ∨ (Grammar.has_key (Grammar.productions g') x = false
         ∧ (x ∈ Grammar.terminals g'
            ∨ (Py.isupper x = true ∧ x ∈ Grammar.non_terminals g'))).
Proof.
split; [apply calculate_first_terminates|].
intros fuel g' X x Hrun Hx.
destruct (calculate_first_fields _ _ _ Hrun) as (-> & -> & -> & _).
revert X x Hx.
apply (calculate_first_members _ fuel (load rules) g'); [by left| |by rewrite load_first|done].
intros s Hocc Hkey. destruct (decide (s = EPS)) as [->|Hne]; [by left|]. right.
split; [done|].
pose proof (classified_load rules s Hocc) as Hs. unfold terminal_like in Hs.
destruct (Py.isupper s); simpl in Hs.
- right. by split.
- rewrite bool_decide_eq_false_2 in Hs by done. by left.
Qed.

Lemma first_members_head_no_production_witness :
  Grammar.calculate_first 2 (load [("S", "B"); ("S", "a")])
    = Ok (result (Grammar.calculate_first 2 (load [("S", "B"); ("S", "a")])))
  ∧ "B" ∈ getset (Grammar.first
                    (result (Grammar.calculate_first 2 (load [("S", "B"); ("S", "a")])))) "S"
  ∧ ("B" = EPS
     ∨ (Grammar.has_key
          (Grammar.productions
             (result (Grammar.calculate_first 2 (load [("S", "B"); ("S", "a")])))) "B" = false
        ∧ ("B" ∈ Grammar.terminals
                   (result (Grammar.calculate_first 2 (load [("S", "B"); ("S", "a")])))
           ∨ (Py.isupper "B" = true
              ∧ "B" ∈ Grammar.non_terminals
                        (result (Grammar.calculate_first 2 (load [("S", "B"); ("S", "a")]))))))).
Proof.
assert (Grammar.calculate_first 2 (load [("S", "B"); ("S", "a")])
        = Ok (result (Grammar.calculate_first 2 (load [("S", "B"); ("S", "a")])))) as Hrun.
{ apply returns_result. vm_compute. reflexivity. }
assert ("B" ∈ getset (Grammar.first
                        (result (Grammar.calculate_first 2 (load [("S", "B"); ("S", "a")]))))
                     "S") as Hin by by_running.
exact (conj Hrun (conj Hin
  (proj2 (first_members_head_no_production [("S", "B"); ("S", "a")]) 2 _ "S" "B" Hrun Hin))).
Defined.

(** ** calculate_follow *)

Lemma nonempty_grows (X Y : gset string) :
  nonempty (X ∖ Y) = true → size Y < size (Y ∪ X).
Proof.
unfold nonempty. intros Hne%negb_true_iff%bool_decide_eq_false.
apply subset_size. apply set_choose_L in Hne as [x Hx]. set_solver.
Qed.

Section Follow.
Import Grammar.
Variable self : t.
Implicit Types fo : gmap (option string) (gset string).

(** The keys under which [calculate_follow] writes. *)
Definition follow_keys : list (option string) := Some <$> (productions self).*1.

(** [Sym] singles out the symbols of the bodies; [Φ] is a property that
    the members of FIRST of any string of such symbols have, the epsilon
    marker apart. *)
Variable Sym : string → Prop.
Variable Φ : string → Prop.
Hypothesis Φ_first : ∀ beta x,
  Forall Sym beta → x ∈ first_of_string self beta → x ≠ EPS → Φ x.

Lemma follow_symbol_spec head B beta fo c :
  let fc' := follow_symbol self head B beta (fo, c) in
  below fo fc'.1
  ∧ (fc'.2 = true → c = true ∨ weight follow_keys fo < weight follow_keys fc'.1)
  ∧ (Forall Sym beta → all_members Φ fo → all_members Φ fc'.1).
Proof.
unfold follow_symbol.
destruct (has_key (productions self) B) eqn:Ekey; simpl;
  [|split; [apply below_refl|split; [by left|done]]].
assert (Some B ∈ follow_keys) as Hkey.
{ apply list_elem_of_fmap. exists B. split; [done|]. by apply has_key_heads. }
set (trailer := first_of_string self beta ∖ {[EPS]}).
(* the first guarded union *)
assert (∃ fo1 c1,
  (if nonempty (trailer ∖ getset fo (Some B))
   then (<[Some B := getset fo (Some B) ∪ trailer]> fo, true) else (fo, c)) = (fo1, c1)
  ∧ below fo fo1
  ∧ (c1 = true → c = true ∨ weight follow_keys fo < weight follow_keys fo1)
  ∧ (Forall Sym beta → all_members Φ fo → all_members Φ fo1))
  as (fo1 & c1 & -> & Hb1 & Hc1 & Hm1).
{ destruct (nonempty (trailer ∖ getset fo (Some B))) eqn:E1; eexists _, _; (split; [done|]).
  - assert (below fo (<[Some B := getset fo (Some B) ∪ trailer]> fo)) as Hb
      by (apply below_insert; set_solver).
    split; [done|]. split.
    + intros _. right. apply (weight_strict _ _ _ (Some B)); [done..|].
      rewrite getset_insert_eq. by apply nonempty_grows.
    + intros Hsym Hfo. apply all_members_insert; [done|].
      intros x [Hx|Hx]%elem_of_union; [by apply (Hfo (Some B))|].
      apply (Φ_first beta); [done|set_solver..].
  - split; [apply below_refl|]. split; [by left|done]. }
(* the second one *)
destruct (bool_decide (EPS ∈ first_of_string self beta) || bool_decide (beta = []));
  [|by split; [|split]].
destruct (nonempty (getset fo1 (Some head) ∖ getset fo1 (Some B))) eqn:E2; simpl;
  [|by split; [|split]].
assert (below fo1 (<[Some B := getset fo1 (Some B) ∪ getset fo1 (Some head)]> fo1)) as Hb2
  by (apply below_insert; set_solver).
split; [by eapply below_trans|]. split.
- intros _. right.
  pose proof (weight_mono follow_keys _ _ Hb1).
  assert (weight follow_keys fo1
          < weight follow_keys
              (<[Some B := getset fo1 (Some B) ∪ getset fo1 (Some head)]> fo1)); [|lia].
  apply (weight_strict _ _ _ (Some B)); [done..|].
  rewrite getset_insert_eq. by apply nonempty_grows.
- intros Hsym Hfo. apply all_members_insert; [by apply Hm1|].
  intros x [Hx|Hx]%elem_of_union.
  + by apply (Hm1 Hsym Hfo (Some B)).
  + by apply (Hm1 Hsym Hfo (Some head)).
Qed.

(** What a stretch of the loops keeps: the map lies above [fo0], the
    members have [Φ], and a raised flag means a gain in weight. *)
Definition follow_kept fo0 (fc : gmap (option string) (gset string) * bool) : Prop :=
  below fo0 fc.1
  ∧ all_members Φ fc.1
  ∧ (fc.2 = true → weight follow_keys fo0 < weight follow_keys fc.1).

Lemma follow_body_kept fo0 head body : ∀ fc,
  Forall Sym body → follow_kept fo0 fc → follow_kept fo0 (follow_body self head body fc).
Proof.
induction body as [|B beta IH]; intros [fo c] Hsym Hfc; [done|]. simpl.
apply Forall_cons in Hsym as [_ Hsym].
apply IH; [done|].
destruct Hfc as (Hb & Hm & Hc). simpl in *.
destruct (follow_symbol_spec head B beta fo c) as (Hb' & Hc' & Hm').
split; [by eapply below_trans|]. split; [by apply Hm'|].
intros Hflag. pose proof (weight_mono follow_keys _ _ Hb').
destruct (Hc' Hflag) as [Hold|Hlt]; [specialize (Hc Hold)|]; [lia|].
pose proof (weight_mono follow_keys _ _ Hb). lia.
Qed.

Lemma follow_pass_kept fo :
  (∀ s, occurs (productions self) s → Sym s) →
  all_members Φ fo → follow_kept fo (follow_pass self fo).
Proof.
intros Hocc Hfo. unfold follow_pass.
apply (foldl_invariant (follow_kept fo)); [|by split; [apply below_refl|split]].
intros fc [head bs] Hhead Hfc.
apply (foldl_invariant (follow_kept fo)); [|done].
intros fc' body Hbody Hfc'. apply follow_body_kept; [|done].
apply Forall_forall. intros s Hs. apply Hocc. by exists head, bs, body.
Qed.

End Follow.

(** Members of FIRST of a string: symbols of the string, or members of
    FIRST sets, or the epsilon marker. *)
Lemma first_scan_members (self : Grammar.t) (symbols : list string) : ∀ result x,
  x ∈ Grammar.first_scan self symbols result →
  x ∈ result ∨ x ∈ symbols ∨ x ∈ contents (Grammar.first self) ∨ x = EPS.
Proof.
induction symbols as [|s symbols IH]; intros result x; simpl.
- intros [?| ->%elem_of_singleton]%elem_of_union; [by left|by right; right; right].
- destruct (Grammar.has_key _ s); simpl.
  + destruct (bool_decide (EPS ∈ getset (Grammar.first self) s)); simpl.
    * intros [Hin|[Hin|Hin]]%IH.
      -- apply elem_of_union in Hin as [?|Hin]; [by left|].
         right; right; left. apply (getset_contents _ s). set_solver.
      -- right; left. by right.
      -- by right; right.
    * intros [?|Hin]%elem_of_union; [by left|].
      right; right; left. apply (getset_contents _ s). set_solver.
  + intros [?| ->%elem_of_singleton]%elem_of_union; [by left|]. right; left. by left.
Qed.

Lemma first_of_string_members (self : Grammar.t) (symbols : list string) x :
  x ∈ Grammar.first_of_string self symbols →
  x ∈ symbols ∨ x ∈ contents (Grammar.first self) ∨ x = EPS.
Proof.
unfold Grammar.first_of_string. destruct symbols as [|s symbols].
- intros ->%elem_of_singleton. by right; right.
- intros [Hin|?]%first_scan_members; [|done]. by apply elem_of_empty in Hin.
Qed.

(** What [calculate_follow] starts its loop from. *)
Definition follow_seeded (g : Grammar.t) : gmap (option string) (gset string) :=
  <[Grammar.start_symbol g :=
      getset (Grammar.follow g) (Grammar.start_symbol g) ∪ {[EOF]}]> (Grammar.follow g).

Definition follow_universe (g : Grammar.t) : gset string :=
  contents (follow_seeded g) ∪ contents (Grammar.first g)
  ∪ body_symbols (Grammar.productions g) ∪ {[EPS]}.

Lemma calculate_follow_terminates (g : Grammar.t) :
  ∃ n, ∀ fuel, n ≤ fuel → ∃ g', Grammar.calculate_follow fuel g = Ok g'.
Proof.
set (U := follow_universe g).
set (ks := follow_keys g).
exists (S (length ks * size U)). intros fuel Hfuel.
unfold Grammar.calculate_follow. fold (follow_seeded g).
assert (∀ beta x, Forall (λ s, s ∈ U) beta →
          x ∈ Grammar.first_of_string g beta → x ≠ EPS → x ∈ U) as Hfirst.
{ intros beta x Hbeta [Hx|[Hx|Hx]]%first_of_string_members Hne; [|set_solver..].
  by apply (proj1 (Forall_forall _ _) Hbeta). }
assert (∀ s, occurs (Grammar.productions g) s → s ∈ U) as Hocc.
{ intros s Hs%occurs_body_symbols. set_solver. }
destruct (while_changed_terminates
            (all_members (λ x, x ∈ U)) (weight ks) (length ks * size U)
            (Grammar.follow_pass g)) with (fuel := fuel) (s := follow_seeded g)
  as (fo & -> & _).
- intros fo Hfo. by apply (follow_pass_kept g (λ s, s ∈ U) (λ x, x ∈ U)).
- intros fo Hfo. apply weight_bound. intros k x. apply Hfo.
- intros fo Hfo. by apply (follow_pass_kept g (λ s, s ∈ U) (λ x, x ∈ U)).
- intros k x Hx. apply (getset_contents (follow_seeded g) k) in Hx. set_solver.
- lia.
- by eexists.
Qed.

(** C7. For every grammar whose FOLLOW sets are free of the epsilon
    marker when [calculate_follow] is called (they are empty in a grammar
    just loaded, and this very property keeps them so from one call to
    the next), the call comes to an end, and no FOLLOW set it leaves
    holds the epsilon marker. *)
Theorem follow_never_holds_epsilon (g : Grammar.t) :
  (∀ A, EPS ∉ getset (Grammar.follow g) A) →
  (∃ n, ∀ fuel, n ≤ fuel → ∃ g', Grammar.calculate_follow fuel g = Ok g')
  ∧ ∀ fuel g' A,
      Grammar.calculate_follow fuel g = Ok g' → EPS ∉ getset (Grammar.follow g') A.
Proof.
intros Hg. split; [apply calculate_follow_terminates|].
intros fuel g' A. unfold Grammar.calculate_follow. fold (follow_seeded g).
destruct (while_changed _ _ _) as [fo| |] eqn:Hrun; [|done..].
intros [= <-]. simpl.
assert (all_members (λ x, x ≠ EPS) fo) as Hfo; [|intros Hin; by apply (Hfo A EPS)].
apply (while_changed_invariant (all_members (λ x, x ≠ EPS)) (Grammar.follow_pass g))
  with (fuel := fuel) (s := follow_seeded g); [| |done].
- intros fo1 Hfo1.
  by apply (follow_pass_kept g (λ _, True) (λ x, x ≠ EPS)).
- apply all_members_insert.
  + intros k x Hx ->. by apply (Hg k).
  + intros x [Hx| ->%elem_of_singleton]%elem_of_union; [|done].
    intros ->. by apply (Hg (Grammar.start_symbol g)).
Qed.

Lemma follow_never_holds_epsilon_witness :
  (∀ A, EPS ∉ getset (Grammar.follow (load [("S", "A b"); ("A", "a"); ("A", "e")])) A)
  ∧ (∃ n, ∀ fuel, n ≤ fuel →
       ∃ g', Grammar.calculate_follow fuel (load [("S", "A b"); ("A", "a"); ("A", "e")]) = Ok g')
  ∧ ∀ fuel g' A,
      Grammar.calculate_follow fuel (load [("S", "A b"); ("A", "a"); ("A", "e")]) = Ok g' →
      EPS ∉ getset (Grammar.follow g') A.
Proof.
assert (∀ A, EPS ∉ getset (Grammar.follow (load [("S", "A b"); ("A", "a"); ("A", "e")])) A)
  as Hg.
{ intros A. rewrite load_follow. unfold getset. rewrite lookup_empty. simpl.
  apply not_elem_of_empty. }
exact (conj Hg (follow_never_holds_epsilon _ Hg)).
Defined.

(** ** build_slr_tables *)

Lemma bind_Ok_l {A B} (a : A) (k : A → run B) : (Ok a ≫= k) = k a.
Proof. done. Qed.

Lemma bind_Ok {A B} (m : run A) (k : A → run B) (b : B) :
  (m ≫= k) = Ok b → ∃ a, m = Ok a ∧ k a = Ok b.
Proof. destruct m as [a| |]; [|done..]. intros Hk. by exists a. Qed.

(** A line is printed only together with raising the flag. *)
Definition flagged (acc : run Grammar.slr) : Prop :=
  ∀ st, acc = Ok st → Grammar.slr_printed st ≠ [] → Grammar.slr_conflict st = true.

Lemma put_action_flagged idx new st a :
  flagged (Ok st) → flagged (Ok (Grammar.put_action idx new st a)).
Proof.
intros Hst st' [= <-]. unfold Grammar.put_action.
destruct (getrow (Grammar.slr_action st) idx !! a) as [old|]; simpl; [|by apply Hst].
destruct (bool_decide (old ≠ new)); simpl; [done|by apply Hst].
Qed.

Lemma slr_item_flagged fuel g aug_start idx state acc item :
  flagged acc → flagged (Grammar.slr_item fuel g aug_start idx state acc item).
Proof.
intros Hacc. unfold Grammar.slr_item.
destruct acc as [st| |]; [|done..]. simpl.
destruct (LR0Item.is_reduce_item item).
- destruct (bool_decide (Some (LR0Item.head item) = aug_start)).
  + intros st' [= <-]. simpl. by apply Hacc.
  + generalize (elements (getset (Grammar.follow g) (Some (LR0Item.head item)))).
    intros l.
    assert (∀ st0, flagged (Ok st0) →
              flagged (Ok (foldl (Grammar.put_action idx
                                    (reduce (LR0Item.head item) (LR0Item.body item))) st0 l)))
      as Hfold; [|by apply Hfold].
    induction l as [|a l IH]; intros st0 Hst0; [done|]. simpl.
    apply IH. by apply put_action_flagged.
- destruct (Grammar.goto fuel g state (LR0Item.next_symbol item)) as [target| |];
    [|done..]. simpl.
  destruct (Grammar.index_of target (Grammar.states g)) as [tidx|]; [|done].
  destruct (LR0Item.next_symbol item) as [a|].
  + destruct (bool_decide (a ∈ Grammar.terminals g)).
    * by apply put_action_flagged.
    * intros st' [= <-]. simpl. by apply Hacc.
  + intros st' [= <-]. simpl. by apply Hacc.
Qed.

Lemma slr_states_flagged fuel g aug_start l : ∀ idx acc,
  flagged acc → flagged (Grammar.slr_states fuel g aug_start idx l acc).
Proof.
induction l as [|state l IH]; intros idx acc Hacc; [done|]. simpl.
apply IH. apply (foldl_invariant flagged); [|done].
intros acc' item _. apply slr_item_flagged.
Qed.

(** C5. Whenever the traversal of [build_slr_tables] has reported a
    conflict, the call returns the failure signal, and the grammar is
    left with an empty action table and an empty goto table (and with
    its conflict flag up): no partly filled table gets out. *)
Theorem slr_conflict_discards_tables
    (fuel : nat) (g g' : Grammar.t) (tables : option Grammar.slr_tables)
    (printed : list Grammar.conflict_t) :
  Grammar.build_slr_tables fuel g = Ok (tables, g', printed) →
  printed ≠ [] →
  tables = None
  ∧ Grammar.action_table g' = Plain ∅
  ∧ Grammar.goto_table g' = Plain ∅
  ∧ Grammar.has_slr_conflict g' = true.
Proof.
unfold Grammar.build_slr_tables. intros Hrun Hprinted.
apply bind_Ok in Hrun as (g1 & _ & Hrun).
apply bind_Ok in Hrun as (g2 & _ & Hrun).
apply bind_Ok in Hrun as ([tr g3] & _ & Hrun).
apply bind_Ok in Hrun as ([aug g4] & _ & Hrun).
apply bind_Ok in Hrun as (st & Htraverse & Hrun).
assert (printed = Grammar.slr_printed st) as ->.
{ simpl in Hrun. by destruct (Grammar.slr_conflict st); inversion Hrun. }
assert (Grammar.slr_conflict st = true) as Hflag.
{ apply (slr_states_flagged fuel g4 (Grammar.start_symbol aug) (Grammar.states g4) 0
           (Ok (Grammar.mk_slr ∅ ∅ (Grammar.has_slr_conflict g4) []))); [|done..].
  by intros st0 [= <-]. }
simpl in Hrun. rewrite Hflag in Hrun. by inversion Hrun.
Qed.

(** A failed build that printed exactly [printed]. *)
Definition slr_failed_with (printed : list Grammar.conflict_t)
    (r : run (option Grammar.slr_tables * Grammar.t * list Grammar.conflict_t)) : bool :=
  match r with
  | Ok (None, _, l) => bool_decide (l = printed)
  | _ => false
  end.

Lemma slr_failed_with_inv printed r :
  slr_failed_with printed r = true → r = Ok (None, built r, printed).
Proof.
destruct r as [[[[tables|] g] l]| |]; simpl; try done.
by intros ->%bool_decide_eq_true.
Qed.

Lemma slr_conflict_discards_tables_witness :
  Grammar.build_slr_tables 6 g_ambiguous
    = Ok (None, built (Grammar.build_slr_tables 6 g_ambiguous), [(4, "+", shift 3)])
  ∧ [(4, "+", shift 3)] ≠ ([] : list Grammar.conflict_t)
  ∧ (None : option Grammar.slr_tables) = None
  ∧ Grammar.action_table (built (Grammar.build_slr_tables 6 g_ambiguous)) = Plain ∅
  ∧ Grammar.goto_table (built (Grammar.build_slr_tables 6 g_ambiguous)) = Plain ∅
  ∧ Grammar.has_slr_conflict (built (Grammar.build_slr_tables 6 g_ambiguous)) = true.
Proof.
assert (Grammar.build_slr_tables 6 g_ambiguous
        = Ok (None, built (Grammar.build_slr_tables 6 g_ambiguous), [(4, "+", shift 3)]))
  as Hrun.
{ apply slr_failed_with_inv. vm_compute. reflexivity. }
assert ([(4, "+", shift 3)] ≠ ([] : list Grammar.conflict_t)) as Hprinted by discriminate.
exact (conj Hrun (conj Hprinted
  (slr_conflict_discards_tables 6 g_ambiguous _ None _ Hrun Hprinted))).
Defined.

(** ** build_ll1_table *)

Section LL1.
Import Grammar.
Variable self : t.
Implicit Types table : ll1_t.

(** The cell of [terminal] in the row of [head] holds a body. *)
Definition filled table (head terminal : string) : Prop :=
  is_Some (getrow table head !! terminal).

Lemma filled_setcell table head terminal body h x :
  filled table h x ∨ (h = head ∧ x = terminal) →
  filled (setcell table head terminal body) h x.
Proof.
unfold filled, setcell, getrow. intros Hor.
destruct (decide (head = h)) as [->|Hne].
- rewrite lookup_insert_eq. simpl.
  destruct (decide (terminal = x)) as [->|Hne'].
  + rewrite lookup_insert_eq. by eexists.
  + rewrite lookup_insert_ne by done. destruct Hor as [?|[_ ->]]; done.
- rewrite lookup_insert_ne by done. destruct Hor as [?|[-> _]]; done.
Qed.

Lemma ll1_put_filled head body table terminal :
  filled table head terminal → ll1_put head body (Some table) terminal = None.
Proof. unfold ll1_put, filled. intros Hf. by rewrite bool_decide_eq_true_2. Qed.

Lemma ll1_put_Some head body table terminal table' :
  ll1_put head body (Some table) terminal = Some table' →
  filled table' head terminal ∧ ∀ h x, filled table h x → filled table' h x.
Proof.
unfold ll1_put. destruct (bool_decide _); [done|]. intros [= <-]. split.
- apply filled_setcell. by right.
- intros h x Hf. apply filled_setcell. by left.
Qed.

(** Writing a row of cells. *)
Lemma ll1_puts_None head body l : foldl (ll1_put head body) None l = None.
Proof. by induction l. Qed.

Lemma ll1_puts_Some head body l : ∀ table table',
  foldl (ll1_put head body) (Some table) l = Some table' →
  (∀ x, x ∈ l → filled table' head x) ∧ ∀ h x, filled table h x → filled table' h x.
Proof.
induction l as [|a l IH]; intros table table'; cbn [foldl].
- intros [= <-]. split; [|done]. intros x Hx. by apply elem_of_nil in Hx.
- destruct (ll1_put head body (Some table) a) as [table1|] eqn:E;
    [|by rewrite ll1_puts_None].
  apply ll1_put_Some in E as [Ha Hkeep]. intros [Hl Hkeep']%IH. split.
  + intros x [->|Hx]%elem_of_cons; [by apply Hkeep'|by apply Hl].
  + intros h x Hf. by apply Hkeep', Hkeep.
Qed.

Lemma ll1_puts_filled head body l : ∀ table x,
  x ∈ l → filled table head x → foldl (ll1_put head body) (Some table) l = None.
Proof.
induction l as [|a l IH]; intros table x Hx Hf; [by apply elem_of_nil in Hx|]. cbn [foldl].
destruct (ll1_put head body (Some table) a) as [table1|] eqn:E;
  [|by rewrite ll1_puts_None].
apply elem_of_cons in Hx as [->|Hx].
- by rewrite ll1_put_filled in E.
- apply (IH table1 x Hx). by apply (ll1_put_Some _ _ _ _ _ E).
Qed.

(** Writing the cells of one body. *)
Lemma ll1_body_Some head body table table' :
  ll1_body self head (Some table) body = Some table' →
  (∀ x, x ∈ first_of_string self body → x ≠ EPS → filled table' head x)
  ∧ ∀ h x, filled table h x → filled table' h x.
Proof.
unfold ll1_body.
destruct (foldl (ll1_put head body) (Some table)
            (elements (first_of_string self body ∖ {[EPS]}))) as [table1|] eqn:E1.
- apply ll1_puts_Some in E1 as [Hfirst Hkeep1].
  assert (∀ x, x ∈ first_of_string self body → x ≠ EPS → filled table1 head x) as Hfirst'.
  { intros x Hx Hne. apply Hfirst, elem_of_elements. set_solver. }
  destruct (bool_decide (EPS ∈ first_of_string self body)).
  + intros [_ Hkeep2]%ll1_puts_Some. split.
    * intros x Hx Hne. by apply Hkeep2, Hfirst'.
    * intros h x Hf. by apply Hkeep2, Hkeep1.
  + intros [= <-]. by split.
- destruct (bool_decide (EPS ∈ first_of_string self body)); [|done].
  by rewrite ll1_puts_None.
Qed.

Lemma ll1_body_filled head body table x :
  x ∈ first_of_string self body → x ≠ EPS → filled table head x →
  ll1_body self head (Some table) body = None.
Proof.
intros Hx Hne Hf. unfold ll1_body.
rewrite (ll1_puts_filled head body _ table x); [| |done].
- destruct (bool_decide (EPS ∈ first_of_string self body)); [|done].
  by rewrite ll1_puts_None.
- apply elem_of_elements. set_solver.
Qed.

Lemma ll1_bodies_None head l : foldl (ll1_body self head) None l = None.
Proof. by induction l. Qed.

Lemma ll1_bodies_Some head l : ∀ table table',
  foldl (ll1_body self head) (Some table) l = Some table' →
  ∀ h x, filled table h x → filled table' h x.
Proof.
induction l as [|body l IH]; intros table table'; cbn [foldl]; [by intros [= <-]|].
destruct (ll1_body self head (Some table) body) as [table1|] eqn:E;
  [|by rewrite ll1_bodies_None].
apply ll1_body_Some in E as [_ Hkeep]. intros Hrest h x Hf.
by apply (IH _ _ Hrest), Hkeep.
Qed.

(** A body that comes twice under one head, and of which FIRST has a
    member other than the epsilon marker, stops the rows of that head. *)
Lemma ll1_bodies_twice head body l1 l2 l3 x acc :
  x ∈ first_of_string self body → x ≠ EPS →
  foldl (ll1_body self head) acc (l1 ++ body :: l2 ++ body :: l3) = None.
Proof.
intros Hx Hne. rewrite foldl_app. cbn [foldl].
destruct (foldl (ll1_body self head) acc l1) as [table1|];
  [|by rewrite ll1_bodies_None].
destruct (ll1_body self head (Some table1) body) as [table2|] eqn:E2;
  [|by rewrite ll1_bodies_None].
apply ll1_body_Some in E2 as [Hfirst _].
rewrite foldl_app. cbn [foldl].
destruct (foldl (ll1_body self head) (Some table2) l2) as [table3|] eqn:E3;
  [|by rewrite ll1_bodies_None].
rewrite (ll1_body_filled head body table3 x); [by rewrite ll1_bodies_None|done..|].
by apply (ll1_bodies_Some _ _ _ _ E3), Hfirst.
Qed.

Lemma ll1_fill_twice head body l1 l2 l3 x :
  (head, l1 ++ body :: l2 ++ body :: l3) ∈ productions self →
  x ∈ first_of_string self body → x ≠ EPS →
  ll1_fill self = None.
Proof.
intros Hin Hx Hne. unfold ll1_fill.
apply list_elem_of_split in Hin as (p1 & p2 & ->).
rewrite foldl_app. cbn [foldl].
rewrite (ll1_bodies_twice head body l1 l2 l3 x) by done.
by induction p2 as [|[h bs] p2 IH]; cbn [foldl]; [|rewrite ll1_bodies_None].
Qed.

End LL1.

Lemma build_ll1_table_fill fuel g r g' :
  Grammar.build_ll1_table fuel g = Ok (r, g') → r = Grammar.ll1_fill g'.
Proof.
unfold Grammar.build_ll1_table. intros Hrun.
apply bind_Ok in Hrun as (g1 & _ & Hrun).
apply bind_Ok in Hrun as (g2 & _ & Hrun).
by inversion Hrun.
Qed.

Lemma build_ll1_table_terminates (g : Grammar.t) :
  ∃ n, ∀ fuel, n ≤ fuel → ∃ r g', Grammar.build_ll1_table fuel g = Ok (r, g').
Proof.
destruct (calculate_first_terminates g) as [n1 Hfirst].
assert (∃ n2, ∀ fuel g1, n2 ≤ fuel → Grammar.calculate_first fuel g = Ok g1 →
          ∃ g2, Grammar.calculate_follow fuel g1 = Ok g2) as [n2 Hfollow].
{ destruct (Hfirst n1) as [g1 Hg1]; [done|].
  destruct (calculate_follow_terminates g1) as [n2 Hn2].
  exists (n1 + n2). intros fuel g1' Hfuel Hg1'.
  assert (Grammar.calculate_first fuel g = Grammar.calculate_first n1 g) as Heq.
  { apply stable_calculate_first; [lia|]. by rewrite Hg1. }
  rewrite Hg1', Hg1 in Heq. injection Heq as ->. apply Hn2. lia. }
exists (n1 + n2). intros fuel Hfuel. unfold Grammar.build_ll1_table.
destruct (Hfirst fuel) as [g1 Hg1]; [lia|].
destruct (Hfollow fuel g1) as [g2 Hg2]; [lia|done|].
rewrite Hg1, bind_Ok_l, Hg2, bind_Ok_l. by eexists _, _.
Qed.

(** C4, as the code has it. The LL(1) builder gives up as soon as the
    cell it is about to write holds a body, whichever body that is: the
    guarded write does not look at what the cell holds. So a body that
    is registered twice under one head, and of which FIRST has a member
    other than the epsilon marker, makes the build (which always comes
    to an end) return the no-table signal. *)
Theorem ll1_fails_on_any_filled_cell :
  (∀ table head body terminal,
      filled table head terminal →
      Grammar.ll1_put head body (Some table) terminal = None)
  ∧ (∀ g, ∃ n, ∀ fuel, ∃ r g', Grammar.build_ll1_table (n + fuel) g = Ok (r, g'))
  ∧ (∀ fuel g r g' head body l1 l2 l3 x,
      Grammar.build_ll1_table fuel g = Ok (r, g') →
      (head, l1 ++ body :: l2 ++ body :: l3) ∈ Grammar.productions g' →
      x ∈ Grammar.first_of_string g' body → x ≠ EPS →
      r = None).
Proof.
split; [|split].
- intros table head body terminal. apply ll1_put_filled.
- intros g. destruct (build_ll1_table_terminates g) as [n Hn].
  exists n. intros fuel. apply Hn. lia.
- intros fuel g r g' head body l1 l2 l3 x Hrun Hin Hx Hne.
  rewrite (build_ll1_table_fill _ _ _ _ Hrun).
  by apply (ll1_fill_twice g' head body l1 l2 l3 x).
Qed.

Lemma ll1_failed_inv r : ll1_failed r = true → r = Ok (None, ll1_built r).
Proof. by destruct r as [[[|] g]| |]. Qed.

Lemma ll1_fails_on_any_filled_cell_witness :
  Grammar.build_ll1_table 2 g_duplicate
    = Ok (None, ll1_built (Grammar.build_ll1_table 2 g_duplicate))
  ∧ ("S", [] ++ ["a"] :: [] ++ ["a"] :: [])
      ∈ Grammar.productions (ll1_built (Grammar.build_ll1_table 2 g_duplicate))
  ∧ "a" ∈ Grammar.first_of_string (ll1_built (Grammar.build_ll1_table 2 g_duplicate)) ["a"]
  ∧ "a" ≠ EPS
  ∧ (None : option Grammar.ll1_t) = None.
Proof.
assert (Grammar.build_ll1_table 2 g_duplicate
        = Ok (None, ll1_built (Grammar.build_ll1_table 2 g_duplicate))) as Hrun.
{ apply ll1_failed_inv. vm_compute. reflexivity. }
assert (("S", [] ++ ["a"] :: [] ++ ["a"] :: [])
          ∈ Grammar.productions (ll1_built (Grammar.build_ll1_table 2 g_duplicate)))
  as Hin.
{ replace (Grammar.productions (ll1_built (Grammar.build_ll1_table 2 g_duplicate)))
    with [("S", [["a"]; ["a"]])] by (vm_compute; reflexivity).
  simpl. apply list_elem_of_singleton. reflexivity. }
assert ("a" ∈ Grammar.first_of_string
                 (ll1_built (Grammar.build_ll1_table 2 g_duplicate)) ["a"]) as Hx
  by by_running.
assert ("a" ≠ EPS) as Hne by discriminate.
exact (conj Hrun (conj Hin (conj Hx (conj Hne
  (proj2 (proj2 ll1_fails_on_any_filled_cell) 2 g_duplicate None _ "S" ["a"] [] [] [] "a"
     Hrun Hin Hx Hne))))).
Defined.

(** ** closure and goto *)

Section Closure.
Import Grammar.
Variable p : prods_t.

(** The items [closure] can add: every body of [p] under its head, with
    the dot in front. *)
Definition initial_items : State :=
  list_to_set (p ≫= λ '(h, bs), (λ b, LR0Item.mk h b 0) <$> bs).

Lemma initial_items_elem h bs b :
  bodies_of p h = Some bs → b ∈ bs → LR0Item.mk h b 0 ∈ initial_items.
Proof.
intros Hbs Hb. apply elem_of_list_to_set, list_elem_of_bind.
exists (h, bs). split; [|by apply bodies_of_elem].
apply list_elem_of_fmap. by exists b.
Qed.

(** What the scan of one pass keeps: the new items are initial items,
    and once the flag is up one of them is missing from the set. *)
Definition scan_kept (closure_set : State) (acc : State * bool) : Prop :=
  acc.1 ⊆ initial_items ∧ (acc.2 = true → ∃ x, x ∈ acc.1 ∧ x ∉ closure_set).

Lemma closure_item_kept closure_set acc item :
  scan_kept closure_set acc → scan_kept closure_set (closure_item p closure_set acc item).
Proof.
intros Hacc. unfold closure_item.
destruct (LR0Item.next_symbol item) as [next_sym|]; [|done].
destruct (negb (bool_decide (next_sym = "")) && has_key p next_sym); [|done].
destruct (bodies_of p next_sym) as [bs|] eqn:Ebs; [|done]. simpl.
apply (foldl_invariant (scan_kept closure_set)); [|done].
intros [new_items added] prod Hprod [Hsub Hflag]. simpl in *.
destruct (bool_decide (LR0Item.mk next_sym prod 0 ∉ closure_set)) eqn:Enew; [|done].
apply bool_decide_eq_true in Enew. split; simpl.
- pose proof (initial_items_elem _ _ _ Ebs Hprod). set_solver.
- intros _. exists (LR0Item.mk next_sym prod 0). set_solver.
Qed.

Lemma closure_pass_spec closure_set :
  let r := closure_pass p closure_set in
  closure_set ⊆ r.1
  ∧ r.1 ⊆ closure_set ∪ initial_items
  ∧ (r.2 = true → size closure_set < size r.1).
Proof.
unfold closure_pass.
assert (scan_kept closure_set
          (foldl (closure_item p closure_set) (∅, false) (elements closure_set)))
  as Hkept.
{ apply (foldl_invariant (scan_kept closure_set)).
  - intros acc item _. apply closure_item_kept.
  - split; [set_solver|done]. }
destruct (foldl _ _ _) as [new_items added]. destruct Hkept as [Hsub Hflag]. simpl in *.
split; [set_solver|]. split; [set_solver|].
intros Hadded. destruct (Hflag Hadded) as (x & Hx & Hnew).
apply subset_size. set_solver.
Qed.

Lemma closure_loop_terminates (items : State) :
  ∀ fuel, size initial_items < fuel →
    ∃ closure_set,
      while_changed fuel (closure_pass p) items = Ok closure_set
      ∧ closure_set ⊆ items ∪ initial_items.
Proof.
intros fuel Hfuel.
apply (while_changed_terminates
         (λ cs : State, cs ⊆ items ∪ initial_items) size (size (items ∪ initial_items))).
- intros cs Hcs. destruct (closure_pass_spec cs) as (_ & Hsub & _). set_solver.
- intros cs Hcs. by apply subseteq_size.
- intros cs _. apply closure_pass_spec.
- set_solver.
- rewrite size_union_alt.
  pose proof (subseteq_size (initial_items ∖ items) initial_items).
  assert (size (initial_items ∖ items) ≤ size initial_items) by (apply H; set_solver).
  lia.
Qed.

End Closure.

Lemma closure_terminates (g : Grammar.t) (items : State) (fuel : nat) :
  size (initial_items (Grammar.productions g)) < fuel →
  ∃ closure_set,
    Grammar.closure fuel g items = Ok closure_set
    ∧ closure_set ⊆ items ∪ initial_items (Grammar.productions g).
Proof. apply closure_loop_terminates. Qed.

(** The items [goto] moves over [symbol]. *)
Lemma goto_moved (symbol : option string) (l : list Item) : ∀ moved x,
  x ∈ foldl (λ (moved : State) item,
               if bool_decide (LR0Item.next_symbol item = symbol)
               then moved ∪ {[LR0Item.advance item]} else moved) moved l →
  x ∈ moved ∨ ∃ item, item ∈ l ∧ LR0Item.next_symbol item = symbol
                      ∧ x = LR0Item.advance item.
Proof.
induction l as [|item l IH]; intros moved x; simpl; [by left|].
intros [Hx|(item' & Hin & Hnext & ->)]%IH.
- destruct (bool_decide (LR0Item.next_symbol item = symbol)) eqn:E; [|by left].
  apply bool_decide_eq_true in E.
  apply elem_of_union in Hx as [?|Hx%elem_of_singleton]; [by left|].
  right. exists item. split; [by left|done].
- right. exists item'. split; [by right|done].
Qed.

(** A set of items that holds the initial items of the grammar and the
    successor of each of its items that has one. *)
Definition item_closed (g : Grammar.t) (W : State) : Prop :=
  initial_items (Grammar.productions g) ⊆ W
  ∧ ∀ item, item ∈ W → is_Some (LR0Item.next_symbol item) → LR0Item.advance item ∈ W.

Lemma goto_terminates (g : Grammar.t) (W items : State) (symbol : string) (fuel : nat) :
  item_closed g W → items ⊆ W →
  size (initial_items (Grammar.productions g)) < fuel →
  ∃ target, Grammar.goto fuel g items (Some symbol) = Ok target ∧ target ⊆ W.
Proof.
intros [Hinit Hadv] Hitems Hfuel. unfold Grammar.goto.
set (moved := foldl _ _ _).
destruct (closure_terminates g moved fuel Hfuel) as (target & -> & Hsub).
exists target. split; [done|].
assert (moved ⊆ W) as Hmoved; [|set_solver].
intros x [Hx|(item & Hin & Hnext & ->)]%goto_moved; [by apply elem_of_empty in Hx|].
apply Hadv; [|by rewrite Hnext]. apply Hitems. by apply elem_of_elements.
Qed.

(** ** Counting the sets of items *)

(** A list of distinct subsets of a finite set is no longer than the
    number of its subsets. *)
Lemma subsets_count `{Countable A} (W : gset A) : ∀ l : list (gset A),
  NoDup l → Forall (λ s, s ⊆ W) l → length l ≤ 2 ^ size W.
Proof.
induction W as [|x W Hx IH] using set_ind_L; intros l Hnd Hall.
- rewrite size_empty. simpl.
  destruct l as [|a [|b l]]; simpl; [lia..|]. exfalso.
  apply NoDup_cons in Hnd as [Hnotin _]. apply Hnotin.
  apply Forall_cons in Hall as [Ha Hall]. apply Forall_cons in Hall as [Hb _].
  assert (a = b) as -> by set_solver. by left.
- rewrite size_union, size_singleton by set_solver.
  change (2 ^ (1 + size W)) with (2 * 2 ^ size W).
  pose proof (filter_app_complement (λ s : gset A, x ∈ s) l) as Hperm.
  apply Permutation_length in Hperm. rewrite List.length_app in Hperm.
  set (l1 := filter (λ s : gset A, x ∈ s) l) in *.
  set (l2 := filter (λ s : gset A, ¬ x ∈ s) l) in *.
  assert (length l2 ≤ 2 ^ size W) as H2.
  { apply IH; [by apply NoDup_filter|].
    apply Forall_forall. intros s [Hs Hin]%list_elem_of_filter.
    pose proof (proj1 (Forall_forall _ _) Hall s Hin). set_solver. }
  assert (length ((λ s, s ∖ {[x]}) <$> l1) ≤ 2 ^ size W) as H1.
  { apply IH.
    - apply NoDup_fmap_2_strong; [|by apply NoDup_filter].
      intros s t [Hs _]%list_elem_of_filter [Ht _]%list_elem_of_filter Heq.
      apply set_eq. intros y. destruct (decide (y = x)) as [->|Hne]; [done|].
      assert (y ∈ s ∖ {[x]} ↔ y ∈ t ∖ {[x]}) as Hy by by rewrite Heq.
      set_solver.
    - apply Forall_forall. intros s' (s & -> & [Hs Hin]%list_elem_of_filter)%list_elem_of_fmap.
      pose proof (proj1 (Forall_forall _ _) Hall s Hin). set_solver. }
  rewrite length_fmap in H1. lia.
Qed.

(** ** build_lr0_states *)

Section Explore.
Import Grammar.
Variable self : t.
Variable W : State.
Hypothesis W_closed : item_closed self W.

(** What the exploration keeps. *)
Definition explore_kept (st : lr0) : Prop :=
  NoDup (lr0_states st)
  ∧ Forall (λ s, s ⊆ W) (lr0_states st)
  ∧ (∀ s, s ∈ lr0_states st → is_Some (lr0_seen st !! s))
  ∧ (∀ s, s ∈ lr0_queue st → s ∈ lr0_states st).

(** [states] and [queue] have grown by the same number of entries. *)
Definition grown (st st' : lr0) : Prop :=
  ∃ k, length (lr0_states st') = length (lr0_states st) + k
       ∧ length (lr0_queue st') = length (lr0_queue st) + k.

Lemma grown_refl st : grown st st.
Proof. exists 0. lia. Qed.

Lemma grown_trans st1 st2 st3 : grown st1 st2 → grown st2 st3 → grown st1 st3.
Proof. intros (k1 & ? & ?) (k2 & ? & ?). exists (k1 + k2). lia. Qed.

Lemma explore_symbol_kept cfuel current idx st symbol :
  size (initial_items (productions self)) < cfuel →
  current ⊆ W → explore_kept st →
  ∃ st', explore_symbol cfuel self current idx (Ok st) symbol = Ok st'
         ∧ explore_kept st' ∧ grown st st'.
Proof.
intros Hfuel Hcur (Hnd & Hall & Hseen & Hqueue). unfold explore_symbol. simpl.
destruct (goto_terminates self W current symbol cfuel W_closed Hcur Hfuel)
  as (target & -> & Htarget). simpl.
destruct (bool_decide (target = ∅)).
{ exists st. split; [done|]. split; [done|apply grown_refl]. }
destruct (lr0_seen st !! target) as [j|] eqn:Eseen.
- eexists. split; [done|]. split; [done|]. exists 0. simpl. lia.
- eexists. split; [done|]. split; [|exists 1; simpl; rewrite !List.length_app; simpl; lia].
  assert (target ∉ lr0_states st) as Hnew.
  { intros Hin. destruct (Hseen _ Hin) as [j Hj]. congruence. }
  repeat split; simpl.
  + apply NoDup_app. split; [done|]. split; [|apply NoDup_singleton].
    intros s Hs ->%list_elem_of_singleton. done.
  + apply Forall_app. split; [done|]. by apply Forall_singleton.
  + intros s [Hs| ->%list_elem_of_singleton]%elem_of_app.
    * destruct (decide (target = s)) as [->|Hne].
      -- rewrite lookup_insert_eq. by eexists.
      -- rewrite lookup_insert_ne by done. by apply Hseen.
    * rewrite lookup_insert_eq. by eexists.
  + intros s [Hs| ->%list_elem_of_singleton]%elem_of_app; apply elem_of_app.
    * left. by apply Hqueue.
    * right. by left.
Qed.

Lemma explore_symbols_kept cfuel current idx symbols : ∀ st,
  size (initial_items (productions self)) < cfuel →
  current ⊆ W → explore_kept st →
  ∃ st', foldl (explore_symbol cfuel self current idx) (Ok st) symbols = Ok st'
         ∧ explore_kept st' ∧ grown st st'.
Proof.
induction symbols as [|symbol symbols IH]; intros st Hfuel Hcur Hst; cbn [foldl].
- exists st. split; [done|]. split; [done|apply grown_refl].
- destruct (explore_symbol_kept cfuel current idx st symbol Hfuel Hcur Hst)
    as (st1 & -> & Hst1 & Hg1).
  destruct (IH st1 Hfuel Hcur Hst1) as (st2 & Hrun2 & Hst2 & Hg2).
  exists st2. split; [done|]. split; [done|by eapply grown_trans].
Qed.

(** How far the exploration is from its end. *)
Definition explore_left (st : lr0) : nat :=
  2 * (2 ^ size W - length (lr0_states st)) + length (lr0_queue st).

Lemma explore_terminates cfuel :
  size (initial_items (productions self)) < cfuel →
  ∀ fuel st, explore_kept st → explore_left st < fuel →
    ∃ st', explore fuel cfuel self st = Ok st'.
Proof.
intros Hcfuel fuel. induction fuel as [|fuel IH]; intros st Hst Hleft; [lia|].
simpl. destruct (lr0_queue st) as [|current queue] eqn:Equeue; [by eexists|].
destruct Hst as (Hnd & Hall & Hseen & Hqueue).
assert (current ∈ lr0_states st) as Hcur by (apply Hqueue; rewrite Equeue; by left).
destruct (Hseen _ Hcur) as [idx ->].
set (st1 := mk_lr0 (lr0_states st) (lr0_seen st) queue (lr0_transitions st)).
assert (explore_kept st1) as Hst1.
{ repeat split; [done..|]. simpl. intros s Hs. apply Hqueue. rewrite Equeue. by right. }
destruct (explore_symbols_kept cfuel current idx
            (elements (terminals self ∪ non_terminals self)) st1 Hcfuel)
  as (st2 & -> & Hst2 & k & Hk1 & Hk2); [|done|].
{ by apply (proj1 (Forall_forall _ _) Hall). }
simpl. apply IH; [done|].
pose proof (subsets_count W (lr0_states st2) (proj1 Hst2) (proj1 (proj2 Hst2))) as Hcount.
unfold explore_left in *. rewrite Equeue in Hleft. simpl in *. lia.
Qed.

End Explore.

(** The universe of items: every body of [l] under its head, with the
    dot at each of its places. *)
Definition all_dots (h : string) (b : list string) : list Item :=
  (λ d, LR0Item.mk h b d) <$> seq 0 (S (length b)).

Definition item_universe (l : list (string * list string)) : State :=
  list_to_set (l ≫= λ '(h, b), all_dots h b).

(** The productions, one by one. *)
Definition pairs (p : Grammar.prods_t) : list (string * list string) :=
  p ≫= λ '(h, bs), (λ b, (h, b)) <$> bs.

Lemma elem_of_item_universe l (i : Item) :
  i ∈ item_universe l
  ↔ (LR0Item.head i, LR0Item.body i) ∈ l ∧ LR0Item.dot_pos i ≤ length (LR0Item.body i).
Proof.
unfold item_universe. rewrite elem_of_list_to_set, list_elem_of_bind. split.
- intros ([h b] & Hi & Hl). unfold all_dots in Hi.
  apply list_elem_of_fmap in Hi as (d & -> & Hd). apply elem_of_seq in Hd.
  simpl. split; [done|lia].
- intros [Hl Hd]. exists (LR0Item.head i, LR0Item.body i). split; [|done].
  apply list_elem_of_fmap. exists (LR0Item.dot_pos i). split; [by destruct i|].
  apply elem_of_seq. lia.
Qed.

Lemma initial_items_universe p l :
  (∀ hb, hb ∈ pairs p → hb ∈ l) → initial_items p ⊆ item_universe l.
Proof.
intros Hl i Hi. unfold initial_items in Hi.
apply elem_of_list_to_set, list_elem_of_bind in Hi as ([h bs] & Hi & Hp).
apply list_elem_of_fmap in Hi as (b & -> & Hb).
apply elem_of_item_universe. simpl. split; [|lia].
apply Hl, list_elem_of_bind. exists (h, bs). split; [|done].
apply list_elem_of_fmap. by exists b.
Qed.

Lemma item_universe_closed g l :
  (∀ hb, hb ∈ pairs (Grammar.productions g) → hb ∈ l) →
  item_closed g (item_universe l).
Proof.
intros Hl. split; [by apply initial_items_universe|].
intros i [Hin _]%elem_of_item_universe Hnext. apply elem_of_item_universe. simpl.
split; [done|]. unfold LR0Item.next_symbol in Hnext.
destruct (decide (LR0Item.dot_pos i < length (LR0Item.body i))); [lia|].
by destruct Hnext.
Qed.

Lemma add_production_start_symbol g head body_str :
  Grammar.start_symbol (Grammar.add_production g head body_str)
  = match Grammar.start_symbol g with Some s => Some s | None => Some head end.
Proof.
unfold Grammar.add_production. cbv zeta.
rewrite (proj1 (proj2 (foldl_classify_fields _ _ _))). simpl.
by destruct (Grammar.start_symbol g) eqn:E.
Qed.

Lemma augmented_Some g s :
  Grammar.start_symbol g = Some s →
  ∃ aug g', Grammar.augmented g = Ok (aug, g')
            ∧ Grammar.start_symbol aug = Some (s +:+ "'")
            ∧ Grammar.start_symbol g' = Some s.
Proof.
intros Hs. unfold Grammar.augmented. rewrite Hs. eexists _, _. split; [done|]. split.
- by rewrite add_production_start_symbol.
- by destruct (Grammar.has_key _ _).
Qed.

Lemma build_lr0_states_terminates (g : Grammar.t) :
  ∃ n, ∀ fuel, n ≤ fuel →
    (Grammar.start_symbol g = None ∧ Grammar.build_lr0_states fuel g = Raise TypeError)
    ∨ ∃ transitions g', Grammar.build_lr0_states fuel g = Ok (transitions, g').
Proof.
destruct (Grammar.start_symbol g) as [s|] eqn:Estart.
- destruct (augmented_Some g s Estart) as (aug & g' & Haug & Hs1 & Hs2).
  set (start := LR0Item.mk (s +:+ "'") [s] 0).
  set (l := (s +:+ "'", [s]) :: pairs (Grammar.productions aug)
              ++ pairs (Grammar.productions g')).
  set (W := item_universe l).
  exists (size (initial_items (Grammar.productions aug))
          + size (initial_items (Grammar.productions g'))
          + 2 * 2 ^ size W + 2).
  intros fuel Hfuel. right. unfold Grammar.build_lr0_states.
  rewrite Haug, bind_Ok_l, Hs1, Hs2. fold start.
  destruct (closure_terminates aug {[start]} fuel) as (sc & -> & Hsc); [lia|].
  rewrite bind_Ok_l.
  assert (item_closed g' W) as Hclosed.
  { apply item_universe_closed. intros hb Hhb. right. apply elem_of_app. by right. }
  assert (sc ⊆ W) as HscW.
  { intros i [ ->%elem_of_singleton|Hi]%Hsc%elem_of_union.
    - apply elem_of_item_universe. simpl. split; [by left|lia].
    - revert i Hi. apply initial_items_universe.
      intros hb Hhb. right. apply elem_of_app. by left. }
  destruct (explore_terminates g' W Hclosed fuel) with (fuel := fuel)
    (st := Grammar.mk_lr0 [sc] {[sc := 0]} [sc] ∅) as [st ->].
  + lia.
  + repeat split; simpl.
    * apply NoDup_singleton.
    * by apply Forall_singleton.
    * intros s' ->%list_elem_of_singleton. rewrite lookup_singleton_eq. by eexists.
    * done.
  + unfold explore_left. simpl. fold W. lia.
  + rewrite bind_Ok_l. by eexists _, _.
- exists 0. intros fuel _. left. split; [done|].
  unfold Grammar.build_lr0_states, Grammar.augmented. by rewrite Estart.
Qed.

(** C9. For every grammar the three loops come to an end: with enough
    fuel [calculate_first] and [calculate_follow] return, and so does
    the exploration of [build_lr0_states] (which raises at once, before
    any loop, only when no production has been registered). The sets
    they build grow from pass to pass within a finite universe of
    symbols, and the distinct states within the subsets of a finite
    universe of items. *)
Theorem fixpoint_loops_terminate (g : Grammar.t) :
  (∃ n, ∀ fuel, ∃ g', Grammar.calculate_first (n + fuel) g = Ok g')
  ∧ (∃ n, ∀ fuel, ∃ g', Grammar.calculate_follow (n + fuel) g = Ok g')
  ∧ (∃ n, ∀ fuel,
       (Grammar.start_symbol g = None
        ∧ Grammar.build_lr0_states (n + fuel) g = Raise TypeError)
       ∨ ∃ transitions g', Grammar.build_lr0_states (n + fuel) g = Ok (transitions, g')).
Proof.
split; [|split].
- destruct (calculate_first_terminates g) as [n Hn].
  exists n. intros fuel. apply Hn. lia.
- destruct (calculate_follow_terminates g) as [n Hn].
  exists n. intros fuel. apply Hn. lia.
- destruct (build_lr0_states_terminates g) as [n Hn].
  exists n. intros fuel. apply Hn. lia.
Qed.

(** * Further properties of the code *)

(** ** The [productions] dictionary and add_production *)

Section Registering.
Import Grammar.
Implicit Types p : prods_t.

Lemma bodies_of_append_body_eq p head body :
  bodies_of (append_body p head body) head
  = Some (default [] (bodies_of p head) ++ [body]).
Proof.
induction p as [|[h bs] p IH]; simpl.
- by rewrite decide_True.
- destruct (decide (h = head)) as [->|Hne]; simpl.
  + by rewrite decide_True.
  + by rewrite decide_False.
Qed.

Lemma bodies_of_append_body_ne p head body h :
  h ≠ head → bodies_of (append_body p head body) h = bodies_of p h.
Proof.
intros Hne. induction p as [|[h' bs] p IH]; simpl.
- by rewrite decide_False.
- destruct (decide (h' = head)) as [->|Hne']; simpl.
  + by rewrite !decide_False.
  + destruct (decide (h' = h)); [done|apply IH].
Qed.

Lemma append_body_heads p head body :
  (append_body p head body).*1
  = if has_key p head then p.*1 else p.*1 ++ [head].
Proof.
unfold has_key. induction p as [|[h bs] p IH]; csimpl; [done|].
destruct (decide (h = head)) as [->|Hne]; csimpl; [done|].
rewrite IH. by destruct (bodies_of p head).
Qed.

Lemma has_key_heads_iff p head : has_key p head = true ↔ head ∈ p.*1.
Proof.
split; [apply has_key_heads|].
unfold has_key. induction p as [|[h bs] p IH]; simpl.
- intros Hin. by apply elem_of_nil in Hin.
- destruct (decide (h = head)); [done|].
  intros [?|?]%elem_of_cons; [done|by apply IH].
Qed.

Lemma append_body_new p head body :
  has_key p head = false → append_body p head body = p ++ [(head, [body])].
Proof.
unfold has_key. induction p as [|[h bs] p IH]; simpl; [done|].
destruct (decide (h = head)); [done|]. intros Hkey. by rewrite IH.
Qed.

(** The heads of a loaded grammar are pairwise distinct: the
    association list is a dictionary. *)
Lemma append_body_NoDup p head body :
  NoDup p.*1 → NoDup (append_body p head body).*1.
Proof.
intros Hnd. rewrite append_body_heads.
destruct (has_key p head) eqn:E; [done|].
apply NoDup_app. split; [done|]. split; [|apply NoDup_singleton].
intros h Hh ->%list_elem_of_singleton.
apply has_key_heads_iff in Hh. congruence.
Qed.

Lemma load_NoDup rules : NoDup (productions (load rules)).*1.
Proof.
unfold load. apply (foldl_invariant (λ g, NoDup (productions g).*1)).
- intros g [head alt] _ Hg. rewrite add_production_productions.
  by apply append_body_NoDup.
- apply NoDup_nil_2.
Qed.

End Registering.

(** X1. [add_production(head, body_str)] puts the tokenized body after
    the bodies already registered under [head], and leaves the bodies of
    every other head as they were. *)
Theorem add_production_lookup (g : Grammar.t) (head body_str : string) :
  Grammar.bodies_of (Grammar.productions (Grammar.add_production g head body_str)) head
  = Some (default [] (Grammar.bodies_of (Grammar.productions g) head)
          ++ [Py.split (Py.strip body_str)])
  ∧ ∀ h, h ≠ head →
      Grammar.bodies_of (Grammar.productions (Grammar.add_production g head body_str)) h
      = Grammar.bodies_of (Grammar.productions g) h.
Proof.
rewrite add_production_productions. split.
- apply bodies_of_append_body_eq.
- intros h Hne. by apply bodies_of_append_body_ne.
Qed.

Lemma add_production_lookup_witness :
  "T" ≠ "E"
  ∧ Grammar.bodies_of (Grammar.productions (Grammar.add_production g_arith "E" " E - T ")) "T"
    = Grammar.bodies_of (Grammar.productions g_arith) "T".
Proof.
assert ("T" ≠ "E") as Hne by discriminate.
exact (conj Hne (proj2 (add_production_lookup g_arith "E" " E - T ") "T" Hne)).
Defined.

(** X2. The start symbol of a grammar is the head of the first rule
    loaded, whatever is registered later; a grammar without rules has
    none. *)
Theorem load_start_symbol (rules : list (string * string)) :
  Grammar.start_symbol (load rules) = fst <$> head rules.
Proof.
unfold load.
assert (∀ g, Grammar.start_symbol
               (foldl (λ g '(head, alt), Grammar.add_production g head alt) g rules)
             = match Grammar.start_symbol g with
               | Some s => Some s
               | None => fst <$> head rules
               end) as Hgen; [|by rewrite Hgen].
induction rules as [|[h alt] rules IH]; intros g; simpl.
- by destruct (Grammar.start_symbol g).
- rewrite IH, add_production_start_symbol. by destruct (Grammar.start_symbol g).
Qed.

Lemma append_body_keeps p head body h bs :
  (h, bs) ∈ p →
  (h, bs) ∈ Grammar.append_body p head body
  ∨ (h = head ∧ (head, bs ++ [body]) ∈ Grammar.append_body p head body).
Proof.
induction p as [|[h' bs'] p IH]; intros Hin; [by apply elem_of_nil in Hin|]. simpl.
destruct (decide (h' = head)) as [->|Hne].
- apply elem_of_cons in Hin as [[= -> ->]|Hin].
  + right. split; [done|by left].
  + left. by right.
- apply elem_of_cons in Hin as [[= -> ->]|Hin]; [left; by left|].
  destruct (IH Hin) as [?|[-> ?]]; [left|right; split; [done|]]; by right.
Qed.

Lemma occurs_append_body_iff p head body x :
  occurs (Grammar.append_body p head body) x ↔ occurs p x ∨ x ∈ body.
Proof.
split; [apply occurs_append_body|].
intros [(h & bs & b & Hp & Hb & Hx)|Hx].
- destruct (append_body_keeps p head body h bs Hp) as [Hin|[-> Hin]].
  + by exists h, bs, b.
  + exists head, (bs ++ [body]), b. split; [done|]. split; [|done].
    apply elem_of_app. by left.
- exists head, (default [] (Grammar.bodies_of p head) ++ [body]), body.
  split; [|split; [apply elem_of_app; right; by left|done]].
  apply bodies_of_elem, bodies_of_append_body_eq.
Qed.

Lemma has_key_append_body p head body x :
  Grammar.has_key (Grammar.append_body p head body) x = true
  ↔ x = head ∨ Grammar.has_key p x = true.
Proof.
rewrite !has_key_heads_iff, append_body_heads.
destruct (Grammar.has_key p head) eqn:E.
- apply has_key_heads_iff in E. split; [by right|]. by intros [->|?].
- rewrite elem_of_app, list_elem_of_singleton. naive_solver.
Qed.

(** How the symbol sets of a grammar relate to its productions. *)
Definition sets_in_step (g : Grammar.t) : Prop :=
  ∀ x,
    (x ∈ Grammar.terminals g
     ↔ occurs (Grammar.productions g) x ∧ Py.isupper x = false ∧ x ≠ EPS)
    ∧ (Grammar.has_key (Grammar.productions g) x = true → x ∈ Grammar.non_terminals g)
    ∧ (x ∈ Grammar.non_terminals g →
       Grammar.has_key (Grammar.productions g) x = true
       ∨ (occurs (Grammar.productions g) x ∧ (Py.isupper x = true ∨ x = EPS))).

Lemma terminal_like_true x :
  terminal_like x = true ↔ Py.isupper x = false ∧ x ≠ EPS.
Proof.
unfold terminal_like. rewrite andb_true_iff, !negb_true_iff, bool_decide_eq_false.
done.
Qed.

Lemma terminal_like_false x :
  terminal_like x = false ↔ Py.isupper x = true ∨ x = EPS.
Proof.
unfold terminal_like. rewrite andb_false_iff, !negb_false_iff, bool_decide_eq_true.
done.
Qed.

Lemma sets_in_step_add_production g head body_str :
  sets_in_step g → sets_in_step (Grammar.add_production g head body_str).
Proof.
intros Hg x. destruct (Hg x) as (Ht & Hk & Hn).
rewrite add_production_productions, add_production_terminals,
  add_production_non_terminals, occurs_append_body_iff, has_key_append_body,
  terminal_like_true, terminal_like_false.
split; [|split].
- rewrite Ht. naive_solver.
- intros [->|Hkey]; [by right; left|]. left. by apply Hk.
- intros [Hin|[->|(Hin & Hlike & Hne)]].
  + destruct (Hn Hin) as [?|[? ?]]; [left; by right|]. right. split; [by left|done].
  + left. by left.
  + right. split; [by right|done].
Qed.

(** X3. In a loaded grammar the set of terminals holds exactly the
    symbols of the bodies that are not upper-case and are not the
    epsilon marker; every head is a non-terminal; and every non-terminal
    is a head, or a body symbol that is upper-case or the epsilon
    marker. *)
Theorem load_symbol_sets (rules : list (string * string)) (x : string) :
  (x ∈ Grammar.terminals (load rules)
   ↔ occurs (Grammar.productions (load rules)) x ∧ Py.isupper x = false ∧ x ≠ EPS)
  ∧ (Grammar.has_key (Grammar.productions (load rules)) x = true
     → x ∈ Grammar.non_terminals (load rules))
  ∧ (x ∈ Grammar.non_terminals (load rules) →
     Grammar.has_key (Grammar.productions (load rules)) x = true
     ∨ (occurs (Grammar.productions (load rules)) x ∧ (Py.isupper x = true ∨ x = EPS))).
Proof.
revert x. change (sets_in_step (load rules)). unfold load.
apply (foldl_invariant sets_in_step).
- intros g [head alt] _. apply sets_in_step_add_production.
- intros x. split; [|split]; simpl.
  + split; [by intros ?%elem_of_empty|].
    intros [(h & bs & b & Hp & _) _]. by apply elem_of_nil in Hp.
  + done.
  + by intros ?%elem_of_empty.
Qed.

Lemma load_symbol_sets_witness :
  Grammar.has_key (Grammar.productions (load [("s", "a s"); ("s", "e")])) "s" = true
  ∧ "s" ∈ Grammar.non_terminals (load [("s", "a s"); ("s", "e")]).
Proof.
assert (Grammar.has_key (Grammar.productions (load [("s", "a s"); ("s", "e")])) "s" = true)
  as Hkey by reflexivity.
exact (conj Hkey
  (proj1 (proj2 (load_symbol_sets [("s", "a s"); ("s", "e")] "s")) Hkey)).
Defined.

(** ** augmented *)

(** X4. Without a start symbol [augmented] raises [TypeError]. With
    start symbol [s] it returns a grammar whose start symbol is [s']
    and whose bodies under [s'] end in the tokenized [s], every other
    head keeping its bodies. The grammar it was called on stays as it
    was when [s'] is not one of its heads; when it is, the shallow copy
    lets the new body into its own list of bodies under [s'] too. *)
Theorem augmented_effect (g : Grammar.t) :
  match Grammar.start_symbol g with
  | None => Grammar.augmented g = Raise TypeError
  | Some s =>
      ∃ aug g',
        Grammar.augmented g = Ok (aug, g')
        ∧ Grammar.start_symbol aug = Some (s +:+ "'")
        ∧ Grammar.bodies_of (Grammar.productions aug) (s +:+ "'")
          = Some (default [] (Grammar.bodies_of (Grammar.productions g) (s +:+ "'"))
                  ++ [Py.split (Py.strip s)])
        ∧ (∀ h, h ≠ s +:+ "'" →
             Grammar.bodies_of (Grammar.productions aug) h
             = Grammar.bodies_of (Grammar.productions g) h)
        ∧ (if Grammar.has_key (Grammar.productions g) (s +:+ "'")
           then Grammar.productions g' = Grammar.productions aug
           else g' = g)
  end.
Proof.
unfold Grammar.augmented.
destruct (Grammar.start_symbol g) as [s|] eqn:Estart; [|done].
eexists _, _. split; [done|]. split; [|split; [|split]].
- by rewrite add_production_start_symbol.
- rewrite add_production_productions. apply bodies_of_append_body_eq.
- intros h Hne. rewrite add_production_productions. by apply bodies_of_append_body_ne.
- destruct (Grammar.has_key (Grammar.productions g) (s +:+ "'")); [done|].
  by destruct g.
Qed.

(** ** What the fixpoint loops leave behind *)

(** The loop returns what its last pass returned, and that pass left
    the flag down. *)
Lemma while_changed_last {S} (pass : S → S * bool) :
  ∀ fuel s s', while_changed fuel pass s = Ok s' → ∃ s0, pass s0 = (s', false).
Proof.
induction fuel as [|fuel IH]; intros s s' Hrun; [done|]. simpl in Hrun.
destruct (pass s) as [s1 []] eqn:E.
- by apply (IH s1).
- injection Hrun as <-. by exists s.
Qed.

(** A loop whose turns can only raise a flag, and change the state only
    when they raise it: if the flag is down at the end, it was down at
    the start, the state never moved, and every turn found [Q]. *)
Lemma foldl_quiet {S X} (step : S * bool → X → S * bool) (Q : S → X → Prop) :
  (∀ s c x s', step (s, c) x = (s', false) → c = false ∧ s' = s ∧ Q s x) →
  ∀ l s c s', foldl step (s, c) l = (s', false) →
    c = false ∧ s' = s ∧ ∀ x, x ∈ l → Q s x.
Proof.
intros Hstep. induction l as [|x l IH]; intros s c s'; cbn [foldl].
- intros [= -> ->]. split; [done|]. split; [done|]. by intros x ?%elem_of_nil.
- destruct (step (s, c) x) as [s1 c1] eqn:E. intros Hrest.
  destruct (IH s1 c1 s' Hrest) as (-> & -> & HQ).
  destruct (Hstep s c x s1 E) as (-> & -> & Hx).
  split; [done|]. split; [done|].
  intros y [->|Hy]%elem_of_cons; [done|by apply HQ].
Qed.

Section FirstResult.
Import Grammar.
Variable p : prods_t.

Lemma first_body_head_symbol head last symbol rest f c :
  has_key p symbol = false →
  symbol ∈ getset (first_body p head last (symbol :: rest) (f, c)).1 head.
Proof.
intros Hkey. simpl. rewrite Hkey. simpl.
destruct (bool_decide (symbol ∈ getset f head)) eqn:E; simpl.
- by apply bool_decide_eq_true in E.
- rewrite getset_insert_eq. set_solver.
Qed.

Lemma first_bodies_keep head x (l : list (list string)) : ∀ fc,
  x ∈ getset fc.1 head →
  x ∈ getset (foldl (λ fc body, first_body p head (last_of body) body fc) fc l).1 head.
Proof.
intros fc Hx.
apply (foldl_invariant (λ fc, x ∈ getset fc.1 head)); [|done].
intros [f c] body _ Hin.
by apply (proj1 (first_body_grows p head (last_of body) body f c) head).
Qed.

(** After one pass, a symbol without productions that opens a body is
    in FIRST of the head of that body. *)
Lemma first_heads_head_symbol (l : prods_t) fc head bs0 bs symbol rest :
  (head, bs0) ∈ l →
  bodies_of p head = Some bs → (symbol :: rest) ∈ bs → has_key p symbol = false →
  symbol ∈ getset
    (foldl (λ fc '(head, _),
              foldl (λ fc body, first_body p head (last_of body) body fc)
                    fc (default [] (bodies_of p head)))
           fc l).1 head.
Proof.
intros Hin Hbs Hbody Hkey.
apply list_elem_of_split in Hin as (l1 & l2 & ->).
rewrite foldl_app. cbn [foldl].
set (fc1 := foldl _ fc l1).
apply (foldl_invariant (λ fc, symbol ∈ getset fc.1 head)).
- intros fc' [h bs'] _ Hfc.
  apply (foldl_invariant (λ fc, symbol ∈ getset fc.1 head)); [|done].
  intros [f' c'] body _ Hx.
  by apply (proj1 (first_body_grows p h (last_of body) body f' c') head).
- rewrite Hbs. simpl.
  apply list_elem_of_split in Hbody as (b1 & b2 & ->).
  rewrite foldl_app. cbn [foldl].
  apply first_bodies_keep.
  destruct (foldl _ fc1 b1) as [f' c'].
  by apply first_body_head_symbol.
Qed.

Lemma first_pass_head_symbol f head bs symbol rest :
  bodies_of p head = Some bs → (symbol :: rest) ∈ bs → has_key p symbol = false →
  symbol ∈ getset (first_pass p f).1 head.
Proof.
intros Hbs Hbody Hkey. unfold first_pass.
by apply (first_heads_head_symbol p (f, false) head bs bs symbol rest);
  [apply bodies_of_elem|..].
Qed.

Lemma first_body_other head last rest k : ∀ f c,
  k ≠ head → getset (first_body p head last rest (f, c)).1 k = getset f k.
Proof.
induction rest as [|symbol rest IH]; intros f c Hne; [done|]. simpl.
destruct (has_key p symbol); simpl.
- set (f1 := <[head := _]> f).
  assert (getset f1 k = getset f k) as H1 by by apply getset_insert_ne.
  destruct (bool_decide (EPS ∈ getset f1 symbol)); simpl; [|done].
  rewrite IH by done.
  destruct (bool_decide (symbol = last)); [|done].
  by rewrite getset_insert_ne.
- destruct (bool_decide (symbol ∈ getset f head)); simpl; [done|].
  by apply getset_insert_ne.
Qed.

Lemma first_pass_other f k :
  has_key p k = false → getset (first_pass p f).1 k = getset f k.
Proof.
intros Hkey. unfold first_pass.
apply (foldl_invariant (λ fc, getset fc.1 k = getset f k)); [|done].
intros fc [head bs] Hin Hfc.
assert (k ≠ head) as Hne.
{ intros ->. assert (head ∈ p.*1) as Hhead.
  { apply list_elem_of_fmap. by exists (head, bs). }
  apply has_key_heads_iff in Hhead. congruence. }
apply (foldl_invariant (λ fc, getset fc.1 k = getset f k)); [|done].
intros [f' c'] body _ Hfc'. simpl in *. by rewrite first_body_other.
Qed.

End FirstResult.

(** X5. [calculate_first] only adds to the FIRST sets, and only to those
    of heads: the set of any other symbol is left as it was. When it
    returns, every symbol without productions that opens a body is in
    FIRST of the head of that body. *)
Theorem calculate_first_result (fuel : nat) (g g' : Grammar.t) :
  Grammar.calculate_first fuel g = Ok g' →
  below (Grammar.first g) (Grammar.first g')
  ∧ (∀ X, Grammar.has_key (Grammar.productions g) X = false →
          getset (Grammar.first g') X = getset (Grammar.first g) X)
  ∧ (∀ head bs symbol rest,
       Grammar.bodies_of (Grammar.productions g) head = Some bs →
       (symbol :: rest) ∈ bs →
       Grammar.has_key (Grammar.productions g) symbol = false →
       symbol ∈ getset (Grammar.first g') head).
Proof.
unfold Grammar.calculate_first.
destruct (while_changed _ _ _) as [f| |] eqn:Hrun; [|done..].
intros [= <-]. simpl. split; [|split].
- apply (while_changed_invariant (below (Grammar.first g)) _) with (3 := Hrun);
    [|apply below_refl].
  intros f1 Hf1. eapply below_trans; [done|]. apply first_pass_grows.
- intros X HX.
  apply (while_changed_invariant
           (λ f1, getset f1 X = getset (Grammar.first g) X) _) with (3 := Hrun); [|done].
  intros f1 Hf1. by rewrite first_pass_other.
- intros head bs symbol rest Hbs Hbody Hkey.
  destruct (while_changed_last _ _ _ _ Hrun) as [f0 Hlast].
  pose proof (first_pass_head_symbol (Grammar.productions g) f0 head bs symbol rest
                Hbs Hbody Hkey) as Hin.
  by rewrite Hlast in Hin.
Qed.

Lemma calculate_first_result_witness :
  Grammar.calculate_first 3 g_arith = Ok (result (Grammar.calculate_first 3 g_arith))
  ∧ below (Grammar.first g_arith) (Grammar.first (result (Grammar.calculate_first 3 g_arith)))
  ∧ (∀ X, Grammar.has_key (Grammar.productions g_arith) X = false →
          getset (Grammar.first (result (Grammar.calculate_first 3 g_arith))) X
          = getset (Grammar.first g_arith) X)
  ∧ (∀ head bs symbol rest,
       Grammar.bodies_of (Grammar.productions g_arith) head = Some bs →
       (symbol :: rest) ∈ bs →
       Grammar.has_key (Grammar.productions g_arith) symbol = false →
       symbol ∈ getset (Grammar.first (result (Grammar.calculate_first 3 g_arith))) head).
Proof.
assert (Grammar.calculate_first 3 g_arith
        = Ok (result (Grammar.calculate_first 3 g_arith))) as Hrun.
{ apply returns_result. vm_compute. reflexivity. }
exact (conj Hrun (calculate_first_result 3 g_arith _ Hrun)).
Defined.

Section FollowResult.
Import Grammar.
Variable self : t.
Implicit Types fo : gmap (option string) (gset string).

(** What FOLLOW owes to one occurrence of [B] in a body of [head], with
    [beta] after it. *)
Definition follow_settled fo (head B : string) (beta : list string) : Prop :=
  first_of_string self beta ∖ {[EPS]} ⊆ getset fo (Some B)
  ∧ (EPS ∈ first_of_string self beta ∨ beta = [] →
     getset fo (Some head) ⊆ getset fo (Some B)).

Lemma nonempty_false (X : gset string) : nonempty X = false → X = ∅.
Proof. unfold nonempty. by intros ?%negb_false_iff%bool_decide_eq_true. Qed.

Lemma follow_symbol_quiet head B beta fo c fo' :
  follow_symbol self head B beta (fo, c) = (fo', false) →
  c = false ∧ fo' = fo
  ∧ (has_key (productions self) B = true → follow_settled fo head B beta).
Proof.
unfold follow_symbol, follow_settled.
destruct (has_key (productions self) B); [|by intros [= -> ->]].
destruct (nonempty ((first_of_string self beta ∖ {[EPS]}) ∖ getset fo (Some B))) eqn:E1.
{ intros Heq. repeat case_match; discriminate. }
apply nonempty_false in E1.
destruct (bool_decide (EPS ∈ first_of_string self beta) || bool_decide (beta = []))
  eqn:Econd.
- destruct (nonempty (getset fo (Some head) ∖ getset fo (Some B))) eqn:E2; [done|].
  apply nonempty_false in E2. intros [= -> ->].
  split; [done|]. split; [done|]. intros _. split; set_solver.
- intros [= -> ->]. split; [done|]. split; [done|]. intros _. split; [set_solver|].
  apply orb_false_iff in Econd as [H1%bool_decide_eq_false H2%bool_decide_eq_false].
  by intros [?|?].
Qed.

Lemma follow_body_quiet head body : ∀ fo c fo',
  follow_body self head body (fo, c) = (fo', false) →
  c = false ∧ fo' = fo
  ∧ ∀ pre B beta, body = pre ++ B :: beta →
      has_key (productions self) B = true → follow_settled fo head B beta.
Proof.
induction body as [|B0 beta0 IH]; intros fo c fo'; simpl.
- intros [= -> ->]. split; [done|]. split; [done|]. by intros [|??] ???.
- destruct (follow_symbol self head B0 beta0 (fo, c)) as [fo1 c1] eqn:E.
  intros (-> & -> & Hrest)%IH.
  apply follow_symbol_quiet in E as (-> & -> & Hhere).
  split; [done|]. split; [done|].
  intros [|B1 pre] B beta; simpl; intros [= -> ->]; [done|by eapply Hrest].
Qed.

Lemma follow_pass_quiet fo fo' :
  follow_pass self fo = (fo', false) →
  fo' = fo
  ∧ ∀ head bs pre B beta,
      (head, bs) ∈ productions self → (pre ++ B :: beta) ∈ bs →
      has_key (productions self) B = true → follow_settled fo head B beta.
Proof.
unfold follow_pass. intros Hrun.
apply (foldl_quiet _ (λ fo (hb : string * list (list string)),
         ∀ body, body ∈ hb.2 → ∀ pre B beta, body = pre ++ B :: beta →
           has_key (productions self) B = true →
           follow_settled fo hb.1 B beta)) in Hrun as (_ & -> & Hall).
- split; [done|]. intros head bs pre B beta Hin Hbody.
  by apply (Hall (head, bs) Hin (pre ++ B :: beta) Hbody pre B beta).
- intros fo1 c [head bs] fo2 Hbodies. simpl.
  apply (foldl_quiet _ (λ fo body,
           ∀ pre B beta, body = pre ++ B :: beta →
             has_key (productions self) B = true →
             follow_settled fo head B beta)) in Hbodies as (-> & -> & Hall);
    [done|].
  intros fo3 c3 body fo4. apply follow_body_quiet.
Qed.

End FollowResult.

(** X6. [calculate_follow] only adds to the FOLLOW sets, and puts the
    end marker into FOLLOW of the start symbol. When it returns, the
    FOLLOW sets satisfy the equations of every occurrence of a head [B]
    in a body [pre B beta] of [head]: FIRST(beta) without the epsilon
    marker lies in FOLLOW(B), and when [beta] is empty or FIRST(beta)
    has the epsilon marker, FOLLOW(head) lies in FOLLOW(B). *)
Theorem calculate_follow_result (fuel : nat) (g g' : Grammar.t) :
  Grammar.calculate_follow fuel g = Ok g' →
  below (Grammar.follow g) (Grammar.follow g')
  ∧ EOF ∈ getset (Grammar.follow g') (Grammar.start_symbol g)
  ∧ ∀ head bs pre B beta,
      (head, bs) ∈ Grammar.productions g → (pre ++ B :: beta) ∈ bs →
      Grammar.has_key (Grammar.productions g) B = true →
      Grammar.first_of_string g beta ∖ {[EPS]} ⊆ getset (Grammar.follow g') (Some B)
      ∧ (EPS ∈ Grammar.first_of_string g beta ∨ beta = [] →
         getset (Grammar.follow g') (Some head) ⊆ getset (Grammar.follow g') (Some B)).
Proof.
unfold Grammar.calculate_follow. fold (follow_seeded g).
destruct (while_changed _ _ _) as [fo| |] eqn:Hrun; [|done..].
intros [= <-]. simpl.
assert (below (follow_seeded g) fo) as Hseed.
{ apply (while_changed_invariant (below (follow_seeded g)) _) with (3 := Hrun);
    [|apply below_refl].
  intros fo1 Hfo1. eapply below_trans; [done|].
  by apply (follow_pass_kept g (λ _, True) (λ _, True)). }
split; [|split].
- eapply below_trans; [|done]. apply below_insert. set_solver.
- apply (Hseed (Grammar.start_symbol g)). unfold follow_seeded.
  rewrite getset_insert_eq. set_solver.
- destruct (while_changed_last _ _ _ _ Hrun) as [fo0 Hlast].
  apply follow_pass_quiet in Hlast as [-> Hall]. apply Hall.
Qed.

Lemma calculate_follow_result_witness :
  Grammar.calculate_follow 3 g_nullable_ends
    = Ok (result (Grammar.calculate_follow 3 g_nullable_ends))
  ∧ below (Grammar.follow g_nullable_ends)
          (Grammar.follow (result (Grammar.calculate_follow 3 g_nullable_ends)))
  ∧ EOF ∈ getset (Grammar.follow (result (Grammar.calculate_follow 3 g_nullable_ends)))
                 (Grammar.start_symbol g_nullable_ends)
  ∧ ∀ head bs pre B beta,
      (head, bs) ∈ Grammar.productions g_nullable_ends → (pre ++ B :: beta) ∈ bs →
      Grammar.has_key (Grammar.productions g_nullable_ends) B = true →
      Grammar.first_of_string g_nullable_ends beta ∖ {[EPS]}
        ⊆ getset (Grammar.follow (result (Grammar.calculate_follow 3 g_nullable_ends)))
                 (Some B)
      ∧ (EPS ∈ Grammar.first_of_string g_nullable_ends beta ∨ beta = [] →
         getset (Grammar.follow (result (Grammar.calculate_follow 3 g_nullable_ends)))
                (Some head)
         ⊆ getset (Grammar.follow (result (Grammar.calculate_follow 3 g_nullable_ends)))
                  (Some B)).
Proof.
assert (Grammar.calculate_follow 3 g_nullable_ends
        = Ok (result (Grammar.calculate_follow 3 g_nullable_ends))) as Hrun.
{ apply returns_result. vm_compute. reflexivity. }
exact (conj Hrun (calculate_follow_result 3 g_nullable_ends _ Hrun)).
Defined.

(** ** closure and goto: what they return *)

Section ClosureResult.
Import Grammar.
Variable p : prods_t.

(** A set that holds, for each of its items with a head of [p] after
    the dot, every body of that head with the dot in front. *)
Definition closure_complete (closure_set : State) : Prop :=
  ∀ item next_sym bs prod,
    item ∈ closure_set →
    LR0Item.next_symbol item = Some next_sym → next_sym ≠ "" →
    bodies_of p next_sym = Some bs → prod ∈ bs →
    LR0Item.mk next_sym prod 0 ∈ closure_set.

(** What one item asks of the set. *)
Definition item_served (closure_set : State) (item : Item) : Prop :=
  ∀ next_sym bs prod,
    LR0Item.next_symbol item = Some next_sym → next_sym ≠ "" →
    bodies_of p next_sym = Some bs → prod ∈ bs →
    LR0Item.mk next_sym prod 0 ∈ closure_set.

Lemma closure_item_quiet closure_set new_items added item new_items' :
  closure_item p closure_set (new_items, added) item = (new_items', false) →
  added = false ∧ new_items' = new_items ∧ item_served closure_set item.
Proof.
unfold closure_item, item_served.
destruct (LR0Item.next_symbol item) as [next_sym|]; [|by intros [= -> ->]].
destruct (bool_decide (next_sym = "")) eqn:Eempty; simpl.
{ apply bool_decide_eq_true in Eempty. intros [= -> ->].
  split; [done|]. split; [done|]. by intros ??? [= <-]. }
destruct (has_key p next_sym) eqn:Ekey; simpl.
- unfold has_key in Ekey. destruct (bodies_of p next_sym) as [bs|] eqn:Ebs; [|done].
  simpl. intros Hrun.
  apply (foldl_quiet _ (λ _ prod, LR0Item.mk next_sym prod 0 ∈ closure_set)) in Hrun
    as (-> & -> & Hall).
  + split; [done|]. split; [done|]. intros ? bs' prod [= <-] _ Hbs'.
    rewrite Ebs in Hbs'. injection Hbs' as <-. apply Hall.
  + intros new c prod new'.
    destruct (bool_decide (LR0Item.mk next_sym prod 0 ∉ closure_set)) eqn:E; [done|].
    intros [= -> ->]. split; [done|]. split; [done|].
    apply bool_decide_eq_false in E. by apply dec_stable.
- intros [= -> ->]. split; [done|]. split; [done|].
  intros ? bs prod [= <-] _ Hbs. unfold has_key in Ekey. by rewrite Hbs in Ekey.
Qed.

Lemma closure_pass_quiet closure_set closure_set' :
  closure_pass p closure_set = (closure_set', false) →
  closure_set' = closure_set ∧ closure_complete closure_set.
Proof.
unfold closure_pass.
destruct (foldl _ _ _) as [new_items added] eqn:Hscan. intros [= <- ->].
apply (foldl_quiet _ (λ _ item, item_served closure_set item)) in Hscan
  as (_ & -> & Hall).
- split; [set_solver|]. intros item next_sym bs prod Hin.
  apply Hall. by apply elem_of_elements.
- intros new c item new'. apply closure_item_quiet.
Qed.

(** The items a pass adds are asked for by items of the set. *)
Lemma closure_item_within (W closure_set : State) acc item :
  closure_complete W → item ∈ W → acc.1 ⊆ W →
  (closure_item p closure_set acc item).1 ⊆ W.
Proof.
intros HW Hitem Hacc. unfold closure_item.
destruct (LR0Item.next_symbol item) as [next_sym|] eqn:Enext; [|done].
destruct (bool_decide (next_sym = "")) eqn:Eempty; simpl; [done|].
apply bool_decide_eq_false in Eempty.
destruct (has_key p next_sym); simpl; [|done].
destruct (bodies_of p next_sym) as [bs|] eqn:Ebs; [|done]. simpl.
apply (foldl_invariant (λ acc : State * bool, acc.1 ⊆ W)); [|done].
intros [new c] prod Hprod Hnew. simpl in *.
destruct (bool_decide _); simpl; [|done].
pose proof (HW item next_sym bs prod Hitem Enext Eempty Ebs Hprod). set_solver.
Qed.

Lemma closure_pass_within (W closure_set : State) :
  closure_complete W → closure_set ⊆ W → (closure_pass p closure_set).1 ⊆ W.
Proof.
intros HW Hsub. unfold closure_pass.
assert ((foldl (closure_item p closure_set) (∅, false) (elements closure_set)).1 ⊆ W)
  as Hnew.
{ apply (foldl_invariant (λ acc : State * bool, acc.1 ⊆ W)); [|set_solver].
  intros acc item Hin%elem_of_elements Hacc. apply closure_item_within; [done| |done].
  by apply Hsub. }
destruct (foldl _ _ _) as [new added]. simpl in *. set_solver.
Qed.

End ClosureResult.

(** The set returned is the least complete set over the items given. *)
Lemma closure_least (fuel : nat) (g : Grammar.t) (items closure_set : State) :
  Grammar.closure fuel g items = Ok closure_set →
  items ⊆ closure_set
  ∧ closure_complete (Grammar.productions g) closure_set
  ∧ (∀ W, closure_complete (Grammar.productions g) W → items ⊆ W → closure_set ⊆ W).
Proof.
unfold Grammar.closure. intros Hrun.
destruct (while_changed_last _ _ _ _ Hrun) as [cs0 Hlast].
pose proof (closure_pass_quiet _ _ _ Hlast) as [-> Hcomplete].
split; [|split; [done|]].
- apply (while_changed_invariant (λ cs : State, items ⊆ cs) _) with (3 := Hrun); [|done].
  intros cs Hcs. destruct (closure_pass_spec (Grammar.productions g) cs) as [Hsub _].
  set_solver.
- intros W HW Hitems.
  apply (while_changed_invariant (λ cs : State, cs ⊆ W) _) with (3 := Hrun); [|done].
  intros cs Hcs. by apply closure_pass_within.
Qed.

(** X7. What [closure] returns holds the items it was given, is
    complete (each of its items with a head after the dot has all the
    bodies of that head in the set, dot in front), and is the least such
    set; a further [closure] of it returns it unchanged. *)
Theorem closure_result (fuel : nat) (g : Grammar.t) (items closure_set : State) :
  Grammar.closure fuel g items = Ok closure_set →
  items ⊆ closure_set
  ∧ closure_complete (Grammar.productions g) closure_set
  ∧ (∀ W, closure_complete (Grammar.productions g) W → items ⊆ W → closure_set ⊆ W)
  ∧ ∀ fuel', Grammar.closure (S fuel') g closure_set = Ok closure_set.
Proof.
intros Hrun. destruct (closure_least _ _ _ _ Hrun) as (Hitems & Hcomplete & Hleast).
split; [done|]. split; [done|]. split; [done|].
unfold Grammar.closure in *.
destruct (while_changed_last _ _ _ _ Hrun) as [cs0 Hlast].
pose proof (closure_pass_quiet _ _ _ Hlast) as [-> _].
intros fuel'. simpl. by rewrite Hlast.
Qed.

(** The set a run of [closure] or [goto] returned. *)
Definition closed_of (r : run State) : State :=
  match r with Ok closure_set => closure_set | _ => ∅ end.

Lemma closed_of_ok (r : run State) : returns r = true → r = Ok (closed_of r).
Proof. by destruct r. Qed.

Lemma closure_result_witness :
  let items : State := {[LR0Item.mk "T" ["T"; "*"; "F"] 2]} in
  let closure_set := closed_of (Grammar.closure 3 g_arith items) in
  Grammar.closure 3 g_arith items = Ok closure_set
  ∧ items ⊆ closure_set
  ∧ closure_complete (Grammar.productions g_arith) closure_set
  ∧ (∀ W, closure_complete (Grammar.productions g_arith) W → items ⊆ W → closure_set ⊆ W)
  ∧ ∀ fuel', Grammar.closure (S fuel') g_arith closure_set = Ok closure_set.
Proof.
intros items closure_set.
assert (Grammar.closure 3 g_arith items = Ok closure_set) as Hrun.
{ apply closed_of_ok. vm_compute. reflexivity. }
exact (conj Hrun (closure_result 3 g_arith items closure_set Hrun)).
Defined.

Lemma closure_complete_initial (p : Grammar.prods_t) (X : State) :
  closure_complete p (X ∪ initial_items p).
Proof.
intros item next_sym bs prod _ _ _ Hbs Hprod.
apply elem_of_union. right. by apply (initial_items_elem p next_sym bs).
Qed.

Lemma goto_moved_elem (symbol : option string) (l : list Item) : ∀ (moved : State) item,
  item ∈ l → LR0Item.next_symbol item = symbol →
  LR0Item.advance item
    ∈ foldl (λ (moved : State) item,
               if bool_decide (LR0Item.next_symbol item = symbol)
               then moved ∪ {[LR0Item.advance item]} else moved) moved l.
Proof.
induction l as [|item' l IH]; intros moved item Hin Hnext; [by apply elem_of_nil in Hin|].
cbn [foldl]. apply elem_of_cons in Hin as [->|Hin]; [|by apply IH].
rewrite bool_decide_eq_true_2 by done.
apply (foldl_invariant (λ m : State, LR0Item.advance item' ∈ m)); [|set_solver].
intros m x _ Hm. destruct (bool_decide _); set_solver.
Qed.

(** X8. What [goto] returns over [symbol] holds the successor of every
    item of the set that has [symbol] after the dot; beyond these
    successors it holds only items with the dot in front of a body of
    the grammar; it is complete; and it is empty when no item of the set
    has [symbol] after the dot. *)
Theorem goto_result (fuel : nat) (g : Grammar.t) (items target : State)
    (symbol : option string) :
  Grammar.goto fuel g items symbol = Ok target →
  (∀ item, item ∈ items → LR0Item.next_symbol item = symbol →
           LR0Item.advance item ∈ target)
  ∧ (∀ x, x ∈ target →
          (∃ item, item ∈ items ∧ LR0Item.next_symbol item = symbol
                   ∧ x = LR0Item.advance item)
          ∨ x ∈ initial_items (Grammar.productions g))
  ∧ closure_complete (Grammar.productions g) target
  ∧ ((∀ item, item ∈ items → LR0Item.next_symbol item ≠ symbol) → target = ∅).
Proof.
unfold Grammar.goto. set (moved := foldl _ _ _). intros Hrun.
destruct (closure_least _ _ _ _ Hrun) as (Hsub & Hcomplete & Hleast).
assert (∀ x, x ∈ moved →
          ∃ item, item ∈ items ∧ LR0Item.next_symbol item = symbol
                  ∧ x = LR0Item.advance item) as Hmoved.
{ intros x [Hx|(item & Hin & Hnext & ->)]%goto_moved; [by apply elem_of_empty in Hx|].
  exists item. split; [by apply elem_of_elements|done]. }
split; [|split; [|split; [done|]]].
- intros item Hin Hnext. apply Hsub, goto_moved_elem; [|done].
  by apply elem_of_elements.
- intros x Hx.
  apply (Hleast (moved ∪ initial_items (Grammar.productions g))) in Hx;
    [|apply closure_complete_initial|set_solver].
  apply elem_of_union in Hx as [Hx|Hx]; [left; by apply Hmoved|by right].
- intros Hnone. apply set_eq. intros x. split; [|by intros ?%elem_of_empty].
  intros Hx. apply (Hleast moved) in Hx.
  + destruct (Hmoved x Hx) as (item & Hin & Hnext & _). by destruct (Hnone item Hin).
  + intros item next_sym bs prod Hin. destruct (Hmoved item Hin) as (i & Hi & Hnext & _).
    by destruct (Hnone i Hi).
  + done.
Qed.

Lemma goto_result_witness :
  let items : State := {[LR0Item.mk "E" ["E"; "+"; "T"] 1; LR0Item.mk "E" ["T"] 0]} in
  let target := closed_of (Grammar.goto 3 g_arith items (Some "+")) in
  Grammar.goto 3 g_arith items (Some "+") = Ok target
  ∧ (∀ item, item ∈ items → LR0Item.next_symbol item = Some "+" →
             LR0Item.advance item ∈ target)
  ∧ (∀ x, x ∈ target →
          (∃ item, item ∈ items ∧ LR0Item.next_symbol item = Some "+"
                   ∧ x = LR0Item.advance item)
          ∨ x ∈ initial_items (Grammar.productions g_arith))
  ∧ closure_complete (Grammar.productions g_arith) target
  ∧ ((∀ item, item ∈ items → LR0Item.next_symbol item ≠ Some "+") → target = ∅).
Proof.
intros items target.
assert (Grammar.goto 3 g_arith items (Some "+") = Ok target) as Hrun.
{ apply closed_of_ok. vm_compute. reflexivity. }
exact (conj Hrun (goto_result 3 g_arith items target (Some "+") Hrun)).
Defined.

(** ** build_lr0_states: the automaton it returns *)

Section ExploreResult.
Import Grammar.
Variable self : t.
Variable cfuel : nat.
Variable start_closure : State.

(** The transition of state [i] over [X] is recorded and leads to [t]. *)
Definition recorded (st : lr0) (i : nat) (X : string) (t : State) : Prop :=
  ∃ j, lr0_transitions st !! (i, X) = Some j ∧ lr0_states st !! j = Some t.

Definition automaton_sound (st : lr0) : Prop :=
  NoDup (lr0_states st)
  ∧ (∀ s, s ∈ lr0_states st → s ≠ ∅)
  ∧ (∀ s i, lr0_seen st !! s = Some i ↔ lr0_states st !! i = Some s)
  ∧ (∀ i X j, lr0_transitions st !! (i, X) = Some j →
       ∃ s t, lr0_states st !! i = Some s
              ∧ goto cfuel self s (Some X) = Ok t ∧ t ≠ ∅
              ∧ lr0_states st !! j = Some t)
  ∧ lr0_states st !! 0 = Some start_closure.

(** Every non-empty [goto] of the first [n] states over a symbol of the
    grammar is recorded. *)
Definition complete_upto (st : lr0) (n : nat) : Prop :=
  ∀ i s X t,
    i < n → lr0_states st !! i = Some s →
    X ∈ terminals self ∪ non_terminals self →
    goto cfuel self s (Some X) = Ok t → t ≠ ∅ → recorded st i X t.

Lemma explore_symbol_sound st st' current idx X :
  automaton_sound st → lr0_states st !! idx = Some current →
  explore_symbol cfuel self current idx (Ok st) X = Ok st' →
  automaton_sound st'
  ∧ (∃ new, lr0_states st' = lr0_states st ++ new ∧ lr0_queue st' = lr0_queue st ++ new)
  ∧ (∀ t, goto cfuel self current (Some X) = Ok t → t ≠ ∅ → recorded st' idx X t)
  ∧ (∀ i X0 s t, lr0_states st !! i = Some s → goto cfuel self s (Some X0) = Ok t →
                 recorded st i X0 t → recorded st' i X0 t).
Proof.
intros (Hnd & Hne & Hseen & Htrans & Hzero) Hidx. unfold explore_symbol.
rewrite bind_Ok_l.
destruct (goto cfuel self current (Some X)) as [target| |] eqn:Egoto; [|done..].
rewrite bind_Ok_l.
destruct (bool_decide (target = ∅)) eqn:Eempty.
{ apply bool_decide_eq_true in Eempty. intros [= <-].
  split; [done|]. split; [exists []; by rewrite !app_nil_r|]. split; [|done].
  intros t [= <-]. done. }
apply bool_decide_eq_false in Eempty.
destruct (lr0_seen st !! target) as [j|] eqn:Eseen.
- intros [= <-]. simpl.
  pose proof (proj1 (Hseen target j) Eseen) as Hj.
  split; [|split; [exists []; by rewrite !app_nil_r|split]].
  + split; [done|]. split; [done|]. split; [done|]. split; [|done].
    simpl. intros i X0 j0.
    destruct (decide ((idx, X) = (i, X0))) as [[= <- <-]|Hkey].
    * rewrite lookup_insert_eq. intros [= <-]. by exists current, target.
    * rewrite lookup_insert_ne by done. apply Htrans.
  + intros t [= <-] _. exists j. simpl. by rewrite lookup_insert_eq.
  + intros i X0 s t Hi Hgoto (j0 & Hj0 & Ht). unfold recorded. simpl.
    destruct (decide ((idx, X) = (i, X0))) as [[= <- <-]|Hkey].
    * exists j. rewrite lookup_insert_eq. split; [done|].
      rewrite Hidx in Hi. injection Hi as <-. rewrite Egoto in Hgoto.
      by injection Hgoto as <-.
    * exists j0. by rewrite lookup_insert_ne.
- intros [= <-]. simpl.
  assert (target ∉ lr0_states st) as Hnew.
  { intros (i & Hi)%list_elem_of_lookup. apply Hseen in Hi. congruence. }
  assert (∀ i s, lr0_states st !! i = Some s →
                 (lr0_states st ++ [target]) !! i = Some s) as Hold.
  { intros i s Hi. by apply lookup_app_l_Some. }
  assert ((lr0_states st ++ [target]) !! length (lr0_states st) = Some target) as Hlast.
  { rewrite lookup_app_r by done. by rewrite Nat.sub_diag. }
  split; [|split; [by exists [target]|split]].
  + split; [|split; [|split; [|split]]]; simpl.
    * apply NoDup_app. split; [done|]. split; [|apply NoDup_singleton].
      intros s Hs ->%list_elem_of_singleton. done.
    * intros s [Hs| ->%list_elem_of_singleton]%elem_of_app; [by apply Hne|done].
    * intros s i. destruct (decide (target = s)) as [<-|Hts].
      -- rewrite lookup_insert_eq. split.
         ++ by intros [= <-].
         ++ intros Hi. f_equal.
            apply lookup_app_Some in Hi as [Hi|[Hlen Hi]].
            ** destruct Hnew. apply list_elem_of_lookup. by exists i.
            ** apply list_lookup_singleton_Some in Hi as [Hi _]. lia.
      -- rewrite lookup_insert_ne by done. rewrite Hseen. split; [apply Hold|].
         intros Hi. apply lookup_app_Some in Hi as [Hi|[Hlen Hi]]; [done|].
         apply list_lookup_singleton_Some in Hi as [_ ?]. done.
    * intros i X0 j0.
      destruct (decide ((idx, X) = (i, X0))) as [[= <- <-]|Hkey].
      -- rewrite lookup_insert_eq. intros [= <-].
         exists current, target. repeat split; [by apply Hold|done..].
      -- rewrite lookup_insert_ne by done. intros Hj0.
         destruct (Htrans i X0 j0 Hj0) as (s & t & Hi & Hgoto & Hnot & Ht).
         exists s, t. repeat split; [by apply Hold|done..|by apply Hold].
    * by apply Hold.
  + intros t [= <-] _. exists (length (lr0_states st)). simpl.
    by rewrite lookup_insert_eq.
  + intros i X0 s t Hi Hgoto (j0 & Hj0 & Ht). unfold recorded. simpl.
    destruct (decide ((idx, X) = (i, X0))) as [[= <- <-]|Hkey].
    * exists (length (lr0_states st)). rewrite lookup_insert_eq. split; [done|].
      rewrite Hidx in Hi. injection Hi as <-. rewrite Egoto in Hgoto.
      by injection Hgoto as <-.
    * exists j0. rewrite lookup_insert_ne by done. split; [done|by apply Hold].
Qed.

Lemma explore_symbols_stuck current idx (l : list string) (acc : run lr0) st' :
  foldl (explore_symbol cfuel self current idx) acc l = Ok st' → ∃ st, acc = Ok st.
Proof.
revert acc. induction l as [|X l IH]; intros acc; cbn [foldl]; [by eexists|].
intros [st Hst]%IH. destruct acc as [st0| |]; [by eexists|done..].
Qed.

(** The turns of [for symbol in ...] over the symbols [l], while state
    [idx] is being expanded. *)
Lemma explore_symbols_sound current idx (l : list string) : ∀ st st',
  automaton_sound st → lr0_states st !! idx = Some current →
  foldl (explore_symbol cfuel self current idx) (Ok st) l = Ok st' →
  automaton_sound st'
  ∧ (∃ new, lr0_states st' = lr0_states st ++ new ∧ lr0_queue st' = lr0_queue st ++ new)
  ∧ (∀ X t, X ∈ l → goto cfuel self current (Some X) = Ok t → t ≠ ∅ →
            recorded st' idx X t)
  ∧ (∀ i X0 s t, lr0_states st !! i = Some s → goto cfuel self s (Some X0) = Ok t →
                 recorded st i X0 t → recorded st' i X0 t).
Proof.
induction l as [|X l IH]; intros st st' Hst Hidx; cbn [foldl].
- intros [= <-]. split; [done|]. split; [exists []; by rewrite !app_nil_r|].
  split; [|done]. by intros X t ?%elem_of_nil.
- destruct (explore_symbol cfuel self current idx (Ok st) X) as [st1| |] eqn:Estep.
  2,3: (intros Hrun; by apply explore_symbols_stuck in Hrun as [? ?]).
  destruct (explore_symbol_sound st st1 current idx X Hst Hidx Estep)
    as (Hst1 & (new1 & Hs1 & Hq1) & Hrec1 & Hkeep1).
  assert (lr0_states st1 !! idx = Some current) as Hidx1.
  { rewrite Hs1. by apply lookup_app_l_Some. }
  intros Hrun.
  destruct (IH st1 st' Hst1 Hidx1 Hrun) as (Hst' & (new2 & Hs2 & Hq2) & Hrec2 & Hkeep2).
  split; [done|]. split; [|split].
  + exists (new1 ++ new2). rewrite Hs2, Hq2, Hs1, Hq1. by rewrite !app_assoc.
  + intros Y t [->|HY]%elem_of_cons Hgoto Hnot; [|by apply Hrec2].
    apply (Hkeep2 idx X current t Hidx1 Hgoto). by apply Hrec1.
  + intros i X0 s t Hi Hgoto Hrec.
    apply (Hkeep2 i X0 s t); [rewrite Hs1; by apply lookup_app_l_Some|done|].
    by apply (Hkeep1 i X0 s t).
Qed.

(** What holds between two turns of [while queue:]: the queue is the
    tail of [states] that has not been expanded yet. *)
Definition explore_sound (st : lr0) : Prop :=
  automaton_sound st
  ∧ ∃ expanded, lr0_states st = expanded ++ lr0_queue st
                ∧ complete_upto st (length expanded).

Lemma explore_result fuel : ∀ st st',
  explore_sound st → explore fuel cfuel self st = Ok st' →
  automaton_sound st' ∧ complete_upto st' (length (lr0_states st')).
Proof.
induction fuel as [|fuel IH]; intros st st' [Hst (expanded & Hsplit & Hcomplete)]; [done|].
simpl. destruct (lr0_queue st) as [|current queue] eqn:Equeue.
{ intros [= <-]. split; [done|]. rewrite Hsplit, ?Equeue, app_nil_r. exact Hcomplete. }
assert (lr0_states st !! length expanded = Some current) as Hcur.
{ rewrite Hsplit, ?Equeue. by apply list_lookup_middle. }
destruct (lr0_seen st !! current) as [idx|] eqn:Eseen; [|done].
assert (idx = length expanded) as ->.
{ destruct Hst as (Hnd & _ & Hseen & _). apply Hseen in Eseen.
  by apply (NoDup_lookup _ _ _ current Hnd). }
set (st1 := mk_lr0 (lr0_states st) (lr0_seen st) queue (lr0_transitions st)).
destruct (foldl _ _ _) as [st2| |] eqn:Efold; [|done..].
rewrite bind_Ok_l.
destruct (explore_symbols_sound current (length expanded) _ st1 st2 Hst Hcur Efold)
  as (Hst2 & (new & Hs2 & Hq2) & Hrec & Hkeep).
apply IH. split; [done|]. exists (expanded ++ [current]). split.
- rewrite Hs2, Hq2. simpl. rewrite Hsplit, ?Equeue. by rewrite <- !app_assoc.
- intros i s X t Hi Hlookup HX Hgoto Hnot. rewrite length_app in Hi. simpl in Hi.
  assert (i < length (lr0_states st)) as Hlt.
  { rewrite Hsplit, length_app, ?Equeue. simpl. lia. }
  assert (lr0_states st !! i = Some s) as Hold.
  { rewrite Hs2 in Hlookup. simpl in Hlookup. by rewrite lookup_app_l in Hlookup. }
  destruct (decide (i = length expanded)) as [->|Hne].
  + rewrite Hcur in Hold. injection Hold as <-.
    apply Hrec; [by apply elem_of_elements|done..].
  + apply (Hkeep i X s t Hold Hgoto).
    destruct (Hcomplete i s X t) as (j & Hj & Ht); [lia|done..|]. by exists j.
Qed.

End ExploreResult.

Lemma with_states_goto fuel l g s X :
  Grammar.goto fuel (Grammar.with_states l g) s X = Grammar.goto fuel g s X.
Proof. done. Qed.

(** How a run of [build_lr0_states] that returns is made up. *)
Lemma build_lr0_states_inv fuel g transitions g' :
  Grammar.build_lr0_states fuel g = Ok (transitions, g') →
  ∃ aug g1 s c st,
    Grammar.augmented g = Ok (aug, g1)
    ∧ Grammar.start_symbol g = Some s
    ∧ Grammar.closure fuel aug {[LR0Item.mk (s +:+ "'") [s] 0]} = Ok c
    ∧ Grammar.explore fuel fuel g1 (Grammar.mk_lr0 [c] {[c := 0]} [c] ∅) = Ok st
    ∧ transitions = Grammar.lr0_transitions st
    ∧ g' = Grammar.with_states (Grammar.lr0_states st) g1.
Proof.
unfold Grammar.build_lr0_states. intros Hrun.
destruct (Grammar.start_symbol g) as [s|] eqn:Estart.
- destruct (augmented_Some g s Estart) as (aug & g1 & Haug & Hs1 & Hs2).
  rewrite Haug, bind_Ok_l, Hs1, Hs2 in Hrun.
  apply bind_Ok in Hrun as (c & Hc & Hrun).
  apply bind_Ok in Hrun as (st & Hst & Hrun).
  injection Hrun as <- <-. by exists aug, g1, s, c, st.
- unfold Grammar.augmented in Hrun. by rewrite Estart in Hrun.
Qed.

Lemma build_lr0_states_sound fuel g transitions g' :
  Grammar.build_lr0_states fuel g = Ok (transitions, g') →
  ∃ aug g1 s c st,
    Grammar.augmented g = Ok (aug, g1)
    ∧ Grammar.start_symbol g = Some s
    ∧ Grammar.closure fuel aug {[LR0Item.mk (s +:+ "'") [s] 0]} = Ok c
    ∧ transitions = Grammar.lr0_transitions st
    ∧ g' = Grammar.with_states (Grammar.lr0_states st) g1
    ∧ automaton_sound g1 fuel c st
    ∧ complete_upto g1 fuel st (length (Grammar.lr0_states st)).
Proof.
intros (aug & g1 & s & c & st & Haug & Hs & Hc & Hst & -> & ->)%build_lr0_states_inv.
exists aug, g1, s, c, st. repeat (split; [done|]).
apply (explore_result g1 fuel c fuel (Grammar.mk_lr0 [c] {[c := 0]} [c] ∅) st); [|done].
split; [|exists []; split; [done|]; intros i s' X t Hi; simpl in Hi; lia].
destruct (closure_least _ _ _ _ Hc) as [Hstart _].
split; [apply NoDup_singleton|]. split; [|split; [|split; [|done]]]; simpl.
- intros s' ->%list_elem_of_singleton. set_solver.
- intros s' i. rewrite lookup_singleton_Some, list_lookup_singleton_Some. naive_solver.
- intros i X j. by rewrite lookup_empty.
Qed.

(** X9. When [build_lr0_states] returns, the states it has numbered are
    pairwise distinct, none of them is empty, and state 0 is the closure,
    in the augmented grammar, of the item of the added start production
    with the dot in front. *)
Theorem build_lr0_states_states (fuel : nat) (g g' : Grammar.t)
    (transitions : gmap (nat * string) nat) :
  Grammar.build_lr0_states fuel g = Ok (transitions, g') →
  NoDup (Grammar.states g')
  ∧ (∀ s, s ∈ Grammar.states g' → s ≠ ∅)
  ∧ ∃ aug g1 s c,
      Grammar.augmented g = Ok (aug, g1)
      ∧ Grammar.start_symbol g = Some s
      ∧ Grammar.closure fuel aug {[LR0Item.mk (s +:+ "'") [s] 0]} = Ok c
      ∧ Grammar.states g' !! 0 = Some c.
Proof.
intros (aug & g1 & s & c & st & Haug & Hs & Hc & -> & -> & Hsound & _)
  %build_lr0_states_sound.
destruct Hsound as (Hnd & Hne & _ & _ & Hzero). simpl.
split; [done|]. split; [done|]. by exists aug, g1, s, c.
Qed.

(** X10. When [build_lr0_states] returns, its transitions are the
    [goto] function of the states it has numbered: an entry
    [(i, X) -> j] says that [goto] of state [i] over [X] is the
    non-empty state [j]; and for every state [i] and every symbol [X]
    of the grammar whose [goto] is not empty, that entry is there. *)
Theorem build_lr0_states_transitions (fuel : nat) (g g' : Grammar.t)
    (transitions : gmap (nat * string) nat) :
  Grammar.build_lr0_states fuel g = Ok (transitions, g') →
  (∀ i X j, transitions !! (i, X) = Some j →
     ∃ s t, Grammar.states g' !! i = Some s
            ∧ Grammar.goto fuel g' s (Some X) = Ok t ∧ t ≠ ∅
            ∧ Grammar.states g' !! j = Some t)
  ∧ (∀ i s X t,
       Grammar.states g' !! i = Some s →
       X ∈ Grammar.terminals g' ∪ Grammar.non_terminals g' →
       Grammar.goto fuel g' s (Some X) = Ok t → t ≠ ∅ →
       ∃ j, transitions !! (i, X) = Some j ∧ Grammar.states g' !! j = Some t).
Proof.
intros (aug & g1 & s & c & st & Haug & Hs & Hc & -> & -> & Hsound & Hcomplete)
  %build_lr0_states_sound.
destruct Hsound as (_ & _ & _ & Htrans & _). split.
- intros i X j Hj. destruct (Htrans i X j Hj) as (s' & t & H1 & H2 & H3 & H4).
  exists s', t. by rewrite with_states_goto.
- intros i s' X t Hi HX Hgoto Hnot. rewrite with_states_goto in Hgoto.
  apply (Hcomplete i s' X t); [|done..].
  apply lookup_lt_is_Some. by eexists.
Qed.

(** What a run of [build_lr0_states] returned. *)
Definition lr0_transitions_of (r : run (gmap (nat * string) nat * Grammar.t))
  : gmap (nat * string) nat :=
  match r with Ok (transitions, _) => transitions | _ => ∅ end.

Definition lr0_grammar_of (r : run (gmap (nat * string) nat * Grammar.t)) : Grammar.t :=
  match r with Ok (_, g) => g | _ => Grammar.init end.

Lemma lr0_of_ok (r : run (gmap (nat * string) nat * Grammar.t)) :
  returns r = true → r = Ok (lr0_transitions_of r, lr0_grammar_of r).
Proof. by destruct r as [[??]| |]. Qed.

Lemma build_lr0_states_states_witness :
  let r := Grammar.build_lr0_states 5 g_conflict in
  r = Ok (lr0_transitions_of r, lr0_grammar_of r)
  ∧ NoDup (Grammar.states (lr0_grammar_of r))
  ∧ (∀ s, s ∈ Grammar.states (lr0_grammar_of r) → s ≠ ∅)
  ∧ ∃ aug g1 s c,
      Grammar.augmented g_conflict = Ok (aug, g1)
      ∧ Grammar.start_symbol g_conflict = Some s
      ∧ Grammar.closure 5 aug {[LR0Item.mk (s +:+ "'") [s] 0]} = Ok c
      ∧ Grammar.states (lr0_grammar_of r) !! 0 = Some c.
Proof.
intros r.
assert (r = Ok (lr0_transitions_of r, lr0_grammar_of r)) as Hrun.
{ apply lr0_of_ok. vm_compute. reflexivity. }
exact (conj Hrun (build_lr0_states_states 5 g_conflict _ _ Hrun)).
Defined.

Lemma build_lr0_states_transitions_witness :
  let r := Grammar.build_lr0_states 5 g_conflict in
  r = Ok (lr0_transitions_of r, lr0_grammar_of r)
  ∧ (∀ i X j, lr0_transitions_of r !! (i, X) = Some j →
       ∃ s t, Grammar.states (lr0_grammar_of r) !! i = Some s
              ∧ Grammar.goto 5 (lr0_grammar_of r) s (Some X) = Ok t ∧ t ≠ ∅
              ∧ Grammar.states (lr0_grammar_of r) !! j = Some t)
  ∧ (∀ i s X t,
       Grammar.states (lr0_grammar_of r) !! i = Some s →
       X ∈ Grammar.terminals (lr0_grammar_of r) ∪ Grammar.non_terminals (lr0_grammar_of r) →
       Grammar.goto 5 (lr0_grammar_of r) s (Some X) = Ok t → t ≠ ∅ →
       ∃ j, lr0_transitions_of r !! (i, X) = Some j
            ∧ Grammar.states (lr0_grammar_of r) !! j = Some t).
Proof.
intros r.
assert (r = Ok (lr0_transitions_of r, lr0_grammar_of r)) as Hrun.
{ apply lr0_of_ok. vm_compute. reflexivity. }
exact (conj Hrun (build_lr0_states_transitions 5 g_conflict _ _ Hrun)).
Defined.

(** ** build_ll1_table: the table it returns *)

Section LL1Result.
Import Grammar.
Variable self : t.
Implicit Types table : ll1_t.

(** [ll1_table[head][terminal]] *)
Definition cell table (head terminal : string) : option (list string) :=
  getrow table head !! terminal.

(** The terminals under which [body] is entered in the row of [head]. *)
Definition predicts (head : string) (body : list string) (terminal : string) : Prop :=
  (terminal ∈ first_of_string self body ∧ terminal ≠ EPS)
  ∨ (EPS ∈ first_of_string self body ∧ terminal ∈ getset (follow self) (Some head)).

Lemma cell_setcell table head terminal body h x :
  cell (setcell table head terminal body) h x
  = if decide (head = h ∧ terminal = x) then Some body else cell table h x.
Proof.
unfold cell, setcell, getrow.
destruct (decide (head = h)) as [->|Hne].
- rewrite lookup_insert_eq. simpl.
  destruct (decide (terminal = x)) as [->|Hne'].
  + rewrite lookup_insert_eq. by rewrite decide_True.
  + rewrite lookup_insert_ne by done. rewrite decide_False; [done|]. by intros [_ ?].
- rewrite lookup_insert_ne by done. rewrite decide_False; [done|]. by intros [? _].
Qed.

(** [table'] has the cells of [table], and beyond them only cells that
    satisfy [new]. *)
Definition grows_by table table' (new : string → string → list string → Prop) : Prop :=
  (∀ h x v, cell table h x = Some v → cell table' h x = Some v)
  ∧ (∀ h x v, cell table' h x = Some v → cell table h x = Some v ∨ new h x v).

Lemma grows_by_refl table new : grows_by table table new.
Proof. split; [done|]. intros h x v ?. by left. Qed.

Lemma grows_by_trans table1 table2 table3 (new1 new2 new : string → string → list string → Prop) :
  (∀ h x v, new1 h x v → new h x v) → (∀ h x v, new2 h x v → new h x v) →
  grows_by table1 table2 new1 → grows_by table2 table3 new2 → grows_by table1 table3 new.
Proof.
intros H1 H2 [Hk1 Ho1] [Hk2 Ho2]. split.
- intros h x v ?. by apply Hk2, Hk1.
- intros h x v [Hc|?]%Ho2; [|right; by apply H2].
  apply Ho1 in Hc as [?|?]; [by left|right; by apply H1].
Qed.

Lemma ll1_put_cells head body table terminal table' :
  ll1_put head body (Some table) terminal = Some table' →
  cell table' head terminal = Some body
  ∧ grows_by table table' (λ h x v, h = head ∧ x = terminal ∧ v = body).
Proof.
unfold ll1_put. destruct (bool_decide _) eqn:E; [done|]. intros [= <-].
apply bool_decide_eq_false in E.
split; [rewrite cell_setcell; by rewrite decide_True|]. split.
- intros h x v Hc. rewrite cell_setcell. rewrite decide_False; [done|].
  intros [-> ->]. apply E. by eexists.
- intros h x v. rewrite cell_setcell.
  destruct (decide (head = h ∧ terminal = x)) as [[-> ->]|]; [|by left].
  intros [= <-]. by right.
Qed.

Lemma ll1_puts_cells head body l : ∀ table table',
  foldl (ll1_put head body) (Some table) l = Some table' →
  (∀ x, x ∈ l → cell table' head x = Some body)
  ∧ grows_by table table' (λ h x v, h = head ∧ x ∈ l ∧ v = body).
Proof.
induction l as [|a l IH]; intros table table'; cbn [foldl].
- intros [= <-]. split; [by intros x ?%elem_of_nil|apply grows_by_refl].
- destruct (ll1_put head body (Some table) a) as [table1|] eqn:E;
    [|by rewrite ll1_puts_None].
  apply ll1_put_cells in E as [Ha Hg1]. intros [Hl Hg2]%IH. split.
  + intros x [->|Hx]%elem_of_cons; [by apply Hg2|by apply Hl].
  + eapply grows_by_trans; [| |exact Hg1|exact Hg2]; simpl.
    * intros h x v (-> & -> & ->). repeat split. by left.
    * intros h x v (-> & ? & ->). repeat split. by right.
Qed.

Lemma ll1_body_cells head body table table' :
  ll1_body self head (Some table) body = Some table' →
  (∀ x, predicts head body x → cell table' head x = Some body)
  ∧ grows_by table table' (λ h x v, h = head ∧ v = body ∧ predicts head body x).
Proof.
unfold ll1_body, predicts.
destruct (foldl (ll1_put head body) (Some table)
            (elements (first_of_string self body ∖ {[EPS]}))) as [table1|] eqn:E1.
- apply ll1_puts_cells in E1 as [Hfirst Hg1].
  destruct (bool_decide (EPS ∈ first_of_string self body)) eqn:Eeps.
  + apply bool_decide_eq_true in Eeps. intros [Hfollow Hg2]%ll1_puts_cells. split.
    * intros x [[Hx Hne]|[_ Hx]].
      -- apply Hg2, Hfirst, elem_of_elements. set_solver.
      -- by apply Hfollow, elem_of_elements.
    * eapply grows_by_trans; [| |exact Hg1|exact Hg2]; simpl.
      -- intros h x v (-> & Hx%elem_of_elements & ->). repeat split. left. set_solver.
      -- intros h x v (-> & Hx%elem_of_elements & ->). repeat split. by right.
  + apply bool_decide_eq_false in Eeps. intros [= <-]. split.
    * intros x [[Hx Hne]|[? _]]; [|done]. apply Hfirst, elem_of_elements. set_solver.
    * eapply grows_by_trans; [| |exact Hg1|apply (grows_by_refl _ (λ _ _ _, False))];
        simpl; [|done].
      intros h x v (-> & Hx%elem_of_elements & ->). repeat split. left. set_solver.
- destruct (bool_decide (EPS ∈ first_of_string self body)); [|done].
  by rewrite ll1_puts_None.
Qed.

Lemma ll1_bodies_cells head bs : ∀ table table',
  foldl (ll1_body self head) (Some table) bs = Some table' →
  (∀ body x, body ∈ bs → predicts head body x → cell table' head x = Some body)
  ∧ grows_by table table' (λ h x v, h = head ∧ v ∈ bs ∧ predicts head v x).
Proof.
induction bs as [|body bs IH]; intros table table'; cbn [foldl].
- intros [= <-]. split; [by intros body x ?%elem_of_nil|apply grows_by_refl].
- destruct (ll1_body self head (Some table) body) as [table1|] eqn:E;
    [|by rewrite ll1_bodies_None].
  apply ll1_body_cells in E as [Hhere Hg1]. intros [Hrest Hg2]%IH. split.
  + intros b x [->|Hb]%elem_of_cons Hp; [by apply Hg2, Hhere|by apply Hrest].
  + eapply grows_by_trans; [| |exact Hg1|exact Hg2]; simpl.
    * intros h x v (-> & -> & ?). repeat split; [by left|done].
    * intros h x v (-> & ? & ?). repeat split; [by right|done].
Qed.

Lemma ll1_heads_None (l : prods_t) :
  foldl (λ acc '(head, prods), foldl (ll1_body self head) acc prods) None l = None.
Proof. induction l as [|[h bs] l IH]; [done|]. cbn [foldl]. by rewrite ll1_bodies_None. Qed.

Lemma ll1_heads_cells (l : prods_t) : ∀ table table',
  foldl (λ acc '(head, prods), foldl (ll1_body self head) acc prods) (Some table) l
    = Some table' →
  (∀ head bs body x, (head, bs) ∈ l → body ∈ bs → predicts head body x →
                     cell table' head x = Some body)
  ∧ grows_by table table'
      (λ h x v, ∃ bs, (h, bs) ∈ l ∧ v ∈ bs ∧ predicts h v x).
Proof.
induction l as [|[h0 bs0] l IH]; intros table table'; cbn [foldl].
- intros [= <-]. split; [by intros ???? ?%elem_of_nil|apply grows_by_refl].
- destruct (foldl (ll1_body self h0) (Some table) bs0) as [table1|] eqn:E;
    [|by rewrite ll1_heads_None].
  apply ll1_bodies_cells in E as [Hhere Hg1]. intros [Hrest Hg2]%IH. split.
  + intros head bs body x [[= -> ->]|Hin]%elem_of_cons Hb Hp.
    * by apply Hg2, Hhere.
    * by apply (Hrest head bs).
  + eapply grows_by_trans; [| |exact Hg1|exact Hg2]; simpl.
    * intros h x v (-> & ? & ?). exists bs0. split; [by left|done].
    * intros h x v (bs & ? & ? & ?). exists bs. split; [by right|done].
Qed.

End LL1Result.

(** X11. When [build_ll1_table] returns a table, each body of each head
    stands in the row of its head under every terminal it predicts (the
    members of FIRST of the body other than the epsilon marker, and the
    members of FOLLOW of the head when FIRST of the body has the epsilon
    marker); and the table has no other entries. *)
Theorem ll1_table_cells (fuel : nat) (g g' : Grammar.t) (table : Grammar.ll1_t) :
  Grammar.build_ll1_table fuel g = Ok (Some table, g') →
  (∀ head bs body x,
     (head, bs) ∈ Grammar.productions g' → body ∈ bs → predicts g' head body x →
     cell table head x = Some body)
  ∧ (∀ head x body,
       cell table head x = Some body →
       ∃ bs, (head, bs) ∈ Grammar.productions g' ∧ body ∈ bs ∧ predicts g' head body x).
Proof.
intros Hrun. pose proof (build_ll1_table_fill _ _ _ _ Hrun) as Hfill.
symmetry in Hfill. unfold Grammar.ll1_fill in Hfill.
apply ll1_heads_cells in Hfill as [Hcells [_ Horigin]]. split; [done|].
intros head x body Hc. destruct (Horigin head x body Hc) as [Hempty|?]; [|done].
unfold cell, getrow in Hempty. by rewrite lookup_empty in Hempty.
Qed.

(** What a run of [build_ll1_table] returned. *)
Definition ll1_table_of (r : run (option Grammar.ll1_t * Grammar.t)) : Grammar.ll1_t :=
  match r with Ok (Some table, _) => table | _ => ∅ end.

Definition ll1_succeeded (r : run (option Grammar.ll1_t * Grammar.t)) : bool :=
  match r with Ok (Some _, _) => true | _ => false end.

Lemma ll1_succeeded_inv r :
  ll1_succeeded r = true → r = Ok (Some (ll1_table_of r), ll1_built r).
Proof. by destruct r as [[[|] g]| |]. Qed.

(** [S -> A b], [A -> a | e] *)
Definition g_epsilon : Grammar.t := load [("S", "A b"); ("A", "a"); ("A", "e")].

Lemma ll1_table_cells_witness :
  let r := Grammar.build_ll1_table 3 g_epsilon in
  r = Ok (Some (ll1_table_of r), ll1_built r)
  ∧ (∀ head bs body x,
       (head, bs) ∈ Grammar.productions (ll1_built r) → body ∈ bs →
       predicts (ll1_built r) head body x →
       cell (ll1_table_of r) head x = Some body)
  ∧ (∀ head x body,
       cell (ll1_table_of r) head x = Some body →
       ∃ bs, (head, bs) ∈ Grammar.productions (ll1_built r) ∧ body ∈ bs
             ∧ predicts (ll1_built r) head body x).
Proof.
intros r.
assert (r = Ok (Some (ll1_table_of r), ll1_built r)) as Hrun.
{ apply ll1_succeeded_inv. vm_compute. reflexivity. }
exact (conj Hrun (ll1_table_cells 3 g_epsilon _ _ Hrun)).
Defined.

(** ** parse_ll1: the token index stays inside the input *)

Lemma ll1_turn_in_bounds (tokens : list string) (grammar : Grammar.t)
    (table : Grammar.ll1_t) (stack : list (option string)) (idx : nat) :
  idx ≤ length tokens →
  match ll1_turn (tokens ++ [EOF]) grammar table stack idx with
  | Ok (LL1Again _ idx') => idx' ≤ length tokens
  | Ok (LL1Return _) => True
  | _ => False
  end.
Proof.
intros Hidx. unfold ll1_turn. destruct stack as [|top stack]; [done|].
destruct ((tokens ++ [EOF]) !! idx) as [current|] eqn:Ecur.
- destruct (bool_decide (top = Some current)) eqn:Etop.
  + apply bool_decide_eq_true in Etop as ->.
    destruct (bool_decide (Some current = Some EOF)) eqn:Eeof; [done|].
    apply bool_decide_eq_false in Eeof.
    apply lookup_app_Some in Ecur as [Hin|[_ Hlast]].
    * apply lookup_lt_Some in Hin. lia.
    * apply list_lookup_singleton_Some in Hlast as [_ <-]. done.
  + destruct top as [t|]; [|done].
    destruct (negb _); [done|].
    destruct (getrow table t !! current) as [production|]; [|done].
    destruct (bool_decide (production ≠ [EPS])); exact Hidx.
- apply lookup_ge_None in Ecur. rewrite length_app in Ecur. simpl in Ecur. lia.
Qed.

Lemma ll1_loop_in_bounds (tokens : list string) (grammar : Grammar.t)
    (table : Grammar.ll1_t) (fuel : nat) : ∀ stack idx,
  idx ≤ length tokens →
  ll1_loop fuel (tokens ++ [EOF]) grammar table stack idx = OutOfFuel
  ∨ ∃ verdict, ll1_loop fuel (tokens ++ [EOF]) grammar table stack idx = Ok verdict.
Proof.
induction fuel as [|fuel IH]; intros stack idx Hidx; [by left|].
cbn [ll1_loop]. pose proof (ll1_turn_in_bounds tokens grammar table stack idx Hidx) as Hturn.
destruct (ll1_turn _ _ _ _ _) as [[stack' idx'|verdict]| |]; [|by right; eexists|done..].
rewrite bind_Ok_l. by apply IH.
Qed.

(** X12. [parse_ll1] raises no exception, whatever the tokens, the
    grammar and the table: [tokens[idx]] is always read inside the input
    with the end marker appended, because the index only moves past a
    token that is not the end marker, and [table[top]] is read on a
    [defaultdict]. A call either answers or is still running. *)
Theorem parse_ll1_never_raises (fuel : nat) (tokens : list string) (grammar : Grammar.t)
    (table : Grammar.ll1_t) :
  parse_ll1 fuel tokens grammar table = OutOfFuel
  ∨ ∃ verdict, parse_ll1 fuel tokens grammar table = Ok verdict.
Proof. unfold parse_ll1. apply ll1_loop_in_bounds. lia. Qed.

(** ** slr_parse on a grammar whose build failed *)

Lemma build_slr_tables_None fuel g g' printed :
  Grammar.build_slr_tables fuel g = Ok (None, g', printed) →
  Grammar.action_table g' = Plain ∅
  ∧ Grammar.goto_table g' = Plain ∅
  ∧ Grammar.has_slr_conflict g' = true.
Proof.
unfold Grammar.build_slr_tables. intros Hrun.
apply bind_Ok in Hrun as (g1 & _ & Hrun).
apply bind_Ok in Hrun as (g2 & _ & Hrun).
apply bind_Ok in Hrun as ([tr g3] & _ & Hrun).
apply bind_Ok in Hrun as ([aug g4] & _ & Hrun).
apply bind_Ok in Hrun as (st & _ & Hrun).
simpl in Hrun. destruct (Grammar.slr_conflict st); by inversion Hrun.
Qed.

(** X13. After a build that returned the failure signal, [slr_parse]
    on the grammar raises [KeyError] for every input: the action table
    is then a plain empty [dict], and the first turn of the loop reads
    its row 0. *)
Theorem slr_parse_after_failed_build (fuel : nat) (g g' : Grammar.t)
    (printed : list Grammar.conflict_t) (n : nat) (tokens : list string) :
  Grammar.build_slr_tables fuel g = Ok (None, g', printed) →
  slr_parse (S n) tokens g' = Raise KeyError.
Proof.
intros (Haction & _)%build_slr_tables_None.
unfold slr_parse. cbn [slr_loop]. unfold slr_turn.
destruct ((tokens ++ [EOF]) !! 0) as [current|] eqn:Ecur.
- by rewrite Haction.
- apply lookup_ge_None in Ecur. rewrite length_app in Ecur. simpl in Ecur. lia.
Qed.

Lemma slr_parse_after_failed_build_witness :
  let r := Grammar.build_slr_tables 6 g_ambiguous in
  r = Ok (None, built r, [(4, "+", shift 3)])
  ∧ slr_parse 1 ["id"; "+"; "id"] (built r) = Raise KeyError.
Proof.
intros r.
assert (r = Ok (None, built r, [(4, "+", shift 3)])) as Hrun.
{ apply slr_failed_with_inv. vm_compute. reflexivity. }
exact (conj Hrun
  (slr_parse_after_failed_build 6 g_ambiguous _ _ 0 ["id"; "+"; "id"] Hrun)).
Defined.

(** ** build_slr_tables: the conflict flag is never lowered *)

Lemma augmented_fields g aug g' :
  Grammar.augmented g = Ok (aug, g') →
  Grammar.has_slr_conflict g' = Grammar.has_slr_conflict g
  ∧ Grammar.states g' = Grammar.states g
  ∧ Grammar.start_symbol g' = Grammar.start_symbol g
  ∧ ∃ s, Grammar.start_symbol g = Some s ∧ Grammar.start_symbol aug = Some (s +:+ "'").
Proof.
intros Hrun.
destruct (Grammar.start_symbol g) as [s|] eqn:Es;
  [|unfold Grammar.augmented in Hrun; by rewrite Es in Hrun].
destruct (augmented_Some g s Es) as (aug0 & g0 & Haug & Hs1 & Hs2).
rewrite Haug in Hrun. injection Hrun as <- <-.
unfold Grammar.augmented in Haug. rewrite Es in Haug. injection Haug as _ <-.
split; [by destruct (Grammar.has_key _ _)|].
split; [by destruct (Grammar.has_key _ _)|].
split; [by destruct (Grammar.has_key _ _)|]. by exists s.
Qed.

Lemma calculate_first_flag fuel g g' :
  Grammar.calculate_first fuel g = Ok g' →
  Grammar.has_slr_conflict g' = Grammar.has_slr_conflict g.
Proof.
unfold Grammar.calculate_first.
destruct (while_changed _ _ _) as [f| |]; [|done..]. by intros [= <-].
Qed.

Lemma calculate_follow_flag fuel g g' :
  Grammar.calculate_follow fuel g = Ok g' →
  Grammar.has_slr_conflict g' = Grammar.has_slr_conflict g.
Proof.
unfold Grammar.calculate_follow.
destruct (while_changed _ _ _) as [f| |]; [|done..]. by intros [= <-].
Qed.

(** How a run of [build_slr_tables] that returns is made up. *)
Lemma build_slr_tables_inv fuel g r g' printed :
  Grammar.build_slr_tables fuel g = Ok (r, g', printed) →
  ∃ g2 transitions g3 aug g4 st,
    Grammar.build_lr0_states fuel g2 = Ok (transitions, g3)
    ∧ Grammar.augmented g3 = Ok (aug, g4)
    ∧ Grammar.has_slr_conflict g4 = Grammar.has_slr_conflict g
    ∧ Grammar.slr_states fuel g4 (Grammar.start_symbol aug) 0 (Grammar.states g4)
        (Ok (Grammar.mk_slr ∅ ∅ (Grammar.has_slr_conflict g4) [])) = Ok st
    ∧ printed = Grammar.slr_printed st
    ∧ (r, g') =
        if Grammar.slr_conflict st
        then (None,
              Grammar.with_tables (Plain ∅) (Plain ∅)
                (Grammar.with_has_slr_conflict true g4))
        else (Some (Grammar.slr_action st, Grammar.slr_goto st),
              Grammar.with_tables (Default (Grammar.slr_action st))
                (Default (Grammar.slr_goto st))
                (Grammar.with_has_slr_conflict false g4)).
Proof.
unfold Grammar.build_slr_tables. intros Hrun.
apply bind_Ok in Hrun as (g1 & Hfirst & Hrun).
apply bind_Ok in Hrun as (g2 & Hfollow & Hrun).
apply bind_Ok in Hrun as ([tr g3] & Hlr0 & Hrun).
apply bind_Ok in Hrun as ([aug g4] & Haug & Hrun).
apply bind_Ok in Hrun as (st & Htraverse & Hrun).
exists g2, tr, g3, aug, g4, st. split; [done|]. split; [done|]. split.
- destruct (augmented_fields _ _ _ Haug) as (-> & _).
  destruct (build_lr0_states_inv _ _ _ _ Hlr0)
    as (aug0 & g20 & s & c & st0 & Haug0 & _ & _ & _ & _ & ->).
  destruct (augmented_fields _ _ _ Haug0) as (Hflag & _). simpl. rewrite Hflag.
  rewrite (calculate_follow_flag _ _ _ Hfollow). by apply (calculate_first_flag fuel).
- split; [done|]. simpl in Hrun.
  destruct (Grammar.slr_conflict st); by inversion Hrun.
Qed.

(** The flag is up in whatever the traversal has reached. *)
Definition raised (acc : run Grammar.slr) : Prop :=
  ∀ st, acc = Ok st → Grammar.slr_conflict st = true.

Lemma put_action_raised idx new st a :
  Grammar.slr_conflict st = true →
  Grammar.slr_conflict (Grammar.put_action idx new st a) = true.
Proof.
intros Hst. unfold Grammar.put_action.
destruct (getrow (Grammar.slr_action st) idx !! a) as [old|]; simpl; [|done].
by destruct (bool_decide (old ≠ new)).
Qed.

Lemma slr_item_raised fuel g aug_start idx state acc item :
  raised acc → raised (Grammar.slr_item fuel g aug_start idx state acc item).
Proof.
intros Hacc. unfold Grammar.slr_item.
destruct acc as [st| |]; [|done..]. rewrite bind_Ok_l.
pose proof (Hacc st eq_refl) as Hst.
destruct (LR0Item.is_reduce_item item).
- destruct (bool_decide (Some (LR0Item.head item) = aug_start)).
  + by intros st' [= <-].
  + intros st' [= <-].
    apply (foldl_invariant (λ st0, Grammar.slr_conflict st0 = true)); [|done].
    intros st0 a _. apply put_action_raised.
- destruct (Grammar.goto fuel g state (LR0Item.next_symbol item)) as [target| |];
    [|done..]. rewrite bind_Ok_l.
  destruct (Grammar.index_of target (Grammar.states g)) as [tidx|]; [|by intros st' [= <-]].
  destruct (LR0Item.next_symbol item) as [a|].
  + destruct (bool_decide (a ∈ Grammar.terminals g)).
    * intros st' [= <-]. by apply put_action_raised.
    * by intros st' [= <-].
  + by intros st' [= <-].
Qed.

Lemma slr_states_raised fuel g aug_start l : ∀ idx acc,
  raised acc → raised (Grammar.slr_states fuel g aug_start idx l acc).
Proof.
induction l as [|state l IH]; intros idx acc Hacc; [done|]. simpl.
apply IH. apply (foldl_invariant raised); [|done].
intros acc' item _. apply slr_item_raised.
Qed.

(** X14. [build_slr_tables] never lowers [has_slr_conflict]: on a
    grammar whose flag is already up (a build on it has failed before),
    every build that returns gives the failure signal again and leaves
    the two tables as plain empty dictionaries. *)
Theorem build_slr_tables_flag_sticky (fuel : nat) (g g' : Grammar.t)
    (tables : option Grammar.slr_tables) (printed : list Grammar.conflict_t) :
  Grammar.has_slr_conflict g = true →
  Grammar.build_slr_tables fuel g = Ok (tables, g', printed) →
  tables = None
  ∧ Grammar.action_table g' = Plain ∅
  ∧ Grammar.goto_table g' = Plain ∅
  ∧ Grammar.has_slr_conflict g' = true.
Proof.
intros Hflag Hrun.
destruct (build_slr_tables_inv _ _ _ _ _ Hrun)
  as (g2 & tr & g3 & aug & g4 & st & _ & _ & Hflag4 & Htraverse & _ & Hres).
assert (Grammar.slr_conflict st = true) as Hst.
{ apply (slr_states_raised fuel g4 (Grammar.start_symbol aug) (Grammar.states g4) 0
           (Ok (Grammar.mk_slr ∅ ∅ (Grammar.has_slr_conflict g4) []))); [|done].
  intros st0 [= <-]. simpl. by rewrite Hflag4. }
rewrite Hst in Hres. by injection Hres as -> ->.
Qed.

(** What a run of [build_slr_tables] returned and printed. *)
Definition slr_tables_of
    (r : run (option Grammar.slr_tables * Grammar.t * list Grammar.conflict_t))
  : option Grammar.slr_tables :=
  match r with Ok (tables, _, _) => tables | _ => None end.

Definition slr_printed_of
    (r : run (option Grammar.slr_tables * Grammar.t * list Grammar.conflict_t))
  : list Grammar.conflict_t :=
  match r with Ok (_, _, printed) => printed | _ => [] end.

Lemma slr_of_ok r :
  returns r = true → r = Ok (slr_tables_of r, built r, slr_printed_of r).
Proof. by destruct r as [[[??]?]| |]. Qed.

Lemma build_slr_tables_flag_sticky_witness :
  let g := Grammar.add_production (built (Grammar.build_slr_tables 6 g_ambiguous)) "E" "( E )" in
  let r := Grammar.build_slr_tables 15 g in
  Grammar.has_slr_conflict g = true
  ∧ r = Ok (slr_tables_of r, built r, slr_printed_of r)
  ∧ slr_tables_of r = None
  ∧ Grammar.action_table (built r) = Plain ∅
  ∧ Grammar.goto_table (built r) = Plain ∅
  ∧ Grammar.has_slr_conflict (built r) = true.
Proof.
intros g r.
assert (Grammar.has_slr_conflict g = true) as Hflag by (vm_compute; reflexivity).
assert (r = Ok (slr_tables_of r, built r, slr_printed_of r)) as Hrun.
{ apply slr_of_ok. vm_compute. reflexivity. }
exact (conj Hflag (conj Hrun
  (build_slr_tables_flag_sticky 15 g _ _ _ Hflag Hrun))).
Defined.

(** ** build_slr_tables: where the entries of the tables come from *)

Lemma getrow_setcell {I K V} `{Countable I, Countable K}
    (m : gmap I (gmap K V)) (i : I) (k : K) (v : V) (i' : I) (k' : K) :
  getrow (setcell m i k v) i' !! k'
  = if decide (i = i' ∧ k = k') then Some v else getrow m i' !! k'.
Proof.
unfold setcell, getrow.
destruct (decide (i = i')) as [->|Hne].
- rewrite lookup_insert_eq. simpl.
  destruct (decide (k = k')) as [->|Hne'].
  + rewrite lookup_insert_eq. by rewrite decide_True.
  + rewrite lookup_insert_ne by done. rewrite decide_False; [done|]. by intros [_ ?].
- rewrite lookup_insert_ne by done. rewrite decide_False; [done|]. by intros [? _].
Qed.

Lemma index_of_Some target l : ∀ j,
  Grammar.index_of target l = Some j → l !! j = Some target.
Proof.
induction l as [|s l IH]; intros j; [done|]. simpl.
destruct (decide (s = target)) as [->|]; [by intros [= <-]|].
destruct (Grammar.index_of target l) as [k|]; [|done].
csimpl. intros [= <-]. by apply IH.
Qed.

Lemma index_of_None target l : Grammar.index_of target l = None → target ∉ l.
Proof.
induction l as [|s l IH]; [intros _ ?%elem_of_nil; done|]. simpl.
destruct (decide (s = target)) as [->|Hne]; [done|].
destruct (Grammar.index_of target l) as [k|]; [done|].
intros _ [?|?]%elem_of_cons; [done|by apply IH].
Qed.

Lemma index_of_NoDup target l j :
  NoDup l → l !! j = Some target → Grammar.index_of target l = Some j.
Proof.
intros Hnd Hj. destruct (Grammar.index_of target l) as [k|] eqn:E.
- apply index_of_Some in E. f_equal. by apply (NoDup_lookup l k j target).
- apply index_of_None in E. destruct E. apply list_elem_of_lookup. by exists j.
Qed.

Section SLRTables.
Import Grammar.
Variable self : t.
Variable fuel : nat.
Variable aug_start : option string.

(** [action[i][a]] and [goto[i][X]] *)
Definition action_cell (st : slr) (i : nat) (a : string) : option Action :=
  getrow (slr_action st) i !! a.
Definition goto_cell (st : slr) (i : nat) (X : option string) : option nat :=
  getrow (slr_goto st) i !! X.

(** The item of state [i] that accounts for the entry [act] under [a]. *)
Definition action_ok (i : nat) (a : string) (act : Action) : Prop :=
  ∃ state item,
    states self !! i = Some state ∧ item ∈ state ∧
    match act with
    | shift j =>
        LR0Item.is_reduce_item item = false
        ∧ LR0Item.next_symbol item = Some a
        ∧ a ∈ terminals self
        ∧ ∃ target, goto fuel self state (Some a) = Ok target
                    ∧ states self !! j = Some target
    | reduce h b =>
        item = LR0Item.mk h b (length b)
        ∧ Some h ≠ aug_start
        ∧ a ∈ getset (follow self) (Some h)
    | accept =>
        LR0Item.is_reduce_item item = true
        ∧ Some (LR0Item.head item) = aug_start
        ∧ a = EOF
    end.

(** The item of state [i] that accounts for the entry [j] under [X]. *)
Definition goto_ok (i : nat) (X : option string) (j : nat) : Prop :=
  ∃ state item target,
    states self !! i = Some state ∧ item ∈ state
    ∧ LR0Item.is_reduce_item item = false
    ∧ LR0Item.next_symbol item = X
    ∧ (∀ a, X = Some a → a ∉ terminals self)
    ∧ goto fuel self state X = Ok target
    ∧ states self !! j = Some target.

Definition entries_sound (acc : run slr) : Prop :=
  ∀ st, acc = Ok st →
    (∀ i a act, action_cell st i a = Some act → action_ok i a act)
    ∧ (∀ i X j, goto_cell st i X = Some j → goto_ok i X j).

Lemma put_action_cell idx new st a i a' :
  action_cell (put_action idx new st a) i a'
  = if decide (idx = i ∧ a = a') then Some new else action_cell st i a'.
Proof.
unfold put_action, action_cell.
destruct (getrow (slr_action st) idx !! a) as [old|];
  [destruct (bool_decide (old ≠ new))|]; simpl; apply getrow_setcell.
Qed.

Lemma put_action_goto idx new st a : slr_goto (put_action idx new st a) = slr_goto st.
Proof.
unfold put_action.
destruct (getrow (slr_action st) idx !! a) as [old|];
  [destruct (bool_decide (old ≠ new))|]; done.
Qed.

Lemma put_actions_goto idx new l : ∀ st,
  slr_goto (foldl (put_action idx new) st l) = slr_goto st.
Proof.
induction l as [|a l IH]; intros st; [done|]. cbn [foldl].
by rewrite IH, put_action_goto.
Qed.

Lemma put_actions_cell idx new l : ∀ st i a',
  action_cell (foldl (put_action idx new) st l) i a'
  = if decide (idx = i ∧ a' ∈ l) then Some new else action_cell st i a'.
Proof.
induction l as [|a l IH]; intros st i a'; cbn [foldl].
- rewrite decide_False; [done|]. by intros [_ ?%elem_of_nil].
- rewrite IH, put_action_cell.
  destruct (decide (idx = i ∧ a' ∈ l)) as [[-> Hin]|Hout].
  + rewrite decide_True; [done|]. split; [done|by right].
  + destruct (decide (idx = i ∧ a = a')) as [[-> ->]|Hne].
    * rewrite decide_True; [done|]. split; [done|by left].
    * rewrite decide_False; [done|].
      intros [-> [->|?]%elem_of_cons]; [by apply Hne|by apply Hout].
Qed.

Lemma is_reduce_item_mk item :
  LR0Item.is_reduce_item item = true →
  item = LR0Item.mk (LR0Item.head item) (LR0Item.body item) (length (LR0Item.body item)).
Proof.
unfold LR0Item.is_reduce_item. intros ?%bool_decide_eq_true.
destruct item as [h b d]. simpl in *. by subst.
Qed.

Lemma slr_item_sound idx state acc item :
  states self !! idx = Some state → item ∈ state →
  entries_sound acc → entries_sound (slr_item fuel self aug_start idx state acc item).
Proof.
intros Hidx Hitem Hacc. unfold slr_item.
destruct acc as [st| |]; [|done..]. rewrite bind_Ok_l.
destruct (Hacc st eq_refl) as [HA HG].
destruct (LR0Item.is_reduce_item item) eqn:Ered.
- destruct (bool_decide (Some (LR0Item.head item) = aug_start)) eqn:Eaug.
  + apply bool_decide_eq_true in Eaug. intros st' [= <-]. split; [|done].
    intros i a act. unfold action_cell. simpl. rewrite getrow_setcell.
    destruct (decide (idx = i ∧ EOF = a)) as [[<- <-]|]; [|apply HA].
    intros [= <-]. by exists state, item.
  + apply bool_decide_eq_false in Eaug. intros st' [= <-]. split.
    * intros i a act. rewrite put_actions_cell.
      destruct (decide (idx = i ∧ _)) as [[<- Hin%elem_of_elements]|]; [|apply HA].
      intros [= <-]. exists state, item. split; [done|]. split; [done|].
      split; [by apply is_reduce_item_mk|done].
    * intros i X j. unfold goto_cell. rewrite put_actions_goto. apply HG.
- destruct (goto fuel self state (LR0Item.next_symbol item)) as [target| |] eqn:Egoto;
    [|done..]. rewrite bind_Ok_l.
  destruct (index_of target (states self)) as [tidx|] eqn:Etidx; [|by intros st' [= <-]].
  apply index_of_Some in Etidx.
  assert (∀ st', mk_slr (slr_action st)
                   (setcell (slr_goto st) idx (LR0Item.next_symbol item) tidx)
                   (slr_conflict st) (slr_printed st) = st' →
                 (∀ a, LR0Item.next_symbol item = Some a → a ∉ terminals self) →
                 (∀ i a act, action_cell st' i a = Some act → action_ok i a act)
                 ∧ (∀ i X j, goto_cell st' i X = Some j → goto_ok i X j)) as Hgoto.
  { intros st' <- Hnot. split; [done|].
    intros i X j. unfold goto_cell. simpl. rewrite getrow_setcell.
    destruct (decide (idx = i ∧ _)) as [[<- <-]|]; [|apply HG].
    intros [= <-]. by exists state, item, target. }
  destruct (LR0Item.next_symbol item) as [a|] eqn:Enext.
  + destruct (bool_decide (a ∈ terminals self)) eqn:Eterm.
    * apply bool_decide_eq_true in Eterm. intros st' [= <-]. split.
      -- intros i a' act. rewrite put_action_cell.
         destruct (decide (idx = i ∧ a = a')) as [[<- <-]|]; [|apply HA].
         intros [= <-]. exists state, item. split; [done|]. split; [done|].
         split; [done|]. split; [done|]. split; [done|]. by exists target.
      -- intros i X j. unfold goto_cell. rewrite put_action_goto. apply HG.
    * apply bool_decide_eq_false in Eterm. intros st' [= <-].
      apply Hgoto; [done|]. by intros ? [= <-].
  + intros st' [= <-]. by apply Hgoto.
Qed.

Lemma slr_states_sound l : ∀ idx acc,
  (∀ k s, l !! k = Some s → states self !! (idx + k) = Some s) →
  entries_sound acc → entries_sound (slr_states fuel self aug_start idx l acc).
Proof.
induction l as [|state l IH]; intros idx acc Hl Hacc; [done|]. simpl.
apply IH.
- intros k s Hk. replace (S idx + k) with (idx + S k) by lia. by apply Hl.
- apply (foldl_invariant entries_sound); [|done].
  intros acc' item Hitem%elem_of_elements. apply slr_item_sound; [|done].
  rewrite <- (Nat.add_0_r idx). by apply Hl.
Qed.

End SLRTables.

(** [S'] for the start symbol [S]. *)
Definition primed (start : option string) : option string :=
  (λ s, s +:+ "'") <$> start.

(** X15. Every entry of the tables that [build_slr_tables] returns is
    accounted for by an item of its state: a shift to [j] under [a] by
    an item with the terminal [a] after the dot, [j] being the number of
    [goto] of the state over [a]; a reduce by [h -> b] under [a] by the
    item of that production with the dot at the end, [a] being in
    FOLLOW of [h]; an accept by a complete item of the primed start
    symbol, and only under the end marker; a goto entry [j] under [X]
    by an item with [X], not a terminal, after the dot, [j] being the
    number of [goto] of the state over [X]. *)
Theorem slr_tables_sound (fuel : nat) (g g' : Grammar.t)
    (action : gmap nat (gmap string Action))
    (goto : gmap nat (gmap (option string) nat))
    (printed : list Grammar.conflict_t) :
  Grammar.build_slr_tables fuel g = Ok (Some (action, goto), g', printed) →
  (∀ i a act, getrow action i !! a = Some act →
              action_ok g' fuel (primed (Grammar.start_symbol g')) i a act)
  ∧ (∀ i X j, getrow goto i !! X = Some j → goto_ok g' fuel i X j).
Proof.
intros Hrun.
destruct (build_slr_tables_inv _ _ _ _ _ Hrun)
  as (g2 & tr & g3 & aug & g4 & st & _ & Haug & _ & Htraverse & _ & Hres).
destruct (Grammar.slr_conflict st); [done|]. injection Hres as -> -> ->.
destruct (augmented_fields _ _ _ Haug) as (_ & _ & Hstart & s & Hs & Haugs).
assert (Grammar.start_symbol aug = primed (Grammar.start_symbol g4)) as Hprimed.
{ by rewrite Hstart, Hs, Haugs. }
rewrite Hprimed in Htraverse.
assert (entries_sound g4 fuel (primed (Grammar.start_symbol g4))
          (Ok (Grammar.mk_slr ∅ ∅ (Grammar.has_slr_conflict g4) []))) as Hinit.
{ intros st0 [= <-]. split.
  - intros i a act. unfold action_cell, getrow. simpl. by rewrite lookup_empty.
  - intros i X j. unfold goto_cell, getrow. simpl. by rewrite lookup_empty. }
exact (slr_states_sound g4 fuel _ (Grammar.states g4) 0 _ (λ k s Hk, Hk) Hinit st Htraverse).
Qed.

(** The tables of a build that returned them. *)
Definition slr_action_of
    (r : run (option Grammar.slr_tables * Grammar.t * list Grammar.conflict_t))
  : gmap nat (gmap string Action) :=
  match r with Ok (Some (action, _), _, _) => action | _ => ∅ end.

Definition slr_goto_of
    (r : run (option Grammar.slr_tables * Grammar.t * list Grammar.conflict_t))
  : gmap nat (gmap (option string) nat) :=
  match r with Ok (Some (_, goto), _, _) => goto | _ => ∅ end.

Definition slr_succeeded
    (r : run (option Grammar.slr_tables * Grammar.t * list Grammar.conflict_t)) : bool :=
  match r with Ok (Some _, _, _) => true | _ => false end.

Lemma slr_succeeded_inv r :
  slr_succeeded r = true →
  r = Ok (Some (slr_action_of r, slr_goto_of r), built r, slr_printed_of r).
Proof. by destruct r as [[[[[??]|]?]?]| |]. Qed.

Lemma slr_tables_sound_witness :
  let r := Grammar.build_slr_tables 13 g_arith in
  r = Ok (Some (slr_action_of r, slr_goto_of r), built r, slr_printed_of r)
  ∧ (∀ i a act, getrow (slr_action_of r) i !! a = Some act →
                action_ok (built r) 13 (primed (Grammar.start_symbol (built r))) i a act)
  ∧ (∀ i X j, getrow (slr_goto_of r) i !! X = Some j → goto_ok (built r) 13 i X j).
Proof.
intros r.
assert (r = Ok (Some (slr_action_of r, slr_goto_of r), built r, slr_printed_of r)) as Hrun.
{ apply slr_succeeded_inv. vm_compute. reflexivity. }
exact (conj Hrun (slr_tables_sound 13 g_arith _ _ _ _ Hrun)).
Defined.

(** ** build_slr_tables: what a build without conflicts has entered *)

Section SLRComplete.
Import Grammar.
Variable self : t.
Variable fuel : nat.
Variable aug_start : option string.
Hypothesis states_NoDup : NoDup (states self).

Implicit Types action : gmap nat (gmap string Action).
Implicit Types goto_t : gmap nat (gmap (option string) nat).

(** [action[i][a]] is [act], unless the unguarded write of an accept
    has replaced it. *)
Definition action_set action (i : nat) (a : string) (act : Action) : Prop :=
  getrow action i !! a = Some act ∨ (a = EOF ∧ getrow action i !! a = Some accept).

(** What the tables hold on account of [item] of state number [i]. *)
Definition entered action goto_t (i : nat) (state : State) (item : Item) : Prop :=
  if LR0Item.is_reduce_item item then
    if bool_decide (Some (LR0Item.head item) = aug_start)
    then getrow action i !! EOF = Some accept
    else ∀ a, a ∈ getset (follow self) (Some (LR0Item.head item)) →
              action_set action i a (reduce (LR0Item.head item) (LR0Item.body item))
  else
    ∀ target tidx,
      goto fuel self state (LR0Item.next_symbol item) = Ok target →
      states self !! tidx = Some target →
      match LR0Item.next_symbol item with
      | Some a =>
          if bool_decide (a ∈ terminals self)
          then action_set action i a (shift tidx)
          else getrow goto_t i !! Some a = Some tidx
      | None => getrow goto_t i !! None = Some tidx
      end.

(** The entries that [st] holds for good reason are still in [st']. *)
Definition keeps (st st' : slr) : Prop :=
  (∀ i a act, action_set (slr_action st) i a act → action_set (slr_action st') i a act)
  ∧ (∀ i state X target j,
       states self !! i = Some state → goto fuel self state X = Ok target →
       states self !! j = Some target →
       getrow (slr_goto st) i !! X = Some j → getrow (slr_goto st') i !! X = Some j).

Lemma keeps_refl st : keeps st st.
Proof. by split. Qed.

Lemma keeps_trans st1 st2 st3 : keeps st1 st2 → keeps st2 st3 → keeps st1 st3.
Proof.
intros [HA1 HG1] [HA2 HG2]. split.
- intros i a act ?. by apply HA2, HA1.
- intros i state X target j Hi Hgoto Hj ?.
  apply (HG2 i state X target j); [done..|]. by apply (HG1 i state X target j).
Qed.

Lemma entered_keeps st st' i state item :
  keeps st st' → states self !! i = Some state →
  entered (slr_action st) (slr_goto st) i state item →
  entered (slr_action st') (slr_goto st') i state item.
Proof.
intros [HA HG] Hi. unfold entered.
destruct (LR0Item.is_reduce_item item).
- destruct (bool_decide _).
  + intros Hacc. destruct (HA i EOF accept (or_introl Hacc)) as [?|[_ ?]]; done.
  + intros Hred a Ha. by apply HA, Hred.
- intros Hent target tidx Hgoto Htidx. specialize (Hent target tidx Hgoto Htidx).
  destruct (LR0Item.next_symbol item) as [a|].
  + destruct (bool_decide _); [by apply HA|]. by apply (HG i state (Some a) target tidx).
  + by apply (HG i state None target tidx).
Qed.

Lemma put_action_flag idx new st a :
  slr_conflict (put_action idx new st a) = false →
  slr_conflict st = false ∧ ∀ old, action_cell st idx a = Some old → old = new.
Proof.
unfold put_action, action_cell.
destruct (getrow (slr_action st) idx !! a) as [old|]; [|by intros ?].
destruct (bool_decide (old ≠ new)) eqn:E; simpl; [done|].
apply bool_decide_eq_false in E. intros Hflag. split; [done|]. intros old' [= <-].
by destruct (decide (old = new)).
Qed.

Lemma put_action_quiet idx new st a :
  new ≠ accept →
  slr_conflict (put_action idx new st a) = false →
  slr_conflict st = false
  ∧ (∀ i a' act, action_set (slr_action st) i a' act →
                 action_set (slr_action (put_action idx new st a)) i a' act).
Proof.
intros Hnew [Hflag Hold]%put_action_flag. split; [done|].
intros i a' act. unfold action_set.
pose proof (put_action_cell idx new st a i a') as Hcell. unfold action_cell in Hcell, Hold.
rewrite Hcell.
destruct (decide (idx = i ∧ a = a')) as [[<- <-]|]; [|done].
intros [Hact|[_ Hacc]].
- left. f_equal. symmetry. by apply Hold.
- destruct Hnew. symmetry. by apply Hold.
Qed.

Lemma put_actions_quiet idx new l :
  new ≠ accept → ∀ st,
  slr_conflict (foldl (put_action idx new) st l) = false →
  slr_conflict st = false
  ∧ (∀ i a' act, action_set (slr_action st) i a' act →
                 action_set (slr_action (foldl (put_action idx new) st l)) i a' act).
Proof.
intros Hnew. induction l as [|a l IH]; intros st; cbn [foldl]; [done|].
intros [Hflag1 Hkeep1]%IH. apply (put_action_quiet idx new st a Hnew) in Hflag1 as [Hflag Hkeep].
split; [done|]. intros i a' act ?. by apply Hkeep1, Hkeep.
Qed.

Lemma slr_item_quiet idx state st item st' :
  states self !! idx = Some state →
  slr_item fuel self aug_start idx state (Ok st) item = Ok st' →
  slr_conflict st' = false →
  slr_conflict st = false
  ∧ keeps st st'
  ∧ entered (slr_action st') (slr_goto st') idx state item.
Proof.
intros Hidx. unfold slr_item, entered. rewrite bind_Ok_l.
destruct (LR0Item.is_reduce_item item) eqn:Ered.
- destruct (bool_decide (Some (LR0Item.head item) = aug_start)) eqn:Eaug.
  + intros [= <-]. simpl. intros Hflag. split; [done|]. split; [split; [|done]|].
    * intros i a act. unfold action_set. simpl. rewrite getrow_setcell.
      destruct (decide (idx = i ∧ EOF = a)) as [[<- <-]|]; [|done].
      intros _. by right.
    * rewrite getrow_setcell. by rewrite decide_True.
  + intros [= <-] Hflag.
    apply put_actions_quiet in Hflag as [Hflag Hkeep]; [|done].
    split; [done|]. split; [split; [done|]|].
    * intros i state' X target j _ _ _. by rewrite put_actions_goto.
    * intros a Ha%elem_of_elements. left.
      pose proof (put_actions_cell idx
        (reduce (LR0Item.head item) (LR0Item.body item))
        (elements (getset (follow self) (Some (LR0Item.head item)))) st idx a) as Hcell.
      unfold action_cell in Hcell. rewrite Hcell. by rewrite decide_True.
- destruct (goto fuel self state (LR0Item.next_symbol item)) as [target| |] eqn:Egoto;
    [|done..]. rewrite bind_Ok_l.
  destruct (index_of target (states self)) as [tidx|] eqn:Etidx.
  2:{ intros [= <-] Hflag. split; [done|]. split; [apply keeps_refl|].
      intros target' tidx' [= <-] Htidx'. apply index_of_None in Etidx.
      destruct Etidx. apply list_elem_of_lookup. by exists tidx'. }
  apply index_of_Some in Etidx.
  assert (∀ target' tidx', Ok target = Ok target' → states self !! tidx' = Some target' →
                           tidx' = tidx) as Hsame.
  { intros target' tidx' [= <-] Htidx'.
    by apply (NoDup_lookup (states self) tidx' tidx target). }
  assert (∀ st1, mk_slr (slr_action st)
                   (setcell (slr_goto st) idx (LR0Item.next_symbol item) tidx)
                   (slr_conflict st) (slr_printed st) = st1 →
                 slr_conflict st1 = false →
                 slr_conflict st = false ∧ keeps st st1
                 ∧ getrow (slr_goto st1) idx !! LR0Item.next_symbol item = Some tidx)
    as Hwrite.
  { intros st1 <- Hflag. simpl. split; [done|]. split; [split; [done|]|].
    - intros i state' X target' j Hi Hgoto' Hj. simpl. rewrite getrow_setcell.
      destruct (decide (idx = i ∧ _)) as [[<- <-]|]; [|done].
      intros _. f_equal. symmetry. apply (Hsame target'); [|done].
      rewrite Hidx in Hi. injection Hi as <-. by rewrite <- Egoto, <- Hgoto'.
    - rewrite getrow_setcell. by rewrite decide_True. }
  destruct (LR0Item.next_symbol item) as [a|] eqn:Enext.
  + destruct (bool_decide (a ∈ terminals self)) eqn:Eterm.
    * intros [= <-] Hflag.
      apply put_action_quiet in Hflag as [Hflag Hkeep]; [|done].
      split; [done|]. split; [split; [done|]|].
      -- intros i state' X target' j _ _ _. by rewrite put_action_goto.
      -- intros target' tidx' Htarget' Htidx'.
         rewrite (Hsame target' tidx' Htarget' Htidx'). left.
         pose proof (put_action_cell idx (shift tidx) st a idx a) as Hcell.
         unfold action_cell in Hcell. rewrite Hcell. by rewrite decide_True.
    * intros [= Hst'] Hflag. destruct (Hwrite st' Hst' Hflag)
        as (Hflag0 & Hkeeps & Hcell).
      split; [done|]. split; [done|].
      intros target' tidx' Htarget' Htidx'.
      by rewrite (Hsame target' tidx' Htarget' Htidx').
  + intros [= Hst'] Hflag. destruct (Hwrite st' Hst' Hflag)
      as (Hflag0 & Hkeeps & Hcell).
    split; [done|]. split; [done|].
    intros target' tidx' Htarget' Htidx'.
    by rewrite (Hsame target' tidx' Htarget' Htidx').
Qed.

End SLRComplete.

Section SLRTraversal.
Import Grammar.
Variable self : t.
Variable fuel : nat.
Variable aug_start : option string.
Hypothesis states_NoDup : NoDup (states self).

Lemma slr_item_fails idx state acc item :
  (∀ st, acc ≠ Ok st) → ∀ st, slr_item fuel self aug_start idx state acc item ≠ Ok st.
Proof. intros Hacc st. unfold slr_item. destruct acc as [st0| |]; [|done..]. by destruct (Hacc st0). Qed.

Lemma slr_items_fail idx state l : ∀ acc,
  (∀ st, acc ≠ Ok st) →
  ∀ st, foldl (slr_item fuel self aug_start idx state) acc l ≠ Ok st.
Proof.
induction l as [|item l IH]; intros acc Hacc; [done|]. cbn [foldl].
apply IH. by apply slr_item_fails.
Qed.

Lemma slr_states_fail l : ∀ idx acc,
  (∀ st, acc ≠ Ok st) → ∀ st, slr_states fuel self aug_start idx l acc ≠ Ok st.
Proof.
induction l as [|state l IH]; intros idx acc Hacc; [done|]. simpl.
apply IH. by apply slr_items_fail.
Qed.

(** The turns of [for item in state] over the items [l]. *)
Lemma slr_items_quiet idx state l : ∀ st st',
  states self !! idx = Some state →
  foldl (slr_item fuel self aug_start idx state) (Ok st) l = Ok st' →
  slr_conflict st' = false →
  slr_conflict st = false
  ∧ keeps self fuel st st'
  ∧ ∀ item, item ∈ l →
      entered self fuel aug_start (slr_action st') (slr_goto st') idx state item.
Proof.
induction l as [|item l IH]; intros st st' Hidx; cbn [foldl].
- intros [= <-] Hflag. split; [done|]. split; [apply keeps_refl|].
  by intros item ?%elem_of_nil.
- destruct (slr_item fuel self aug_start idx state (Ok st) item) as [st1| |] eqn:Estep.
  2,3: (intros Hrun; by apply slr_items_fail in Hrun).
  intros Hrun Hflag.
  destruct (IH st1 st' Hidx Hrun Hflag) as (Hflag1 & Hkeeps1 & Hrest).
  destruct (slr_item_quiet self fuel aug_start states_NoDup idx state st item st1
              Hidx Estep Hflag1) as (Hflag0 & Hkeeps0 & Hitem).
  split; [done|]. split; [by apply (keeps_trans self fuel st st1 st')|].
  intros x [->|Hx]%elem_of_cons; [|by apply Hrest].
  by apply (entered_keeps self fuel aug_start st1 st').
Qed.

(** The turns of [for idx, state in enumerate(self.states)] over the
    states [l], numbered from [idx] on. *)
Lemma slr_states_quiet l : ∀ idx st st',
  (∀ k s, l !! k = Some s → states self !! (idx + k) = Some s) →
  slr_states fuel self aug_start idx l (Ok st) = Ok st' →
  slr_conflict st' = false →
  slr_conflict st = false
  ∧ keeps self fuel st st'
  ∧ ∀ k s item, l !! k = Some s → item ∈ s →
      entered self fuel aug_start (slr_action st') (slr_goto st') (idx + k) s item.
Proof.
induction l as [|state l IH]; intros idx st st' Hl; simpl.
- intros [= <-] Hflag. split; [done|]. split; [apply keeps_refl|]. done.
- destruct (foldl (slr_item fuel self aug_start idx state) (Ok st) (elements state))
    as [st1| |] eqn:Eitems.
  2,3: (intros Hrun; by apply slr_states_fail in Hrun).
  intros Hrun Hflag.
  assert (states self !! idx = Some state) as Hidx.
  { rewrite <- (Nat.add_0_r idx). by apply Hl. }
  assert (∀ k s, l !! k = Some s → states self !! (S idx + k) = Some s) as Hl'.
  { intros k s Hk. replace (S idx + k) with (idx + S k) by lia. by apply Hl. }
  destruct (IH (S idx) st1 st' Hl' Hrun Hflag) as (Hflag1 & Hkeeps1 & Hrest).
  destruct (slr_items_quiet idx state _ st st1 Hidx Eitems Hflag1)
    as (Hflag0 & Hkeeps0 & Hhere).
  split; [done|]. split; [by apply (keeps_trans self fuel st st1 st')|].
  intros [|k] s item Hk Hitem.
  + simpl in Hk. injection Hk as <-. rewrite Nat.add_0_r.
    apply (entered_keeps self fuel aug_start st1 st'); [done..|].
    by apply Hhere, elem_of_elements.
  + replace (idx + S k) with (S idx + k) by lia. by apply Hrest.
Qed.

End SLRTraversal.

(** X16. In the tables that [build_slr_tables] returns, every item of
    every state has its entry. For a complete item of the primed start
    symbol the row of the state has accept under the end marker. For
    any other complete item [h -> b .] the row has the reduce by
    [h -> b] under each member of FOLLOW of [h]. For an item with a
    symbol [a] after the dot, [goto] of the state over [a] being state
    number [tidx], the row has the shift to [tidx] under [a] when [a] is
    a terminal, and the goto table has [tidx] under [a] otherwise.
    (An action entry under the end marker may hold accept instead:
    that write is not guarded.) *)
Theorem slr_tables_complete (fuel : nat) (g g' : Grammar.t)
    (action : gmap nat (gmap string Action))
    (goto : gmap nat (gmap (option string) nat))
    (printed : list Grammar.conflict_t) :
  Grammar.build_slr_tables fuel g = Ok (Some (action, goto), g', printed) →
  ∀ i state item,
    Grammar.states g' !! i = Some state → item ∈ state →
    entered g' fuel (primed (Grammar.start_symbol g')) action goto i state item.
Proof.
intros Hrun.
destruct (build_slr_tables_inv _ _ _ _ _ Hrun)
  as (g2 & tr & g3 & aug & g4 & st & Hlr0 & Haug & _ & Htraverse & _ & Hres).
destruct (Grammar.slr_conflict st) eqn:Hflag; [done|]. injection Hres as -> -> ->.
destruct (augmented_fields _ _ _ Haug) as (_ & Hstates & Hstart & s & Hs & Haugs).
assert (Grammar.start_symbol aug = primed (Grammar.start_symbol g4)) as Hprimed.
{ by rewrite Hstart, Hs, Haugs. }
rewrite Hprimed in Htraverse.
assert (NoDup (Grammar.states g4)) as Hnd.
{ rewrite Hstates.
  destruct (build_lr0_states_sound _ _ _ _ Hlr0)
    as (aug0 & g1 & s0 & c & st0 & _ & _ & _ & _ & -> & (Hnd & _) & _). done. }
destruct (slr_states_quiet g4 fuel (primed (Grammar.start_symbol g4)) Hnd
            (Grammar.states g4) 0 _ st (λ k s Hk, Hk) Htraverse Hflag)
  as (_ & _ & Hentered).
intros i state item Hi Hitem. exact (Hentered i state item Hi Hitem).
Qed.

Lemma slr_tables_complete_witness :
  let r := Grammar.build_slr_tables 13 g_arith in
  r = Ok (Some (slr_action_of r, slr_goto_of r), built r, slr_printed_of r)
  ∧ ∀ i state item,
      Grammar.states (built r) !! i = Some state → item ∈ state →
      entered (built r) 13 (primed (Grammar.start_symbol (built r)))
        (slr_action_of r) (slr_goto_of r) i state item.
Proof.
intros r.
assert (r = Ok (Some (slr_action_of r, slr_goto_of r), built r, slr_printed_of r)) as Hrun.
{ apply slr_succeeded_inv. vm_compute. reflexivity. }
exact (conj Hrun (slr_tables_complete 13 g_arith _ _ _ _ Hrun)).
Defined.

(** ** main: the text of an alternative *)

(** No character of [s] is white space. *)
Fixpoint spaceless (s : string) : bool :=
  match s with
  | EmptyString => true
  | String c s' => negb (Py.is_space c) && spaceless s'
  end.

(** A symbol as [split] yields them. *)
Definition clean_symbol (w : string) : Prop := w ≠ EmptyString ∧ spaceless w = true.

Lemma split_from_lstrip s : Py.split_from [] (Py.lstrip s) = Py.split_from [] s.
Proof.
induction s as [|c s IH]; [done|]. simpl.
destruct (Py.is_space c) eqn:E; [done|]. simpl. by rewrite E.
Qed.

Lemma split_from_rstrip s : ∀ word, Py.split_from word (Py.rstrip s) = Py.split_from word s.
Proof.
induction s as [|c s IH]; intros word; [done|]. cbn [Py.rstrip].
destruct (Py.rstrip s) as [|d r] eqn:Er.
- destruct (Py.is_space c) eqn:Ec.
  + cbn [Py.split_from]. rewrite Ec, <- (IH []). by destruct word.
  + cbn [Py.split_from]. rewrite Ec. by rewrite <- IH.
- cbn [Py.split_from]. destruct (Py.is_space c); by rewrite <- !IH.
Qed.

Lemma split_strip s : Py.split (Py.strip s) = Py.split s.
Proof. unfold Py.split, Py.strip. by rewrite split_from_rstrip, split_from_lstrip. Qed.

Lemma split_from_word w : ∀ word s,
  spaceless w = true →
  Py.split_from word (w +:+ s) = Py.split_from (rev (String.list_ascii_of_string w) ++ word) s.
Proof.
induction w as [|c w IH]; intros word s; [done|]. simpl.
intros [Hc Hw]%andb_prop. apply negb_true_iff in Hc. rewrite Hc.
rewrite IH by done. by rewrite <- app_assoc.
Qed.

Lemma append_empty_r (w : string) : w +:+ EmptyString = w.
Proof.
induction w as [|c w IH]; [done|].
change (String c (w +:+ EmptyString) = String c w). by rewrite IH.
Qed.

Lemma split_from_flush (chars : list ascii) :
  chars ≠ [] →
  Py.split_from chars EmptyString = [String.string_of_list_ascii (rev chars)].
Proof. by destruct chars. Qed.

Lemma chars_of_clean w : clean_symbol w → rev (String.list_ascii_of_string w) ≠ [].
Proof.
intros [Hne _]. destruct w as [|c w]; [done|]. simpl.
intros Heq. by apply app_eq_nil in Heq as [_ ?].
Qed.

Lemma split_join (ws : list string) :
  Forall clean_symbol ws → Py.split (Py.join " " ws) = ws.
Proof.
unfold Py.split. induction 1 as [|w ws Hw Hws IH]; [done|].
pose proof (chars_of_clean w Hw) as Hchars. destruct Hw as [_ Hw].
cbn [Py.join]. destruct ws as [|w' ws].
- replace (Py.split_from [] w) with (Py.split_from [] (w +:+ EmptyString))
    by (by rewrite append_empty_r).
  rewrite split_from_word, app_nil_r by done.
  rewrite split_from_flush by done.
  by rewrite rev_involutive, String.string_of_list_ascii_of_string.
- rewrite split_from_word, app_nil_r by done.
  change (" " +:+ Py.join " " (w' :: ws)) with (String " " (Py.join " " (w' :: ws))).
  cbn [Py.split_from].
  change (Py.is_space " ") with true. cbv iota.
  destruct (rev (String.list_ascii_of_string w)) as [|c l] eqn:E; [done|].
  rewrite <- E, rev_involutive, String.string_of_list_ascii_of_string. by rewrite IH.
Qed.

Lemma clean_of_chars (chars : list ascii) :
  chars ≠ [] → Forall (λ c, Py.is_space c = false) chars →
  clean_symbol (String.string_of_list_ascii chars).
Proof.
intros Hne Hall. split; [by destruct chars|].
clear Hne. induction Hall as [|c l Hc _ IH]; [done|]. simpl. by rewrite Hc, IH.
Qed.

Lemma split_from_clean s : ∀ word,
  Forall (λ c, Py.is_space c = false) word →
  Forall clean_symbol (Py.split_from word s).
Proof.
assert (∀ word, word ≠ [] → Forall (λ c, Py.is_space c = false) word →
                clean_symbol (String.string_of_list_ascii (rev word))) as Hword.
{ intros word Hne Hall. apply clean_of_chars.
  - intros Heq. apply Hne. by rewrite <- (rev_involutive word), Heq.
  - by apply Forall_rev. }
induction s as [|c s IH]; intros word Hall; cbn [Py.split_from].
- destruct word as [|c l]; [done|]. apply Forall_singleton. by apply Hword.
- destruct (Py.is_space c) eqn:Ec.
  + destruct word as [|d l]; [by apply IH|]. apply Forall_cons.
    split; [by apply Hword|by apply IH].
  + apply IH. by apply Forall_cons.
Qed.

Lemma split_clean s : Forall clean_symbol (Py.split s).
Proof. by apply split_from_clean. Qed.

(** X17. The text that [main] makes of an alternative (its symbols
    joined by single blanks) gives [add_production] the same body as
    the alternative as typed: the two calls leave the same grammar. *)
Theorem main_cleaned_alternative (g : Grammar.t) (left alt : string) :
  Py.split (Py.strip (cleaned alt)) = Py.split alt
  ∧ Grammar.add_production g left (cleaned alt) = Grammar.add_production g left alt.
Proof.
assert (Py.split (Py.strip (cleaned alt)) = Py.split (Py.strip alt)) as Hbody.
{ unfold cleaned. rewrite split_strip. apply split_join, split_clean. }
split; [by rewrite Hbody, split_strip|].
unfold Grammar.add_production. by rewrite Hbody.
Qed.

(** X18. No symbol of a body of a loaded grammar is the empty string or
    holds a white-space character. *)
Theorem load_symbols_clean (rules : list (string * string)) (x : string) :
  occurs (Grammar.productions (load rules)) x → clean_symbol x.
Proof.
revert x. unfold load.
apply (foldl_invariant (λ g, ∀ x, occurs (Grammar.productions g) x → clean_symbol x)).
- intros g [head alt] _ Hg x. rewrite add_production_productions.
  intros [?|Hx]%occurs_append_body; [by apply Hg|].
  revert x Hx. apply Forall_forall, split_clean.
- intros x (h & bs & b & Hp & _). by apply elem_of_nil in Hp.
Qed.

Lemma load_symbols_clean_witness :
  occurs (Grammar.productions (load [("S", "  a   S "); ("S", "b")])) "a"
  ∧ clean_symbol "a".
Proof.
assert (occurs (Grammar.productions (load [("S", "  a   S "); ("S", "b")])) "a") as Hocc.
{ exists "S", [["a"; "S"]; ["b"]], ["a"; "S"].
  split; [vm_compute; by left|]. split; by left. }
exact (conj Hocc (load_symbols_clean [("S", "  a   S "); ("S", "b")] "a" Hocc)).
Defined.

(** ** first_of_string: what it returns *)

Section FirstOfString.
Import Grammar.
Variable self : t.

(** [symbol] is a head whose FIRST set holds the epsilon marker. *)
Definition nullable (symbol : string) : Prop :=
  has_key (productions self) symbol = true ∧ EPS ∈ getset (first self) symbol.

(** [x] comes from the first symbol of [symbols] that the scan does not
    pass: the symbol itself when it is no head, a member of its FIRST
    set other than the epsilon marker when it is one. *)
Definition opens (symbols : list string) (x : string) : Prop :=
  ∃ pre symbol post,
    symbols = pre ++ symbol :: post ∧ Forall nullable pre ∧
    if has_key (productions self) symbol
    then x ∈ getset (first self) symbol ∧ x ≠ EPS
    else x = symbol.

Lemma opens_cons symbol rest x :
  opens (symbol :: rest) x
  ↔ (if has_key (productions self) symbol
     then x ∈ getset (first self) symbol ∧ x ≠ EPS else x = symbol)
    ∨ (nullable symbol ∧ opens rest x).
Proof.
split.
- intros (pre & s & post & Heq & Hpre & Hx). destruct pre as [|s0 pre].
  + injection Heq as -> ->. by left.
  + injection Heq as -> ->. apply Forall_cons in Hpre as [Hs0 Hpre].
    right. split; [done|]. by exists pre, s, post.
- intros [Hx|[Hnull (pre & s & post & -> & Hpre & Hx)]].
  + by exists [], symbol, rest.
  + exists (symbol :: pre), s, post. split; [done|]. split; [|done].
    by apply Forall_cons.
Qed.

Lemma first_scan_spec symbols : ∀ result x,
  x ∈ first_scan self symbols result
  ↔ x ∈ result ∨ opens symbols x ∨ (x = EPS ∧ Forall nullable symbols).
Proof.
induction symbols as [|symbol rest IH]; intros result x; cbn [first_scan].
- rewrite elem_of_union, elem_of_singleton. split.
  + intros [?|?]; [by left|right; right; done].
  + intros [?|[(pre & s & post & Heq & _)|[? _]]]; [by left| |by right].
    by destruct pre.
- rewrite opens_cons, Forall_cons. unfold nullable.
  destruct (has_key (productions self) symbol) eqn:Ekey; simpl.
  + destruct (bool_decide (EPS ∈ getset (first self) symbol)) eqn:Eeps; simpl.
    * apply bool_decide_eq_true in Eeps. rewrite IH. set_unfold. naive_solver.
    * apply bool_decide_eq_false in Eeps. set_unfold. naive_solver.
  + set_unfold. naive_solver.
Qed.

End FirstOfString.

(** X19. [first_of_string] returns exactly this: walking the symbols
    from the left while each is a head whose FIRST set holds the epsilon
    marker, every member other than the marker of the FIRST set of each
    head it meets, a symbol that is no head as itself (the walk stops
    there), and the epsilon marker when the walk passes every symbol
    (in particular for the empty string). *)
Theorem first_of_string_spec (self : Grammar.t) (symbols : list string) (x : string) :
  x ∈ Grammar.first_of_string self symbols
  ↔ opens self symbols x ∨ (x = EPS ∧ Forall (nullable self) symbols).
Proof.
unfold Grammar.first_of_string. destruct symbols as [|symbol rest].
- rewrite elem_of_singleton. split; [by right|].
  intros [(pre & s & post & Heq & _)|[? _]]; [by destruct pre|done].
- rewrite first_scan_spec. set_unfold. naive_solver.
Qed.

(** ** parse_ll1: what it accepts *)

(** [derives p stack input]: the symbols [stack], rewritten from the
    left by productions of [p], give the tokens [input]. A symbol that
    is no head stands for itself; the body [['e']] stands for the empty
    string. *)
Inductive derives (p : Grammar.prods_t) : list string → list string → Prop :=
| derives_nil : derives p [] []
| derives_match a stack input :
    Grammar.has_key p a = false →
    derives p stack input → derives p (a :: stack) (a :: input)
| derives_expand head bs body stack input :
    (head, bs) ∈ p → body ∈ bs →
    derives p ((if decide (body = [EPS]) then [] else body) ++ stack) input →
    derives p (head :: stack) input.

(** The end marker is no symbol of the grammar. *)
Definition eof_free (g : Grammar.t) : Prop :=
  (EOF ∉ body_symbols (Grammar.productions g))
  ∧ Grammar.has_key (Grammar.productions g) EOF = false
  ∧ Grammar.start_symbol g ≠ Some EOF.

Section LL1Sound.
Variable grammar : Grammar.t.
Variable table : Grammar.ll1_t.
Variable tokens : list string.
Abbreviation p := (Grammar.productions grammar).
Hypothesis table_sound :
  ∀ head x body, cell table head x = Some body → ∃ bs, (head, bs) ∈ p ∧ body ∈ bs.
Hypothesis grammar_eof_free : eof_free grammar.
Hypothesis tokens_eof_free : EOF ∉ tokens.
Hypothesis tokens_terminal : Forall (λ t, Grammar.has_key p t = false) tokens.

Lemma token_at idx current :
  (tokens ++ [EOF]) !! idx = Some current →
  (current = EOF ∧ length tokens ≤ idx)
  ∨ (current ≠ EOF ∧ tokens !! idx = Some current ∧ Grammar.has_key p current = false).
Proof.
intros [Hin|[Hlen Hlast]]%lookup_app_Some.
- right. split; [|split; [done|]].
  + intros ->. apply tokens_eof_free, list_elem_of_lookup. by exists idx.
  + by apply (Forall_lookup_1 _ _ _ _ tokens_terminal Hin).
- left. by apply list_lookup_singleton_Some in Hlast as [_ <-].
Qed.

Lemma ll1_loop_sound (fuel : nat) : ∀ syms idx,
  EOF ∉ syms →
  ll1_loop fuel (tokens ++ [EOF]) grammar table ((Some <$> syms) ++ [Some EOF]) idx
    = Ok true →
  derives p syms (drop idx tokens).
Proof.
destruct grammar_eof_free as (Hbodies & Hhead & _).
induction fuel as [|fuel IH]; intros syms idx Hsyms; [done|].
cbn [ll1_loop]. unfold ll1_turn.
destruct syms as [|t syms]; cbn [fmap list_fmap app].
- destruct ((tokens ++ [EOF]) !! idx) as [current|] eqn:Ecur; [|done].
  destruct (bool_decide (Some EOF = Some current)) eqn:Etop.
  + apply bool_decide_eq_true in Etop as [= <-].
    apply token_at in Ecur as [[_ Hlen]|[? _]]; [|done].
    intros _. rewrite drop_ge by done. constructor.
  + rewrite Hhead. simpl. by intros [= ?].
- apply not_elem_of_cons in Hsyms as [Hne Hsyms].
  destruct ((tokens ++ [EOF]) !! idx) as [current|] eqn:Ecur; [|done].
  destruct (bool_decide (Some t = Some current)) eqn:Etop.
  + apply bool_decide_eq_true in Etop as [= <-].
    rewrite bool_decide_eq_false_2 by (by intros [= ?]).
    rewrite bind_Ok_l. intros Hrun.
    apply token_at in Ecur as [[? _]|(_ & Hidx & Hterm)]; [done|].
    rewrite (drop_S _ _ _ Hidx). apply derives_match; [done|].
    rewrite <- Nat.add_1_r. by apply IH.
  + destruct (Grammar.has_key p t) eqn:Ekey; simpl; [|by intros [= ?]].
    destruct (getrow table t !! current) as [production|] eqn:Ecell; [|by intros [= ?]].
    destruct (table_sound t current production Ecell) as (bs & Hp & Hbody).
    assert (EOF ∉ production) as Hprod.
    { intros Hin. apply Hbodies, occurs_body_symbols. by exists t, bs, production. }
    destruct (bool_decide (production ≠ [EPS])) eqn:Eeps; rewrite bind_Ok_l.
    * apply bool_decide_eq_true in Eeps. intros Hrun.
      apply (derives_expand p t bs production); [done..|].
      rewrite decide_False by done. apply IH.
      -- intros [?|?]%elem_of_app; done.
      -- by rewrite fmap_app, <- app_assoc.
    * apply bool_decide_eq_false in Eeps. intros Hrun.
      apply (derives_expand p t bs production); [done..|].
      rewrite decide_True by (by destruct (decide (production = [EPS])); [|destruct Eeps]).
      by apply IH.
Qed.

Lemma parse_ll1_accepts (fuel : nat) :
  parse_ll1 fuel tokens grammar table = Ok true →
  ∃ start, Grammar.start_symbol grammar = Some start ∧ derives p [start] tokens.
Proof.
unfold parse_ll1. destruct (Grammar.start_symbol grammar) as [start|] eqn:Estart.
- intros Hrun. exists start. split; [done|].
  rewrite <- (drop_0 tokens). apply (ll1_loop_sound fuel [start] 0); [|done].
  intros Heq%list_elem_of_singleton. destruct grammar_eof_free as (_ & _ & Hne).
  apply Hne. congruence.
- destruct fuel as [|fuel]; [done|]. cbn [ll1_loop]. unfold ll1_turn.
  destruct ((tokens ++ [EOF]) !! 0) as [current|]; [|done].
  rewrite bool_decide_eq_false_2 by done. by intros [= ?].
Qed.

End LL1Sound.

(** X20. [parse_ll1] with the table that [build_ll1_table] returned
    accepts only what the grammar derives: when the end marker is no
    symbol of the grammar and no token is the end marker or a head, an
    answer of [True] means that the start symbol derives the tokens. *)
Theorem parse_ll1_sound (fuel n : nat) (g g' : Grammar.t) (table : Grammar.ll1_t)
    (tokens : list string) :
  Grammar.build_ll1_table fuel g = Ok (Some table, g') →
  eof_free g' →
  EOF ∉ tokens →
  Forall (λ t, Grammar.has_key (Grammar.productions g') t = false) tokens →
  parse_ll1 n tokens g' table = Ok true →
  ∃ start, Grammar.start_symbol g' = Some start
           ∧ derives (Grammar.productions g') [start] tokens.
Proof.
intros Hbuild Hfree Heof Hterm Hrun.
apply (parse_ll1_accepts g' table tokens) with (fuel := n); [|done..].
intros head x body Hcell.
pose proof (build_ll1_table_fill _ _ _ _ Hbuild) as Hfill.
symmetry in Hfill. unfold Grammar.ll1_fill in Hfill.
apply ll1_heads_cells in Hfill as [_ [_ Horigin]].
destruct (Horigin head x body Hcell) as [Hempty|(bs & ? & ? & _)]; [|by exists bs].
unfold cell, getrow in Hempty. by rewrite lookup_empty in Hempty.
Qed.

Lemma parse_ll1_sound_witness :
  let r := Grammar.build_ll1_table 3 g_epsilon in
  r = Ok (Some (ll1_table_of r), ll1_built r)
  ∧ eof_free (ll1_built r)
  ∧ (EOF ∉ ["a"; "b"])
  ∧ Forall (λ t, Grammar.has_key (Grammar.productions (ll1_built r)) t = false) ["a"; "b"]
  ∧ parse_ll1 5 ["a"; "b"] (ll1_built r) (ll1_table_of r) = Ok true
  ∧ ∃ start, Grammar.start_symbol (ll1_built r) = Some start
             ∧ derives (Grammar.productions (ll1_built r)) [start] ["a"; "b"].
Proof.
intros r.
assert (r = Ok (Some (ll1_table_of r), ll1_built r)) as Hbuild.
{ apply ll1_succeeded_inv. vm_compute. reflexivity. }
assert (eof_free (ll1_built r)) as Hfree by (unfold eof_free; by_running).
assert (EOF ∉ ["a"; "b"]) as Heof by by_running.
assert (Forall (λ t, Grammar.has_key (Grammar.productions (ll1_built r)) t = false)
          ["a"; "b"]) as Hterm by by_running.
assert (parse_ll1 5 ["a"; "b"] (ll1_built r) (ll1_table_of r) = Ok true) as Hrun.
{ vm_compute. reflexivity. }
exact (conj Hbuild (conj Hfree (conj Heof (conj Hterm (conj Hrun
  (parse_ll1_sound 3 5 g_epsilon _ _ ["a"; "b"] Hbuild Hfree Heof Hterm Hrun)))))).
Defined.

(** ** slr_parse on the tables of a build *)

(** Where the items of a closure come from: the items given, and items
    with the dot in front whose head stands after the dot of an item of
    the set. *)
Lemma closure_origin (fuel : nat) (g : Grammar.t) (items closure_set : State) :
  Grammar.closure fuel g items = Ok closure_set →
  ∀ x, x ∈ closure_set →
    x ∈ items
    ∨ (LR0Item.dot_pos x = 0
       ∧ Grammar.has_key (Grammar.productions g) (LR0Item.head x) = true
       ∧ set_Exists (λ parent, LR0Item.next_symbol parent = Some (LR0Item.head x))
           closure_set).
Proof.
intros Hrun. destruct (closure_least _ _ _ _ Hrun) as (Hitems & Hcomplete & Hleast).
set (W := filter (λ x : Item,
  x ∈ items
  ∨ (LR0Item.dot_pos x = 0
     ∧ Grammar.has_key (Grammar.productions g) (LR0Item.head x) = true
     ∧ set_Exists (λ parent, LR0Item.next_symbol parent = Some (LR0Item.head x))
         closure_set)) closure_set).
assert (closure_set ⊆ W) as Hsub.
{ apply Hleast.
  - intros item next_sym bs prod [_ Hin]%elem_of_filter Hnext Hne Hbs Hprod.
    apply elem_of_filter. split; [|by apply (Hcomplete item next_sym bs prod)].
    right. split; [done|]. split; [unfold Grammar.has_key; simpl; by rewrite Hbs|].
    by exists item.
  - intros y Hy. apply elem_of_filter. split; [by left|by apply Hitems]. }
intros x Hx. by apply Hsub, elem_of_filter in Hx as [? _].
Qed.

Lemma goto_origin (fuel : nat) (g : Grammar.t) (items target : State)
    (symbol : option string) :
  Grammar.goto fuel g items symbol = Ok target →
  ∀ x, x ∈ target →
    (∃ item, item ∈ items ∧ LR0Item.next_symbol item = symbol ∧ x = LR0Item.advance item)
    ∨ (LR0Item.dot_pos x = 0
       ∧ Grammar.has_key (Grammar.productions g) (LR0Item.head x) = true
       ∧ set_Exists (λ parent, LR0Item.next_symbol parent = Some (LR0Item.head x)) target).
Proof.
unfold Grammar.goto. intros Hrun x Hx.
destruct (closure_origin _ _ _ _ Hrun x Hx) as [Hmoved|?]; [left|by right].
apply goto_moved in Hmoved as [Hempty|(item & Hin & Hnext & ->)];
  [by apply elem_of_empty in Hempty|].
exists item. split; [by apply elem_of_elements|done].
Qed.

Lemma goto_advance (fuel : nat) (g : Grammar.t) (items target : State)
    (symbol : option string) (item : Item) :
  Grammar.goto fuel g items symbol = Ok target →
  item ∈ items → LR0Item.next_symbol item = symbol → LR0Item.advance item ∈ target.
Proof.
unfold Grammar.goto. intros Hrun Hin Hnext.
destruct (closure_least _ _ _ _ Hrun) as (Hsub & _).
apply Hsub, goto_moved_elem; [by apply elem_of_elements|done].
Qed.

Lemma next_symbol_not_reduce (item : Item) (X : string) :
  LR0Item.next_symbol item = Some X → LR0Item.is_reduce_item item = false.
Proof.
unfold LR0Item.next_symbol, LR0Item.is_reduce_item.
destruct (decide _); [|done]. intros _. apply bool_decide_eq_false. lia.
Qed.

Lemma pop_each_drop (body : list string) : ∀ stack,
  length body ≤ length stack → pop_each body stack = Ok (drop (length body) stack).
Proof.
induction body as [|b body IH]; intros stack Hlen; [done|].
destruct stack as [|top stack]; simpl in *; [lia|]. apply IH. lia.
Qed.

(** The traversal has run [goto] for every item with the dot before a
    symbol. *)
Section GotoRuns.
Import Grammar.
Variable self : t.
Variable fuel : nat.
Variable aug_start : option string.

Lemma slr_item_goto_runs idx state acc item st' :
  slr_item fuel self aug_start idx state acc item = Ok st' →
  (∃ st, acc = Ok st)
  ∧ (LR0Item.is_reduce_item item = false →
     ∃ target, goto fuel self state (LR0Item.next_symbol item) = Ok target).
Proof.
unfold slr_item. destruct acc as [st| |]; [|done..]. rewrite bind_Ok_l.
intros Hrun. split; [by eexists|]. intros Hred. rewrite Hred in Hrun.
destruct (goto fuel self state (LR0Item.next_symbol item)) as [target| |]; [|done..].
by eexists.
Qed.

Lemma slr_items_goto_runs idx state l : ∀ acc st',
  foldl (slr_item fuel self aug_start idx state) acc l = Ok st' →
  (∃ st, acc = Ok st)
  ∧ ∀ item, item ∈ l → LR0Item.is_reduce_item item = false →
      ∃ target, goto fuel self state (LR0Item.next_symbol item) = Ok target.
Proof.
induction l as [|x l IH]; intros acc st'; cbn [foldl].
- intros ->. split; [by eexists|]. by intros item ?%elem_of_nil.
- intros [[st1 Hst1] Hrest]%IH.
  apply slr_item_goto_runs in Hst1 as [Hacc Hx]. split; [done|].
  intros item [->|Hin]%elem_of_cons; [done|by apply Hrest].
Qed.

Lemma slr_states_goto_runs l : ∀ idx acc st',
  slr_states fuel self aug_start idx l acc = Ok st' →
  (∃ st, acc = Ok st)
  ∧ ∀ state item, state ∈ l → item ∈ state → LR0Item.is_reduce_item item = false →
      ∃ target, goto fuel self state (LR0Item.next_symbol item) = Ok target.
Proof.
induction l as [|s l IH]; intros idx acc st'; simpl.
- intros ->. split; [by eexists|]. by intros state item ?%elem_of_nil.
- intros [[st1 Hst1] Hrest]%IH.
  apply slr_items_goto_runs in Hst1 as [Hacc Hs]. split; [done|].
  intros state item [->|Hin]%elem_of_cons Hitem; [|by apply Hrest].
  by apply Hs, elem_of_elements.
Qed.

End GotoRuns.

Section SLRDriver.
Variable grammar : Grammar.t.
Variable fuel : nat.
Variable action : gmap nat (gmap string Action).
Variable goto_t : gmap nat (gmap (option string) nat).
Variable aug_start : option string.
Variable tokens : list string.

Hypothesis action_built : Grammar.action_table grammar = Default action.
Hypothesis goto_built : Grammar.goto_table grammar = Default goto_t.
Hypothesis entries_justified :
  ∀ i a act, getrow action i !! a = Some act → action_ok grammar fuel aug_start i a act.
Hypothesis items_entered :
  ∀ i state item, Grammar.states grammar !! i = Some state → item ∈ state →
    entered grammar fuel aug_start action goto_t i state item.
Hypothesis goto_runs :
  ∀ i state item, Grammar.states grammar !! i = Some state → item ∈ state →
    LR0Item.is_reduce_item item = false →
    ∃ target, Grammar.goto fuel grammar state (LR0Item.next_symbol item) = Ok target.
Hypothesis states_complete :
  ∀ i state X target,
    Grammar.states grammar !! i = Some state →
    X ∈ Grammar.terminals grammar ∪ Grammar.non_terminals grammar →
    Grammar.goto fuel grammar state (Some X) = Ok target → target ≠ ∅ →
    ∃ j, Grammar.states grammar !! j = Some target.
Hypothesis state_zero :
  ∃ c, Grammar.states grammar !! 0 = Some c
       ∧ ∀ x, x ∈ c →
           LR0Item.dot_pos x = 0
           ∧ (Some (LR0Item.head x) ≠ aug_start →
              Grammar.has_key (Grammar.productions grammar) (LR0Item.head x) = true
              ∧ set_Exists (λ parent, LR0Item.next_symbol parent = Some (LR0Item.head x)) c).
Hypothesis heads_apart :
  ∀ h, Grammar.has_key (Grammar.productions grammar) h = true →
       h ∈ Grammar.non_terminals grammar ∧ h ∉ Grammar.terminals grammar.
Hypothesis eof_no_terminal : EOF ∉ Grammar.terminals grammar.

(** The stack (top first) spells a walk through the automaton that
    starts in state 0. *)
Inductive stack_path : list nat → Prop :=
| path_bottom : stack_path [0]
| path_step j i rest X s t :
    stack_path (i :: rest) →
    Grammar.states grammar !! i = Some s →
    Grammar.goto fuel grammar s (Some X) = Ok t →
    Grammar.states grammar !! j = Some t →
    stack_path (j :: i :: rest).

Lemma item_unfold (x : Item) :
  LR0Item.dot_pos x = 0 → x = LR0Item.mk (LR0Item.head x) (LR0Item.body x) 0.
Proof. destruct x as [h b d]. simpl. by intros ->. Qed.

(** An item with the dot in front, in the state on top of the stack. *)
Lemma path_dot0 i rest s x :
  stack_path (i :: rest) → Grammar.states grammar !! i = Some s → x ∈ s →
  LR0Item.dot_pos x = 0 → Some (LR0Item.head x) ≠ aug_start →
  Grammar.has_key (Grammar.productions grammar) (LR0Item.head x) = true
  ∧ set_Exists (λ parent, LR0Item.next_symbol parent = Some (LR0Item.head x)) s.
Proof.
intros Hpath Hi Hx Hdot Hne. inversion Hpath as [|j i' rest' X s' t Hp Hi' Hgoto Hj]; subst.
- destruct state_zero as (c & Hc & Hall). rewrite Hc in Hi. injection Hi as <-.
  by apply Hall.
- rewrite Hj in Hi. injection Hi as <-.
  destruct (goto_origin _ _ _ _ _ Hgoto x Hx) as [(item & _ & _ & ->)|(_ & ? & ?)];
    [|done].
  simpl in Hdot. lia.
Qed.

(** An item of the state on top of the stack has its dot no deeper than
    the stack, and the state that many places down holds the item with
    the dot in front. *)
Lemma path_history stack :
  stack_path stack →
  ∀ j rest s x,
    stack = j :: rest → Grammar.states grammar !! j = Some s → x ∈ s →
    ∃ i rest' s',
      drop (LR0Item.dot_pos x) stack = i :: rest'
      ∧ Grammar.states grammar !! i = Some s'
      ∧ LR0Item.mk (LR0Item.head x) (LR0Item.body x) 0 ∈ s'
      ∧ stack_path (i :: rest').
Proof.
induction 1 as [|j i rest X s t Hpath IH Hi Hgoto Hj]; intros j' rest' s' x Heq Hs' Hx.
- injection Heq as <- <-.
  destruct state_zero as (c & Hc & Hall). rewrite Hc in Hs'. injection Hs' as <-.
  destruct (Hall x Hx) as [Hdot _]. rewrite Hdot. exists 0, [], c.
  split; [done|]. split; [done|]. split; [by rewrite <- item_unfold|constructor].
- injection Heq as <- <-. rewrite Hj in Hs'. injection Hs' as <-.
  destruct (goto_origin _ _ _ _ _ Hgoto x Hx) as [(item & Hin & _ & ->)|(Hdot & _)].
  + destruct (IH i rest s item eq_refl Hi Hin) as (i0 & rest0 & s0 & Hdrop & ? & ? & ?).
    exists i0, rest0, s0. split; [|done]. simpl. by rewrite Nat.add_1_r.
  + rewrite Hdot. exists j, (i :: rest), t.
    split; [done|]. split; [done|]. split; [by rewrite <- item_unfold|].
    by apply (path_step j i rest X s t).
Qed.

Lemma slr_turn_safe stack idx :
  stack_path stack → idx ≤ length tokens →
  match slr_turn (tokens ++ [EOF]) grammar stack idx with
  | Ok (Again stack' idx') => stack_path stack' ∧ idx' ≤ length tokens
  | Ok (Return _) => True
  | _ => False
  end.
Proof.
intros Hpath Hidx. unfold slr_turn.
destruct stack as [|j rest]; [inversion Hpath|].
destruct ((tokens ++ [EOF]) !! idx) as [current|] eqn:Ecur.
2:{ apply lookup_ge_None in Ecur. rewrite length_app in Ecur. simpl in Ecur. lia. }
rewrite action_built. simpl. change (default ∅ (action !! j)) with (getrow action j).
destruct (getrow action j !! current) as [[target|h b|]|] eqn:Ecell; [| |done..].
- destruct (entries_justified j current _ Ecell)
    as (state & item & Hj & Hin & _ & _ & Hterm & t & Hgoto & Htarget).
  split; [by apply (path_step target j rest current state t)|].
  apply lookup_app_Some in Ecur as [Hlt%lookup_lt_Some|[_ Hlast]]; [lia|].
  apply list_lookup_singleton_Some in Hlast as [_ <-]. done.
- destruct (entries_justified j current _ Ecell)
    as (state & item & Hj & Hin & -> & Hne & _).
  destruct (path_history _ Hpath j rest state _ eq_refl Hj Hin)
    as (i & rest' & s' & Hdrop & Hi & Hfront & Hpath').
  simpl in Hdrop, Hfront.
  rewrite pop_each_drop.
  2:{ destruct (decide (length b ≤ length (j :: rest))); [done|].
      rewrite drop_ge in Hdrop by lia. done. }
  rewrite Hdrop. simpl. rewrite goto_built. simpl.
  change (default ∅ (goto_t !! i)) with (getrow goto_t i).
  destruct (path_dot0 i rest' s' _ Hpath' Hi Hfront eq_refl Hne)
    as (Hkey & parent & Hparent & Hnext).
  simpl in Hkey, Hnext.
  pose proof (next_symbol_not_reduce parent h Hnext) as Hred.
  destruct (goto_runs i s' parent Hi Hparent Hred) as [target Hgoto].
  rewrite Hnext in Hgoto.
  destruct (heads_apart h Hkey) as [Hnon Hterm].
  destruct (states_complete i s' h target Hi) as [tidx Htidx]; [set_solver|done| |].
  { intros Hempty. apply (goto_advance _ _ _ _ _ parent Hgoto) in Hparent; [|done].
    rewrite Hempty in Hparent. by apply elem_of_empty in Hparent. }
  pose proof (items_entered i s' parent Hi Hparent) as Hent.
  unfold entered in Hent. rewrite Hred, Hnext in Hent.
  specialize (Hent target tidx Hgoto Htidx).
  rewrite bool_decide_eq_false_2 in Hent by done. rewrite Hent.
  split; [|done]. by apply (path_step tidx i rest' h s' target).
Qed.

Lemma slr_loop_safe (n : nat) : ∀ stack idx,
  stack_path stack → idx ≤ length tokens →
  slr_loop n (tokens ++ [EOF]) grammar stack idx = OutOfFuel
  ∨ ∃ verdict, slr_loop n (tokens ++ [EOF]) grammar stack idx = Ok verdict.
Proof.
induction n as [|n IH]; intros stack idx Hpath Hidx; [by left|].
cbn [slr_loop]. pose proof (slr_turn_safe stack idx Hpath Hidx) as Hturn.
destruct (slr_turn _ _ _ _) as [[stack' idx'|verdict]| |]; [|by right; eexists|done..].
rewrite bind_Ok_l. destruct Hturn. by apply IH.
Qed.

End SLRDriver.

Lemma calculate_follow_fields fuel g g' :
  Grammar.calculate_follow fuel g = Ok g' →
  Grammar.productions g' = Grammar.productions g
  ∧ Grammar.terminals g' = Grammar.terminals g
  ∧ Grammar.non_terminals g' = Grammar.non_terminals g
  ∧ Grammar.start_symbol g' = Grammar.start_symbol g.
Proof.
unfold Grammar.calculate_follow.
destruct (while_changed _ _ _) as [f| |]; [|done..]. by intros [= <-].
Qed.

(** [augmented] when the primed start symbol is no head yet: the
    grammar it is called on is left alone. *)
Lemma augmented_fresh g s :
  Grammar.start_symbol g = Some s →
  Grammar.has_key (Grammar.productions g) (s +:+ "'") = false →
  Grammar.augmented g
  = Ok (Grammar.add_production
          (Grammar.mk (Grammar.productions g) (Grammar.terminals g)
             (Grammar.non_terminals g) (Some (s +:+ "'")) ∅ ∅ (Plain ∅) (Plain ∅) [] false)
          (s +:+ "'") s,
        g).
Proof. intros Hs Hfresh. unfold Grammar.augmented. rewrite Hs. cbv zeta. by rewrite Hfresh. Qed.

(** X21. [slr_parse] raises no exception on the tables of a build that
    succeeded, whatever the tokens, for a grammar in which the primed
    start symbol is no head, every head is filed as a non-terminal and
    not as a terminal, and the end marker is no terminal: the stack is
    never popped empty, [tokens[idx]] is read inside the input, and the
    goto entry looked up after a reduce is there. A call either answers
    or is still running. *)
Theorem slr_parse_never_raises (fuel n : nat) (g g' : Grammar.t)
    (action : gmap nat (gmap string Action))
    (goto : gmap nat (gmap (option string) nat))
    (printed : list Grammar.conflict_t) (tokens : list string) :
  Grammar.build_slr_tables fuel g = Ok (Some (action, goto), g', printed) →
  primed (Grammar.start_symbol g) ∉ (Some <$> (Grammar.productions g).*1) →
  Forall (λ h, h ∈ Grammar.non_terminals g ∧ h ∉ Grammar.terminals g)
         (Grammar.productions g).*1 →
  EOF ∉ Grammar.terminals g →
  slr_parse n tokens g' = OutOfFuel ∨ ∃ verdict, slr_parse n tokens g' = Ok verdict.
Proof.
intros Hrun Hprime Hheads Heof. unfold Grammar.build_slr_tables in Hrun.
apply bind_Ok in Hrun as (g1 & Hfirst & Hrun).
apply bind_Ok in Hrun as (g2 & Hfollow & Hrun).
apply bind_Ok in Hrun as ([tr g3] & Hlr0 & Hrun).
apply bind_Ok in Hrun as ([aug' g4] & Haug' & Hrun).
apply bind_Ok in Hrun as (st & Htraverse & Hrun).
destruct (calculate_first_fields _ _ _ Hfirst) as (Hp1 & Ht1 & Hn1 & Hs1 & _).
destruct (calculate_follow_fields _ _ _ Hfollow) as (Hp2 & Ht2 & Hn2 & Hs2).
rewrite <- Hp1, <- Hp2, <- Hs1, <- Hs2 in Hprime.
rewrite <- Hp1, <- Hp2, <- Ht1, <- Ht2, <- Hn1, <- Hn2 in Hheads.
rewrite <- Ht1, <- Ht2 in Heof.
destruct (build_lr0_states_sound _ _ _ _ Hlr0)
  as (aug & g2' & s & c & st0 & Haug & Hs & Hc & _ & -> & Hsound & Hcomplete).
assert (Grammar.has_key (Grammar.productions g2) (s +:+ "'") = false) as Hfresh.
{ destruct (Grammar.has_key _ _) eqn:Hkey; [|done]. destruct Hprime.
  rewrite Hs. apply list_elem_of_fmap. exists (s +:+ "'"). split; [done|].
  by apply has_key_heads_iff. }
rewrite (augmented_fresh g2 s Hs Hfresh) in Haug. injection Haug as Haug <-.
destruct (augmented_fields _ _ _ Haug') as (_ & _ & _ & s' & Hs' & Hstart').
simpl in Hs'. rewrite Hs in Hs'. injection Hs' as <-.
rewrite (augmented_fresh (Grammar.with_states (Grammar.lr0_states st0) g2) s Hs Hfresh)
  in Haug'.
injection Haug' as _ <-. rewrite Hstart' in Htraverse.
destruct Hsound as (Hnd & _ & _ & _ & Hzero).
destruct (Grammar.slr_conflict st) eqn:Hflag; [done|].
cbn [Grammar.has_slr_conflict Grammar.with_has_slr_conflict] in Hrun.
injection Hrun as <- <- <- <-.
set (g3 := Grammar.with_states (Grammar.lr0_states st0) g2) in *.
assert (entries_sound g3 fuel (Some (s +:+ "'"))
          (Ok (Grammar.mk_slr ∅ ∅ (Grammar.has_slr_conflict g3) []))) as Hinit.
{ intros st1 [= <-]. split.
  - intros i a act. unfold action_cell, getrow. simpl. by rewrite lookup_empty.
  - intros i X j. unfold goto_cell, getrow. simpl. by rewrite lookup_empty. }
destruct (slr_states_sound g3 fuel _ (Grammar.states g3) 0 _ (λ k s Hk, Hk) Hinit
            st Htraverse) as [Hjustified _].
destruct (slr_states_quiet g3 fuel (Some (s +:+ "'")) Hnd (Grammar.states g3) 0 _ st
            (λ k s Hk, Hk) Htraverse Hflag) as (_ & _ & Hentered).
destruct (slr_states_goto_runs g3 fuel (Some (s +:+ "'")) (Grammar.states g3) 0 _ st
            Htraverse) as [_ Hruns].
unfold slr_parse.
apply (slr_loop_safe _ fuel (Grammar.slr_action st) (Grammar.slr_goto st)
         (Some (s +:+ "'")) tokens).
- done.
- done.
- exact Hjustified.
- intros i state item Hi Hitem. exact (Hentered i state item Hi Hitem).
- intros i state item Hi Hitem Hred. apply (Hruns state item); [|done..].
  apply list_elem_of_lookup. by exists i.
- intros i state X target Hi HX Hgoto Hne.
  destruct (Hcomplete i state X target) as (j & _ & Hj); [|done..|by exists j].
  by apply lookup_lt_Some in Hi.
- exists c. split; [exact Hzero|]. intros x Hx.
  destruct (closure_origin _ _ _ _ Hc x Hx) as [->%elem_of_singleton|(Hdot & Hkey & Hpar)].
  + split; [done|]. by intros [].
  + split; [done|]. intros Hne. split; [|done].
    rewrite <- Haug, add_production_productions in Hkey.
    apply has_key_append_body in Hkey as [Heq|?]; [|done].
    destruct Hne. by rewrite Heq.
- intros h Hkey%has_key_heads_iff.
  by apply (proj1 (Forall_forall _ _) Hheads).
- exact Heof.
- constructor.
- lia.
Qed.

Lemma slr_parse_never_raises_witness :
  let r := Grammar.build_slr_tables 13 g_arith in
  r = Ok (Some (slr_action_of r, slr_goto_of r), built r, slr_printed_of r)
  ∧ (primed (Grammar.start_symbol g_arith) ∉ (Some <$> (Grammar.productions g_arith).*1))
  ∧ Forall (λ h, h ∈ Grammar.non_terminals g_arith ∧ h ∉ Grammar.terminals g_arith)
           (Grammar.productions g_arith).*1
  ∧ (EOF ∉ Grammar.terminals g_arith)
  ∧ (slr_parse 40 ["id"; "+"; ")"] (built r) = OutOfFuel
     ∨ ∃ verdict, slr_parse 40 ["id"; "+"; ")"] (built r) = Ok verdict).
Proof.
intros r.
assert (r = Ok (Some (slr_action_of r, slr_goto_of r), built r, slr_printed_of r)) as Hrun.
{ apply slr_succeeded_inv. vm_compute. reflexivity. }
assert (primed (Grammar.start_symbol g_arith) ∉ (Some <$> (Grammar.productions g_arith).*1))
  as Hprime by by_running.
assert (Forall (λ h, h ∈ Grammar.non_terminals g_arith ∧ h ∉ Grammar.terminals g_arith)
          (Grammar.productions g_arith).*1) as Hheads by by_running.
assert (EOF ∉ Grammar.terminals g_arith) as Heof by by_running.
exact (conj Hrun (conj Hprime (conj Hheads (conj Heof
  (slr_parse_never_raises 13 40 g_arith _ _ _ _ ["id"; "+"; ")"] Hrun Hprime Hheads Heof))))).
Defined.

(** ** slr_parse: what it accepts *)

(** [rewrites p form input]: replacing heads by their bodies, anywhere
    and any number of times, turns the symbols [form] into [input].
    Bodies are taken as they are stored. *)
Inductive rewrites (p : Grammar.prods_t) : list string → list string → Prop :=
| rewrites_refl form : rewrites p form form
| rewrites_step pre head bs body post input :
    (head, bs) ∈ p → body ∈ bs →
    rewrites p (pre ++ body ++ post) input →
    rewrites p (pre ++ head :: post) input.

Lemma rewrites_app_r p form input suffix :
  rewrites p form input → rewrites p (form ++ suffix) (input ++ suffix).
Proof.
induction 1 as [form|pre head bs body post input Hp Hb _ IH]; [constructor|].
rewrite <- app_assoc. simpl. apply (rewrites_step p pre head bs body); [done..|].
by rewrite <- !app_assoc in IH.
Qed.

Lemma initial_items_inv (p : Grammar.prods_t) (x : Item) :
  x ∈ initial_items p →
  LR0Item.dot_pos x = 0 ∧ ∃ bs, (LR0Item.head x, bs) ∈ p ∧ LR0Item.body x ∈ bs.
Proof.
unfold initial_items. rewrite elem_of_list_to_set, list_elem_of_bind.
intros ([h bs] & Hx & Hp). apply list_elem_of_fmap in Hx as (b & -> & Hb).
split; [done|]. by exists bs.
Qed.

Lemma closure_within_initial (fuel : nat) (g : Grammar.t) (items closure_set : State) :
  Grammar.closure fuel g items = Ok closure_set →
  closure_set ⊆ items ∪ initial_items (Grammar.productions g).
Proof.
intros Hrun. destruct (closure_least _ _ _ _ Hrun) as (_ & _ & Hleast).
apply Hleast; [apply closure_complete_initial|set_solver].
Qed.

Lemma goto_origin_body (fuel : nat) (g : Grammar.t) (items target : State)
    (symbol : option string) :
  Grammar.goto fuel g items symbol = Ok target →
  ∀ x, x ∈ target →
    (∃ item, item ∈ items ∧ LR0Item.next_symbol item = symbol ∧ x = LR0Item.advance item)
    ∨ (LR0Item.dot_pos x = 0
       ∧ ∃ bs, (LR0Item.head x, bs) ∈ Grammar.productions g ∧ LR0Item.body x ∈ bs).
Proof.
unfold Grammar.goto. intros Hrun x Hx.
apply (closure_within_initial _ _ _ _ Hrun), elem_of_union in Hx as [Hmoved|Hinit].
- left. apply goto_moved in Hmoved as [Hempty|(item & Hin & Hnext & ->)];
    [by apply elem_of_empty in Hempty|].
  exists item. split; [by apply elem_of_elements|done].
- right. by apply initial_items_inv.
Qed.

Lemma split_clean_symbol (w : string) : clean_symbol w → Py.split (Py.strip w) = [w].
Proof.
intros Hw. rewrite split_strip. change w with (Py.join " " [w]) at 1.
apply split_join. by apply Forall_singleton.
Qed.

Section SLRAccepts.
Variable grammar : Grammar.t.
Variable fuel : nat.
Variable action : gmap nat (gmap string Action).
Variable goto_t : gmap nat (gmap (option string) nat).
Variable start : string.
Variable tokens : list string.
Abbreviation p := (Grammar.productions grammar).
Abbreviation start' := (start +:+ "'").

Hypothesis action_built : Grammar.action_table grammar = Default action.
Hypothesis goto_built : Grammar.goto_table grammar = Default goto_t.
Hypothesis entries_justified :
  ∀ i a act, getrow action i !! a = Some act → action_ok grammar fuel (Some start') i a act.
Hypothesis goto_justified :
  ∀ i X j, getrow goto_t i !! X = Some j → goto_ok grammar fuel i X j.
Hypothesis state_zero :
  ∃ c, Grammar.states grammar !! 0 = Some c
       ∧ ∀ x, x ∈ c →
           LR0Item.dot_pos x = 0
           ∧ (LR0Item.head x = start' → LR0Item.body x = [start])
           ∧ (LR0Item.head x ≠ start' →
              ∃ bs, (LR0Item.head x, bs) ∈ p ∧ LR0Item.body x ∈ bs).
Hypothesis prime_fresh : ∀ bs, (start', bs) ∉ p.
Hypothesis tokens_end : EOF ∉ tokens.

(** The stack (top first) spells a walk through the automaton from
    state 0, over the symbols [labels] (last one first). *)
Inductive labelled : list nat → list string → Prop :=
| labelled_bottom : labelled [0] []
| labelled_step j i rest X s t labels :
    labelled (i :: rest) labels →
    Grammar.states grammar !! i = Some s →
    Grammar.goto fuel grammar s (Some X) = Ok t →
    Grammar.states grammar !! j = Some t →
    labelled (j :: i :: rest) (X :: labels).

(** An item with the dot in front, in the state on top of the stack:
    an item of the primed start symbol sits at the bottom and has the
    start symbol for its body; any other one is a production. *)
Lemma labelled_dot0 i rest labels s x :
  labelled (i :: rest) labels → Grammar.states grammar !! i = Some s → x ∈ s →
  LR0Item.dot_pos x = 0 →
  (LR0Item.head x = start' → LR0Item.body x = [start] ∧ labels = [])
  ∧ (LR0Item.head x ≠ start' → ∃ bs, (LR0Item.head x, bs) ∈ p ∧ LR0Item.body x ∈ bs).
Proof.
intros Hpath Hi Hx Hdot.
inversion Hpath as [|j i' rest' X s' t labels' Hp Hi' Hgoto Hj]; subst.
- destruct state_zero as (c & Hc & Hall). rewrite Hc in Hi. injection Hi as <-.
  destruct (Hall x Hx) as (_ & Hprime & Hother). split; [|done].
  intros Hhead. split; [by apply Hprime|done].
- rewrite Hj in Hi. injection Hi as <-.
  destruct (goto_origin_body _ _ _ _ _ Hgoto x Hx)
    as [(item & _ & _ & ->)|(_ & bs & Hbs & Hbody)].
  + simpl in Hdot. lia.
  + split; [|by exists bs]. intros Hhead. rewrite Hhead in Hbs.
    by destruct (prime_fresh bs).
Qed.

Lemma next_symbol_lookup (item : Item) (X : string) :
  LR0Item.next_symbol item = Some X →
  LR0Item.body item !! LR0Item.dot_pos item = Some X.
Proof. unfold LR0Item.next_symbol. by destruct (decide _). Qed.

(** The symbols walked last are the part of the body before the dot. *)
Lemma labelled_history stack labels :
  labelled stack labels →
  ∀ j rest s x,
    stack = j :: rest → Grammar.states grammar !! j = Some s → x ∈ s →
    ∃ i rest' s' labels',
      drop (LR0Item.dot_pos x) stack = i :: rest'
      ∧ labels = reverse (take (LR0Item.dot_pos x) (LR0Item.body x)) ++ labels'
      ∧ Grammar.states grammar !! i = Some s'
      ∧ LR0Item.mk (LR0Item.head x) (LR0Item.body x) 0 ∈ s'
      ∧ labelled (i :: rest') labels'.
Proof.
induction 1 as [|j i rest X s t labels Hpath IH Hi Hgoto Hj];
  intros j' rest' s' x Heq Hs' Hx.
- injection Heq as <- <-.
  destruct state_zero as (c & Hc & Hall). rewrite Hc in Hs'. injection Hs' as <-.
  destruct (Hall x Hx) as [Hdot _]. rewrite Hdot. exists 0, [], c, [].
  split; [done|]. split; [done|]. split; [done|].
  split; [by rewrite <- item_unfold|constructor].
- injection Heq as <- <-. rewrite Hj in Hs'. injection Hs' as <-.
  destruct (goto_origin_body _ _ _ _ _ Hgoto x Hx) as [(item & Hin & Hnext & ->)|(Hdot & _)].
  + destruct (IH i rest s item eq_refl Hi Hin)
      as (i0 & rest0 & s0 & labels0 & Hdrop & -> & ? & ? & ?).
    exists i0, rest0, s0, labels0. simpl. rewrite Nat.add_1_r.
    split; [done|]. split; [|done].
    rewrite (take_S_r _ _ X) by (by apply next_symbol_lookup).
    by rewrite reverse_snoc.
  + rewrite Hdot. exists j, (i :: rest), t, (X :: labels).
    split; [done|]. split; [done|]. split; [done|].
    split; [by rewrite <- item_unfold|].
    by apply (labelled_step j i rest X s t).
Qed.

(** What holds between two turns of the loop: the symbols walked
    rewrite to the tokens read. *)
Definition read_so_far (stack : list nat) (idx : nat) : Prop :=
  ∃ labels, labelled stack labels ∧ rewrites p (reverse labels) (take idx tokens).

Lemma slr_turn_accepts stack idx :
  idx ≤ length tokens → read_so_far stack idx →
  match slr_turn (tokens ++ [EOF]) grammar stack idx with
  | Ok (Again stack' idx') => idx' ≤ length tokens → read_so_far stack' idx'
  | Ok (Return true) => rewrites p [start] tokens
  | _ => True
  end.
Proof.
intros Hidx (labels & Hpath & Hread). unfold slr_turn.
destruct stack as [|j rest]; [done|].
destruct ((tokens ++ [EOF]) !! idx) as [current|] eqn:Ecur; [|done].
rewrite action_built. simpl. change (default ∅ (action !! j)) with (getrow action j).
destruct (getrow action j !! current) as [[target|h b|]|] eqn:Ecell; [| | |done].
- destruct (entries_justified j current _ Ecell)
    as (state & item & Hj & Hin & _ & _ & _ & t & Hgoto & Htarget).
  intros Hidx'. exists (current :: labels).
  split; [by apply (labelled_step target j rest current state t)|].
  apply lookup_app_Some in Ecur as [Hcur|[Hlen _]]; [|lia].
  rewrite Nat.add_1_r, (take_S_r _ _ _ Hcur), reverse_cons.
  by apply rewrites_app_r.
- destruct (entries_justified j current _ Ecell)
    as (state & item & Hj & Hin & -> & Hne & _).
  destruct (labelled_history _ _ Hpath j rest state _ eq_refl Hj Hin)
    as (i & rest' & s' & labels' & Hdrop & Hlabels & Hi & Hfront & Hpath').
  simpl in Hdrop, Hlabels, Hfront. rewrite firstn_all in Hlabels.
  rewrite pop_each_drop.
  2:{ destruct (decide (length b ≤ length (j :: rest))); [done|].
      rewrite drop_ge in Hdrop by lia. done. }
  rewrite Hdrop. simpl. rewrite goto_built. simpl.
  change (default ∅ (goto_t !! i)) with (getrow goto_t i).
  destruct (getrow goto_t i !! Some h) as [target|] eqn:Egoto; [|done].
  destruct (goto_justified i (Some h) target Egoto)
    as (state' & item' & t & Hi' & _ & _ & _ & _ & Hgoto & Htarget).
  rewrite Hi in Hi'. injection Hi' as <-.
  destruct (labelled_dot0 i rest' labels' s' _ Hpath' Hi Hfront eq_refl)
    as [_ Hprod].
  destruct Hprod as (bs & Hbs & Hbody); [by intros Heq; destruct Hne; rewrite <- Heq|].
  simpl in Hbs, Hbody.
  intros _. exists (h :: labels').
  split; [by apply (labelled_step target i rest' h s' t)|].
  rewrite reverse_cons. apply (rewrites_step p (reverse labels') h bs b []); [done..|].
  rewrite Hlabels, reverse_app, reverse_involutive in Hread.
  by rewrite app_nil_r.
- destruct (entries_justified j current _ Ecell)
    as (state & item & Hj & Hin & Hred & Hhead & ->).
  injection Hhead as Hhead.
  destruct (labelled_history _ _ Hpath j rest state item eq_refl Hj Hin)
    as (i & rest' & s' & labels' & Hdrop & Hlabels & Hi & Hfront & Hpath').
  destruct (labelled_dot0 i rest' labels' s' _ Hpath' Hi Hfront eq_refl)
    as [Hprime _].
  destruct (Hprime Hhead) as [Hbody ->]. simpl in Hbody.
  apply bool_decide_eq_true in Hred. rewrite Hred, Hbody in Hlabels.
  simpl in Hlabels. rewrite ?app_nil_r in Hlabels. subst labels.
  change (reverse [start]) with [start] in Hread.
  apply lookup_app_Some in Ecur as [Hcur|[Hlen _]].
  + destruct tokens_end. apply list_elem_of_lookup. by exists idx.
  + by rewrite take_ge in Hread by lia.
Qed.

Lemma slr_loop_accepts (n : nat) : ∀ stack idx,
  idx ≤ length tokens → read_so_far stack idx →
  slr_loop n (tokens ++ [EOF]) grammar stack idx = Ok true →
  rewrites p [start] tokens.
Proof.
induction n as [|n IH]; intros stack idx Hidx Hread; [done|].
cbn [slr_loop]. pose proof (slr_turn_accepts stack idx Hidx Hread) as Hturn.
destruct (slr_turn _ _ _ _) as [[stack' idx'|[]]| |]; [|done..].
rewrite bind_Ok_l. destruct (decide (idx' ≤ length tokens)) as [Hidx'|Hout].
- by apply IH; [|apply Hturn].
- destruct n as [|n]; [done|]. cbn [slr_loop]. unfold slr_turn.
  destruct stack' as [|j' rest']; [done|].
  rewrite (proj2 (lookup_ge_None _ _)); [done|].
  rewrite length_app. simpl. lia.
Qed.

End SLRAccepts.

(** X22. [slr_parse] on the tables of a build that succeeded accepts
    only what the grammar derives: when the start symbol is one clean
    symbol, its primed form is no head and no token is the end marker,
    an answer of [True] means that the start symbol rewrites to the
    tokens by productions of the grammar. *)
Theorem slr_parse_sound (fuel n : nat) (g g' : Grammar.t)
    (action : gmap nat (gmap string Action))
    (goto : gmap nat (gmap (option string) nat))
    (printed : list Grammar.conflict_t) (tokens : list string) (start : string) :
  Grammar.build_slr_tables fuel g = Ok (Some (action, goto), g', printed) →
  Grammar.start_symbol g = Some start →
  clean_symbol start →
  (start +:+ "'") ∉ (Grammar.productions g).*1 →
  EOF ∉ tokens →
  slr_parse n tokens g' = Ok true →
  rewrites (Grammar.productions g') [start] tokens.
Proof.
intros Hrun Hstart Hclean Hprime Heof Haccept. unfold Grammar.build_slr_tables in Hrun.
apply bind_Ok in Hrun as (g1 & Hfirst & Hrun).
apply bind_Ok in Hrun as (g2 & Hfollow & Hrun).
apply bind_Ok in Hrun as ([tr g3] & Hlr0 & Hrun).
apply bind_Ok in Hrun as ([aug' g4] & Haug' & Hrun).
apply bind_Ok in Hrun as (st & Htraverse & Hrun).
destruct (calculate_first_fields _ _ _ Hfirst) as (Hp1 & _ & _ & Hs1 & _).
destruct (calculate_follow_fields _ _ _ Hfollow) as (Hp2 & _ & _ & Hs2).
rewrite <- Hp1, <- Hp2 in Hprime. rewrite <- Hs1, <- Hs2 in Hstart.
destruct (build_lr0_states_sound _ _ _ _ Hlr0)
  as (aug & g2' & s & c & st0 & Haug & Hs & Hc & _ & -> & Hsound & _).
rewrite Hstart in Hs. injection Hs as <-.
assert (Grammar.has_key (Grammar.productions g2) (start +:+ "'") = false) as Hfresh.
{ destruct (Grammar.has_key _ _) eqn:Hkey; [|done]. destruct Hprime.
  by apply has_key_heads_iff. }
rewrite (augmented_fresh g2 start Hstart Hfresh) in Haug. injection Haug as Haug <-.
destruct (augmented_fields _ _ _ Haug') as (_ & _ & _ & s' & Hs' & Hstart').
simpl in Hs'. rewrite Hstart in Hs'. injection Hs' as <-.
rewrite (augmented_fresh (Grammar.with_states (Grammar.lr0_states st0) g2) start
           Hstart Hfresh) in Haug'.
injection Haug' as _ <-. rewrite Hstart' in Htraverse.
destruct Hsound as (_ & _ & _ & _ & Hzero).
destruct (Grammar.slr_conflict st) eqn:Hflag; [done|].
cbn [Grammar.has_slr_conflict Grammar.with_has_slr_conflict] in Hrun.
injection Hrun as <- <- <- <-.
set (g3 := Grammar.with_states (Grammar.lr0_states st0) g2) in *.
assert (entries_sound g3 fuel (Some (start +:+ "'"))
          (Ok (Grammar.mk_slr ∅ ∅ (Grammar.has_slr_conflict g3) []))) as Hinit.
{ intros st1 [= <-]. split.
  - intros i a act. unfold action_cell, getrow. simpl. by rewrite lookup_empty.
  - intros i X j. unfold goto_cell, getrow. simpl. by rewrite lookup_empty. }
destruct (slr_states_sound g3 fuel _ (Grammar.states g3) 0 _ (λ k s Hk, Hk) Hinit
            st Htraverse) as [Hactions Hgotos].
assert (∀ h bs, (h, bs) ∈ Grammar.productions g2 → h ≠ start +:+ "'") as Hheads.
{ intros h bs Hin ->. apply Hprime, list_elem_of_fmap. by exists (start +:+ "'", bs). }
unfold slr_parse in Haccept.
apply (slr_loop_accepts _ fuel (Grammar.slr_action st) (Grammar.slr_goto st) start tokens)
  with (n := n) (stack := [0]) (idx := 0); [done|done|exact Hactions|exact Hgotos| | |done|lia| |done].
- exists c. split; [exact Hzero|]. intros x Hx.
  apply (closure_within_initial _ _ _ _ Hc), elem_of_union in Hx
    as [->%elem_of_singleton|Hx].
  { split; [done|]. split; [done|]. by intros []. }
  apply initial_items_inv in Hx as (Hdot & bs & Hbs & Hbody). split; [done|].
  rewrite <- Haug, add_production_productions in Hbs.
  apply append_body_elem in Hbs as [Hold|(Hhead & bs0 & -> & [->|Hold])].
  + split; [by intros Heq; destruct (Hheads _ _ Hold)|]. intros _. by exists bs.
  + split; [|by intros []]. intros _.
    rewrite split_clean_symbol in Hbody by done.
    by apply list_elem_of_singleton in Hbody.
  + by destruct (Hheads _ _ Hold).
- intros bs Hin. by destruct (Hheads _ _ Hin).
- exists []. split; [constructor|]. constructor.
Qed.

Lemma slr_parse_sound_witness :
  let r := Grammar.build_slr_tables 13 g_arith in
  r = Ok (Some (slr_action_of r, slr_goto_of r), built r, slr_printed_of r)
  ∧ Grammar.start_symbol g_arith = Some "E"
  ∧ clean_symbol "E"
  ∧ (("E" +:+ "'") ∉ (Grammar.productions g_arith).*1)
  ∧ (EOF ∉ ["id"; "+"; "id"])
  ∧ slr_parse 40 ["id"; "+"; "id"] (built r) = Ok true
  ∧ rewrites (Grammar.productions (built r)) ["E"] ["id"; "+"; "id"].
Proof.
intros r.
assert (r = Ok (Some (slr_action_of r, slr_goto_of r), built r, slr_printed_of r)) as Hrun.
{ apply slr_succeeded_inv. vm_compute. reflexivity. }
assert (Grammar.start_symbol g_arith = Some "E") as Hstart by (vm_compute; reflexivity).
assert (clean_symbol "E") as Hclean by (split; [discriminate|reflexivity]).
assert (("E" +:+ "'") ∉ (Grammar.productions g_arith).*1) as Hprime by by_running.
assert (EOF ∉ ["id"; "+"; "id"]) as Heof by by_running.
assert (slr_parse 40 ["id"; "+"; "id"] (built r) = Ok true) as Haccept.
{ vm_compute. reflexivity. }
exact (conj Hrun (conj Hstart (conj Hclean (conj Hprime (conj Heof (conj Haccept
  (slr_parse_sound 13 40 g_arith _ _ _ _ ["id"; "+"; "id"] "E"
     Hrun Hstart Hclean Hprime Heof Haccept))))))).
Defined.
